(** * Relational categorization task: decoding, trials and fitness

    A shallow embedding of [relcat/relcat.py] (class
    [RelationalCategorization] and the two module-level helpers
    [rescale_parameter] and [periodic_boundary_conditions]).

    Conventions.
    - A Python float is the rational it denotes.  Float operations round
      where the value they return matters to what is proved: the
      module-level rescaler ([periodic_boundary_conditions],
      [rescale_parameter]) and the clock of [_record_data] apply
      [round64], the rounding to 53 significant bits, after every
      operation, as IEEE binary64 does for results that neither overflow
      nor fall below the normal range.  The reductions over trial
      outcomes ([trial], [eval_fitness], [run_trials] and the validation
      runs) are written with exact operations: what is proved of them
      (errors, shapes, which cells are read, the values 0 and 1, the
      bounds 0 and 1) does not depend on rounding.  NaN and the infinities
      are not modelled.
    - Python exceptions are values of [PyError]; a computation that may
      raise has type [Res A].
    - [for ... in range(...)] loops are [for_range]; the two [while]
      loops of [trial] take a fuel argument.
    - numpy arrays carry their shape; reading or writing outside of it
      is an [IndexError]. *)

From Stdlib Require Import QArith Qround Qabs Qminmax Qpower ZArith Lia Lqa.
From Stdlib Require Import PrimFloat FloatOps SpecFloat.
From stdpp Require Import base list.

Local Open Scope Q_scope.

(** ** Exceptions and the result monad *)

Inductive PyError : Type :=
  | ZeroDivisionError
  | IndexError
  | ValueError
  | KeyError
  | OutOfFuel.

Inductive Res (A : Type) : Type :=
  | Ok (a : A)
  | Err (e : PyError).
Arguments Ok {A} a.
Arguments Err {A} e.

Definition bind {A B : Type} (c : Res A) (k : A -> Res B) : Res B :=
  match c with
  | Ok a => k a
  | Err e => Err e
  end.

Declare Scope res_scope.
Delimit Scope res_scope with res.
Notation "x <- c1 ;; c2" := (bind c1 (fun x => c2))
  (at level 100, c1 at next level, right associativity) : res_scope.
Local Open Scope res_scope.

(** ** [for i in range(lo, hi)] *)

Fixpoint for_loop {S : Type} (lo n : nat) (body : nat -> S -> Res S) (s : S)
  : Res S :=
  match n with
  | O => Ok s
  | Datatypes.S n' => s' <- body lo s ;; for_loop (Datatypes.S lo) n' body s'
  end.

Definition for_range {S : Type} (lo hi : nat) (body : nat -> S -> Res S)
  (s : S) : Res S :=
  for_loop lo (hi - lo) body s.

(** ** Scalars *)

Definition Qltb (a b : Q) : bool := negb (Qle_bool b a).

(** [a / b] on Python floats. *)
Definition py_div (a b : Q) : Res Q :=
  if Qeq_bool b 0 then Err ZeroDivisionError else Ok (a / b).

(** [int(q)]: truncation towards zero. *)
Definition py_int (q : Q) : Z :=
  if Qle_bool 0 q then Qfloor q else Qceiling q.

(** ** Rounding of float results

    [round64 q] is the number with at most 53 significant bits nearest to
    [q], ties going to the even significand: the result binary64 returns
    for an operation whose exact value is [q].  The exponent is not
    bounded. *)

Definition pow2 (k : Z) : Q := Qpower 2 k.

(** [floor(log2 q)] for a positive [q]. *)
Definition ilog2 (q : Q) : Z :=
  let k := (Z.log2 (Qnum q) - Z.log2 (Zpos (Qden q)))%Z in
  if Qle_bool (pow2 k) q then k else (k - 1)%Z.

Definition round_half_even (s : Q) : Z :=
  let f := Qfloor s in
  match Qcompare (s - inject_Z f) (1 # 2) with
  | Lt => f
  | Gt => (f + 1)%Z
  | Eq => if Z.even f then f else (f + 1)%Z
  end.

Definition round_pos (q : Q) : Q :=
  let e := (ilog2 q - 52)%Z in
  inject_Z (round_half_even (q / pow2 e)) * pow2 e.

Definition round64 (q : Q) : Q :=
  Qred match Qcompare q 0 with
       | Eq => 0
       | Gt => round_pos q
       | Lt => - round_pos (- q)
       end.

(** The rational a finite float of the kernel denotes, to compare
    [round64] with the kernel's binary64 operations. *)
Definition float_value (f : float) : Q :=
  match Prim2SF f with
  | S754_finite s m e =>
      (if s then - (1) else 1) * inject_Z (Zpos m) * pow2 e
  | _ => 0
  end.

(** Does the kernel's operation [fop] return, at [a] and [b], the rounding
    of the exact operation [qop]? *)
Definition agrees_at (fop : float -> float -> float) (qop : Q -> Q -> Q)
    (a b : float) : bool :=
  Qeq_bool (float_value (fop a b))
           (round64 (qop (float_value a) (float_value b))).

(** C's [fmod]: the remainder of the division truncated towards zero.
    Its result is exact. *)
Definition fmod (v m : Q) : Q := v - m * inject_Z (py_int (v / m)).

(** [a % m] on floats, for a nonzero [m] (numpy's [remainder], Python's
    operator): [fmod], moved by [m] when it is not zero and its sign is
    not the sign of [m]; that addition rounds. *)
Definition py_mod (v m : Q) : Q :=
  let r := fmod v m in
  if (negb (Qeq_bool r 0) && negb (Bool.eqb (Qltb m 0) (Qltb r 0)))%bool
  then round64 (r + m)
  else r.

(** [math.ceil(n / 2)] for a natural [n]. *)
Definition ceil_half (n : nat) : nat := ((n + 1) / 2)%nat.

(** ** One-dimensional arrays *)

Definition vget (l : list Q) (i : nat) : Res Q :=
  match l !! i with
  | Some v => Ok v
  | None => Err IndexError
  end.

Definition vset (l : list Q) (i : nat) (v : Q) : Res (list Q) :=
  if decide (i < length l)%nat then Ok (<[i := v]> l) else Err IndexError.

(** [l[-k]] and [l[-k] = v] for a positive literal [k]. *)
Definition vget_back (l : list Q) (k : nat) : Res Q :=
  if decide (1 <= k <= length l)%nat then vget l (length l - k)
  else Err IndexError.

Definition vset_back (l : list Q) (k : nat) (v : Q) : Res (list Q) :=
  if decide (1 <= k <= length l)%nat then vset l (length l - k) v
  else Err IndexError.

(** [x[a:b]] for non-negative bounds (slices clip, they never raise). *)
Definition slice (x : list Q) (a b : nat) : list Q := take (b - a) (drop a x).

Definition np_zeros (n : nat) : list Q := replicate n 0.

(** ** Two-dimensional arrays *)

Record Matrix : Type := {
  shape0 : nat;
  shape1 : nat;
  cell : nat -> nat -> Q
}.

Definition in_shape (m : Matrix) (i j : nat) : bool :=
  (i <? shape0 m)%nat && (j <? shape1 m)%nat.

Definition mget (m : Matrix) (i j : nat) : Res Q :=
  if in_shape m i j then Ok (cell m i j) else Err IndexError.

Definition mset (m : Matrix) (i j : nat) (v : Q) : Res Matrix :=
  if in_shape m i j then
    Ok {| shape0 := shape0 m;
          shape1 := shape1 m;
          cell := fun a b =>
            if ((a =? i)%nat && (b =? j)%nat)%bool then v else cell m a b |}
  else Err IndexError.

(** [np.zeros((r, c))] with the dimensions as Python computes them. *)
Definition np_zeros2 (r c : Z) : Res Matrix :=
  if ((r <? 0)%Z || (c <? 0)%Z)%bool then Err ValueError
  else Ok {| shape0 := Z.to_nat r; shape1 := Z.to_nat c;
             cell := fun _ _ => 0 |}.

(** ** Parameter rescaler (module level functions of the source)

    Every operation rounds.  [scale] and [bias] are Python floats computed
    once; the last line is applied to a numpy array entry by entry. *)

Definition rescale_parameter (search_value min_param_value max_param_value
    min_search_value max_search_value : Q) : Res Q :=
  q <- py_div (round64 (max_param_value - min_param_value))
              (round64 (max_search_value - min_search_value)) ;;
  let scale := round64 q in
  let bias := round64 (min_param_value - round64 (scale * min_search_value)) in
  Ok (round64 (round64 (scale * search_value) + bias)).

Definition periodic_boundary_conditions (value bound : Q) : Q :=
  round64 (bound
           - Qabs (round64 (py_mod value (round64 (2 * bound)) - bound))).

(** The same two functions on a numpy array argument (broadcasting): the
    scale and the bias are computed once from the scalar bounds, then
    applied to every entry. *)
Definition rescale_parameter_array (search_value : list Q)
    (min_param_value max_param_value min_search_value max_search_value : Q)
  : Res (list Q) :=
  q <- py_div (round64 (max_param_value - min_param_value))
              (round64 (max_search_value - min_search_value)) ;;
  let scale := round64 q in
  let bias := round64 (min_param_value - round64 (scale * min_search_value)) in
  Ok ((fun v => round64 (round64 (scale * v) + bias)) <$> search_value).

Definition periodic_boundary_conditions_array (value : list Q) (bound : Q)
  : list Q :=
  (fun v => periodic_boundary_conditions v bound) <$> value.
(** ** Configuration ([RelationalCategorization.__init__])

    The keyword options read by the methods modelled below.  The options
    that are only handed to the constructors of the two collaborators
    ([mass], [visual_angle], [max_ray_length], [max_velocity],
    [circle_size], [obj_velocity], [noise_strength], [world_top]) are left
    out. *)

Record Config : Type := {
  world_left : Q;
  world_right : Q;
  world_bottom : Q;
  bilateral_symmetry : bool;
  agent_radius : Q;
  num_rays : nat;
  num_interneurons : nat;
  max_distance : Q;
  circle_min_diameter : Q;
  circle_max_diameter : Q;
  circle_difference : Q;
  step_size : Q;
  min_weight : Q;
  max_weight : Q;
  min_bias : Q;
  max_bias : Q;
  min_tau : Q;
  max_tau : Q;
  min_search_value : Q;
  max_search_value : Q
}.

Definition parameter_defaults : Config := {|
  world_left := 0;
  world_right := 400;
  world_bottom := 300;
  bilateral_symmetry := false;
  agent_radius := 15;
  num_rays := 7;
  num_interneurons := 3;
  max_distance := 75;
  circle_min_diameter := 20;
  circle_max_diameter := 50;
  circle_difference := 5;
  step_size := 1 # 10;
  min_weight := - (16);
  max_weight := 16;
  min_bias := - (16);
  max_bias := 16;
  min_tau := 1;
  max_tau := 30;
  min_search_value := 0;
  max_search_value := 1
|}.

(** Derived attributes, in the order [__init__] computes them. *)

Definition circuit_size (cfg : Config) : nat :=
  (num_interneurons cfg + 2)%nat.

Definition initial_agent_x (cfg : Config) : Q :=
  (world_right cfg - world_left cfg) / 2.

Definition initial_agent_y (cfg : Config) : Q :=
  world_bottom cfg - agent_radius cfg.

Definition num_sensor_weights (cfg : Config) : nat :=
  if bilateral_symmetry cfg then
    if (num_rays cfg mod 2 =? 0)%nat then
      (num_rays cfg / 2 * num_interneurons cfg)%nat
    else
      ((num_rays cfg - 1) / 2 * num_interneurons cfg
       + ceil_half (num_interneurons cfg))%nat
  else
    (num_interneurons cfg * num_rays cfg)%nat.

(** The four summands of the symmetric circuit count. *)
Definition num_motor_weights (cfg : Config) : nat := num_interneurons cfg.
Definition num_loops (cfg : Config) : nat := ceil_half (num_interneurons cfg).
Definition num_cross_connections (cfg : Config) : nat :=
  ((num_interneurons cfg / 2) ^ 2)%nat.
Definition num_side_connections (cfg : Config) : nat :=
  (ceil_half (num_interneurons cfg)
   * (ceil_half (num_interneurons cfg) - 1))%nat.

Definition num_circuit_weights (cfg : Config) : nat :=
  if bilateral_symmetry cfg then
    (num_motor_weights cfg + num_loops cfg
     + num_cross_connections cfg + num_side_connections cfg)%nat
  else
    (num_interneurons cfg * (num_interneurons cfg + 2))%nat.

Definition num_parameters (cfg : Config) : nat :=
  if bilateral_symmetry cfg then
    (num_sensor_weights cfg + num_circuit_weights cfg
     + ceil_half (num_interneurons cfg)
     + ceil_half (num_interneurons cfg)
     + 2)%nat
  else
    (num_sensor_weights cfg + num_circuit_weights cfg
     + num_interneurons cfg + 2
     + num_interneurons cfg + 2)%nat.

(** ** Genome decoder ([map_search_parameters])

    The controller parameter set the decoder writes into.  It belongs to
    the agent collaborator; [set_biases] and [set_time_constants] store
    the array they are given. *)

Record NervousSystem : Type := {
  sensor_weights : Matrix;
  circuit_weights : Matrix;
  biases : list Q;
  time_constants : list Q
}.

Definition set_sensor_weights (m : Matrix) (ns : NervousSystem) :=
  {| sensor_weights := m; circuit_weights := circuit_weights ns;
     biases := biases ns; time_constants := time_constants ns |}.
Definition set_circuit_weights (m : Matrix) (ns : NervousSystem) :=
  {| sensor_weights := sensor_weights ns; circuit_weights := m;
     biases := biases ns; time_constants := time_constants ns |}.
Definition set_biases (b : list Q) (ns : NervousSystem) :=
  {| sensor_weights := sensor_weights ns;
     circuit_weights := circuit_weights ns;
     biases := b; time_constants := time_constants ns |}.
Definition set_time_constants (t : list Q) (ns : NervousSystem) :=
  {| sensor_weights := sensor_weights ns;
     circuit_weights := circuit_weights ns;
     biases := biases ns; time_constants := t |}.

(** [rescale_parameter(periodic_boundary_conditions(seg, 1), lo, hi,
    self.min_search_value, self.max_search_value)] *)
Definition decode_segment (cfg : Config) (seg : list Q) (lo hi : Q)
  : Res (list Q) :=
  rescale_parameter_array (periodic_boundary_conditions_array seg 1)
    lo hi (min_search_value cfg) (max_search_value cfg).

(** *** Bilateral symmetry: placement of each decoded segment

    Every loop carries the array being filled and [index_counter]; the
    functions return the final [index_counter] next to the array. *)

Definition sym_place_sensor (cfg : Config) (sensor_pars : list Q)
    (sw : Matrix) : Res (Matrix * nat) :=
  let R := num_rays cfg in
  let I := num_interneurons cfg in
  st <- for_range 0 (R / 2) (fun i st =>
          for_range 0 I (fun j st =>
            let '(m, index_counter) := st in
            v <- vget sensor_pars index_counter ;;
            m <- mset m i j v ;;
            v <- vget sensor_pars index_counter ;;
            m <- mset m (R - i - 1) (I - j - 1) v ;;
            Ok (m, (index_counter + 1)%nat)) st)
        (sw, 0%nat) ;;
  if (R mod 2 =? 1)%nat then
    for_range 0 (ceil_half I) (fun j st =>
      let '(m, index_counter) := st in
      v <- vget sensor_pars index_counter ;;
      m <- mset m (R / 2) j v ;;
      v <- vget sensor_pars index_counter ;;
      m <- mset m (R / 2) (I - j - 1) v ;;
      Ok (m, (index_counter + 1)%nat)) st
  else Ok st.

Definition sym_place_circuit (cfg : Config) (circuit_pars : list Q)
    (cw : Matrix) : Res (Matrix * nat) :=
  let I := num_interneurons cfg in
  st <- for_range 0 (I / 2) (fun i st =>
          for_range 0 I (fun j st =>
            let '(m, index_counter) := st in
            v <- vget circuit_pars index_counter ;;
            m <- mset m i j v ;;
            v <- vget circuit_pars index_counter ;;
            m <- mset m (I - i - 1) (I - j - 1) v ;;
            Ok (m, (index_counter + 1)%nat)) st)
        (cw, 0%nat) ;;
  st <- (if (I mod 2 =? 1)%nat then
           for_range 0 (ceil_half I) (fun j st =>
             let '(m, index_counter) := st in
             v <- vget circuit_pars index_counter ;;
             m <- mset m (I / 2) j v ;;
             v <- vget circuit_pars index_counter ;;
             m <- mset m (I / 2) (I - j - 1) v ;;
             Ok (m, (index_counter + 1)%nat)) st
         else Ok st) ;;
  st <- for_range 0 (I / 2) (fun i st =>
          for_range 0 2 (fun j st =>
            let '(m, index_counter) := st in
            v <- vget circuit_pars index_counter ;;
            m <- mset m i (I + j) v ;;
            v <- vget circuit_pars index_counter ;;
            m <- mset m (I - i - 1) (circuit_size cfg - j - 1) v ;;
            Ok (m, (index_counter + 1)%nat)) st)
        st ;;
  if (I mod 2 =? 1)%nat then
    for_range 0 1 (fun j st =>
      let '(m, index_counter) := st in
      v <- vget circuit_pars index_counter ;;
      m <- mset m (I / 2) (I + j) v ;;
      v <- vget circuit_pars index_counter ;;
      m <- mset m (I / 2) (circuit_size cfg - j - 1) v ;;
      Ok (m, (index_counter + 1)%nat)) st
  else Ok st.

(** The block the source has twice, once for the biases and once for the
    time constants: a fresh array of [circuit_size] zeros, the mirrored
    interneuron entries, then the two motor entries from the last free
    value. *)
Definition sym_place_vector (cfg : Config) (pars : list Q) : Res (list Q) :=
  let I := num_interneurons cfg in
  arr <- for_range 0 (ceil_half I) (fun i arr =>
           v <- vget pars i ;;
           arr <- vset arr i v ;;
           v <- vget pars i ;;
           vset arr (I - i - 1) v)
         (np_zeros (circuit_size cfg)) ;;
  v <- vget_back pars 1 ;;
  arr <- vset_back arr 2 v ;;
  v <- vget_back pars 1 ;;
  vset_back arr 1 v.

Definition map_search_parameters_symmetric (cfg : Config) (x : list Q)
    (nervous_system : NervousSystem) : Res NervousSystem :=
  let sensor_index_end := num_sensor_weights cfg in
  let circuit_index_end := (sensor_index_end + num_circuit_weights cfg)%nat in
  let bias_index_end :=
    (circuit_index_end + ceil_half (circuit_size cfg))%nat in
  sensor_pars <- decode_segment cfg (slice x 0 sensor_index_end)
                   (min_weight cfg) (max_weight cfg) ;;
  r <- sym_place_sensor cfg sensor_pars (sensor_weights nervous_system) ;;
  let nervous_system := set_sensor_weights (fst r) nervous_system in
  circuit_pars <- decode_segment cfg
                    (slice x sensor_index_end circuit_index_end)
                    (min_weight cfg) (max_weight cfg) ;;
  r <- sym_place_circuit cfg circuit_pars (circuit_weights nervous_system) ;;
  let nervous_system := set_circuit_weights (fst r) nervous_system in
  bias_pars <- decode_segment cfg (slice x circuit_index_end bias_index_end)
                 (min_bias cfg) (max_bias cfg) ;;
  b <- sym_place_vector cfg bias_pars ;;
  let nervous_system := set_biases b nervous_system in
  time_constant_pars <- decode_segment cfg (drop bias_index_end x)
                          (min_tau cfg) (max_tau cfg) ;;
  t <- sym_place_vector cfg time_constant_pars ;;
  Ok (set_time_constants t nervous_system).

(** *** No symmetry: every entry is read at a computed index *)

Definition asym_place_sensor (cfg : Config) (sensor_pars : list Q)
    (sw : Matrix) : Res Matrix :=
  let I := num_interneurons cfg in
  for_range 0 (num_rays cfg) (fun i m =>
    for_range 0 I (fun j m =>
      v <- vget sensor_pars (I * i + j) ;;
      mset m i j v) m) sw.

Definition asym_place_circuit (cfg : Config) (circuit_pars : list Q)
    (cw : Matrix) : Res Matrix :=
  let I := num_interneurons cfg in
  m <- for_range 0 I (fun i m =>
         for_range 0 I (fun j m =>
           v <- vget circuit_pars (I * i + j) ;;
           mset m i j v) m) cw ;;
  for_range 0 I (fun i m =>
    for_range 0 2 (fun j m =>
      v <- vget circuit_pars (I * I + 2 * i + j) ;;
      mset m i (I + j) v) m) m.

Definition map_search_parameters_asymmetric (cfg : Config) (x : list Q)
    (nervous_system : NervousSystem) : Res NervousSystem :=
  let sensor_index_end := num_sensor_weights cfg in
  let circuit_index_end := (sensor_index_end + num_circuit_weights cfg)%nat in
  let bias_index_end := (circuit_index_end + circuit_size cfg)%nat in
  sensor_pars <- decode_segment cfg (slice x 0 sensor_index_end)
                   (min_weight cfg) (max_weight cfg) ;;
  sw <- asym_place_sensor cfg sensor_pars (sensor_weights nervous_system) ;;
  let nervous_system := set_sensor_weights sw nervous_system in
  circuit_pars <- decode_segment cfg
                    (slice x sensor_index_end circuit_index_end)
                    (min_weight cfg) (max_weight cfg) ;;
  cw <- asym_place_circuit cfg circuit_pars (circuit_weights nervous_system) ;;
  let nervous_system := set_circuit_weights cw nervous_system in
  b <- decode_segment cfg (slice x circuit_index_end bias_index_end)
         (min_bias cfg) (max_bias cfg) ;;
  let nervous_system := set_biases b nervous_system in
  t <- decode_segment cfg (drop bias_index_end x)
         (min_tau cfg) (max_tau cfg) ;;
  Ok (set_time_constants t nervous_system).

Definition map_search_parameters (cfg : Config) (x : list Q)
    (nervous_system : NervousSystem) : Res NervousSystem :=
  if bilateral_symmetry cfg then
    map_search_parameters_symmetric cfg x nervous_system
  else
    map_search_parameters_asymmetric cfg x nervous_system.

(** ** Fitness reduction ([eval_fitness])

    The inner loop carries
    [(col_avg, row_avg, col_sum, row_sum, num_sums)]; the outer loop
    carries [(col_avg, row_avg)]. *)

Definition eval_fitness (fitness_matrix : Matrix) : Res Q :=
  acc <- for_range 1 (shape0 fitness_matrix - 1) (fun i acc =>
      let '(col_avg, row_avg) := acc in
      st <- for_range 0 (shape1 fitness_matrix) (fun j st =>
          let '(col_avg, row_avg, col_sum, row_sum, num_sums) := st in
          if (i =? j)%nat then
            c <- py_div col_sum (inject_Z num_sums) ;;
            let col_avg := col_avg + c in
            r <- py_div row_sum (inject_Z num_sums) ;;
            let row_avg := row_avg + r in
            Ok (col_avg, row_avg, 0, 0, 0%Z)
          else
            let num_sums := (num_sums + 1)%Z in
            c <- mget fitness_matrix j i ;;
            let col_sum := col_sum + c in
            r <- mget fitness_matrix i j ;;
            let row_sum := row_sum + r in
            Ok (col_avg, row_avg, col_sum, row_sum, num_sums))
        (col_avg, row_avg, 0, 0, 0%Z) ;;
      let '(col_avg, row_avg, col_sum, row_sum, num_sums) := st in
      c <- py_div col_sum (inject_Z num_sums) ;;
      let col_avg := col_avg + c in
      r <- py_div row_sum (inject_Z num_sums) ;;
      let row_avg := row_avg + r in
      Ok (col_avg, row_avg))
    (0, 0) ;;
  let '(col_avg, row_avg) := acc in
  let d := inject_Z (Z.of_nat (shape0 fitness_matrix) - 2) in
  a <- py_div col_avg d ;;
  b <- py_div row_avg d ;;
  Ok (Qmin (a / 2) (b / 2)).

(** A square matrix with [v] in every off-diagonal cell (the diagonal is
    left at zero, as [run_trials] leaves it). *)
Definition off_diagonal_matrix (n : nat) (v : Q) : Matrix :=
  {| shape0 := n; shape1 := n;
     cell := fun i j => if (i =? j)%nat then 0 else v |}.

(** ** The two collaborators

    [SensorAgent] and [Circle] live in modules of their own
    ([sensor_agent], [visual_objects]); the task only calls the methods
    below.  An agent method that is handed the ball reads it; the ball's
    methods never see the agent. *)

Record Ray : Type := { x1 : Q; y1 : Q; x2 : Q; y2 : Q }.

Class SensorAgent (Agent Ball Ctrl : Type) : Type := {
  agent_set_position : Q -> Q -> Agent -> Agent;
  agent_reset_rays : Agent -> Agent;
  nervous_system_initialize : Agent -> Agent;
  agent_set_velocity_x : Q -> Agent -> Agent;
  agent_initialize_ray_sensors : Ball -> Agent -> Agent;
  agent_one_obj_step : Q -> Ball -> bool -> Agent -> Agent;
  agent_clip_position : Q -> Q -> Agent -> Agent;
  agent_xpos : Agent -> Q;
  agent_ypos : Agent -> Q;
  agent_radius_of : Agent -> Q;
  agent_max_ray_length : Agent -> Q;
  agent_rays : Agent -> list Ray;
  (** the internal state of [agent.nervous_system] *)
  controller_state : Agent -> Ctrl
}.

Class Circle (Ball : Type) : Type := {
  ball_set_position : Q -> Q -> Ball -> Ball;
  ball_set_size : Q -> Ball -> Ball;
  ball_step : Q -> Ball -> Ball;
  ball_leading_edge_y : Ball -> Q;
  ball_center_xpos : Ball -> Q;
  ball_center_ypos : Ball -> Q;
  ball_size : Ball -> Q
}.

(** ** Recording ([_record_data])

    [self.time_records] and [self.object_records]: the source keeps one
    list per recorded quantity; here one snapshot per recorded step holds
    the ball, the agent and the rays of that step.  The lists of ray [i]
    are made by the first snapshot only: a later step that has a ray the
    first one had not looks up a missing key and raises [KeyError]. *)

Record Snapshot : Type := {
  snap_ball : Q * Q * Q;
  snap_agent : Q * Q * Q;
  snap_rays : list (Q * Q * Q * Q)
}.

Record Records : Type := {
  time_records : list Q;
  object_records : list Snapshot
}.

(** ** Outcome of a trial *)

Inductive TrialResult : Type :=
  | FitnessValue (v : Q)
  | ValidationPair (success caught : Z).

Section Trial.
Context {Agent Ball Ctrl : Type}.
Context `{SA : SensorAgent Agent Ball Ctrl} `{CI : Circle Ball}.

Record World : Type := {
  agent : Agent;
  ball : Ball;
  records : Records
}.

(** The ray lists [object_records[i]] exist for the rays of the first
    snapshot only. *)
Definition ray_slots (r : Records) : option nat :=
  match object_records r with
  | first :: _ => Some (length (snap_rays first))
  | [] => None
  end.

Definition _record_data (cfg : Config) (a : Agent) (b : Ball)
    (start : bool) (r : Records) : Res Records :=
  let snap_b := (ball_center_xpos b, ball_center_ypos b, ball_size b) in
  let snap_a := (agent_xpos a, agent_ypos a, agent_radius_of a) in
  if start then
    Ok {| time_records := [0];
          object_records :=
            [ {| snap_ball := snap_b; snap_agent := snap_a;
                 (* the first snapshot stores ray.y2 under 'x2' and
                    ray.x2 under 'y2' *)
                 snap_rays :=
                   (fun ray => (x1 ray, y1 ray, y2 ray, x2 ray))
                     <$> agent_rays a |} ] |}
  else
    t <- vget_back (time_records r) 1 ;;
    match ray_slots r with
    | None => Err KeyError
    | Some slots =>
        (* [self.object_records[i]] for a ray beyond those of the first
           snapshot *)
        if decide (length (agent_rays a) <= slots)%nat then
          Ok {| time_records :=
                  time_records r ++ [round64 (t + step_size cfg)];
                object_records :=
                  object_records r ++
                  [ {| snap_ball := snap_b; snap_agent := snap_a;
                       snap_rays :=
                         (fun ray => (x1 ray, y1 ray, x2 ray, y2 ray))
                           <$> agent_rays a |} ] |}
        else Err KeyError
    end.

(** Lines 371-385: reset of the agent and of the controller, the ball
    placed above the agent at the presented size. *)
Definition trial_setup (cfg : Config) (presented_ball_size : Q)
    (record : bool) (w : World) : Res World :=
  let a := agent_set_position (initial_agent_x cfg) (initial_agent_y cfg)
             (agent w) in
  let a := agent_reset_rays a in
  let a := nervous_system_initialize a in
  let a := agent_set_velocity_x 0 a in
  let initial_object_y :=
    initial_agent_y cfg
    - (agent_radius_of a + agent_max_ray_length a + presented_ball_size) in
  let b := ball_set_position (initial_agent_x cfg) initial_object_y
             (ball w) in
  let b := ball_set_size (presented_ball_size / 2) b in
  let a := agent_initialize_ray_sensors b a in
  r <- (if record then _record_data cfg a b true (records w)
        else Ok (records w)) ;;
  Ok {| agent := a; ball := b; records := r |}.

(** Lines 388-393: the presented ball drops, the agent is held still. *)
Fixpoint drop_presented (fuel : nat) (cfg : Config) (record : bool)
    (w : World) : Res World :=
  if Qltb (ball_leading_edge_y (ball w))
          (agent_ypos (agent w) - agent_radius_of (agent w)) then
    match fuel with
    | O => Err OutOfFuel
    | Datatypes.S fuel' =>
        let b := ball_step (step_size cfg) (ball w) in
        let a := agent_one_obj_step (step_size cfg) b true (agent w) in
        r <- (if record then _record_data cfg a b false (records w)
              else Ok (records w)) ;;
        drop_presented fuel' cfg record
          {| agent := a; ball := b; records := r |}
    end
  else Ok w.

(** Lines 395-400: between the two drops. *)
Definition trial_resetup (cfg : Config) (comparison_ball_size : Q)
    (w : World) : World :=
  let a := agent w in
  let initial_object_y :=
    initial_agent_y cfg
    - (agent_radius_of a + agent_max_ray_length a + comparison_ball_size) in
  let b := ball_set_position (initial_agent_x cfg) initial_object_y
             (ball w) in
  let b := ball_set_size (comparison_ball_size / 2) b in
  let a := agent_reset_rays a in
  {| agent := a; ball := b; records := records w |}.

(** Lines 403-409: the comparison ball drops, the agent moves. *)
Fixpoint drop_comparison (fuel : nat) (cfg : Config) (record : bool)
    (w : World) : Res World :=
  if Qltb (ball_leading_edge_y (ball w))
          (agent_ypos (agent w) - agent_radius_of (agent w)) then
    match fuel with
    | O => Err OutOfFuel
    | Datatypes.S fuel' =>
        let b := ball_step (step_size cfg) (ball w) in
        let a := agent_one_obj_step (step_size cfg) b false (agent w) in
        let a := agent_clip_position (world_left cfg) (world_right cfg) a in
        r <- (if record then _record_data cfg a b false (records w)
              else Ok (records w)) ;;
        drop_comparison fuel' cfg record
          {| agent := a; ball := b; records := r |}
    end
  else Ok w.

(** Lines 413-424. *)
Definition validation_outcome (presented_ball_size comparison_ball_size : Q)
    (a : Agent) (b : Ball) : Z * Z :=
  if Qltb comparison_ball_size presented_ball_size then
    if (Qltb (agent_xpos a + agent_radius_of a)
             (ball_center_xpos b - ball_size b)
        || Qltb (ball_center_xpos b + ball_size b)
                (agent_xpos a - agent_radius_of a))%bool
    then (0, 0)%Z
    else (1, 1)%Z
  else
    if (Qltb (agent_xpos a + agent_radius_of a)
             (ball_center_xpos b - ball_size b)
        || Qltb (ball_center_xpos b + ball_size b)
                (agent_xpos a - agent_radius_of a))%bool
    then (1, 0)%Z
    else (0, 1)%Z.

(** Lines 428-434. *)
Definition fitness_outcome (cfg : Config)
    (presented_ball_size comparison_ball_size : Q)
    (a : Agent) (b : Ball) : Res Q :=
  normalized_distance <-
    py_div (Qabs (ball_center_xpos b - agent_xpos a)) (max_distance cfg) ;;
  let normalized_distance :=
    if Qltb 1 normalized_distance then 1 else normalized_distance in
  Ok (if Qltb comparison_ball_size presented_ball_size
      then 1 - normalized_distance
      else normalized_distance).

(** The state in which the outcome is read: both drops done. *)
Definition trial_run (fuel : nat) (cfg : Config)
    (presented_ball_size comparison_ball_size : Q) (record : bool)
    (w : World) : Res World :=
  w <- trial_setup cfg presented_ball_size record w ;;
  w <- drop_presented fuel cfg record w ;;
  let w := trial_resetup cfg comparison_ball_size w in
  drop_comparison fuel cfg record w.

Definition trial (fuel : nat) (cfg : Config)
    (presented_ball_size comparison_ball_size : Q)
    (record validation : bool) (w : World) : Res (TrialResult * World) :=
  w <- trial_run fuel cfg presented_ball_size comparison_ball_size record w ;;
  if validation then
    let '(success, caught) :=
      validation_outcome presented_ball_size comparison_ball_size
        (agent w) (ball w) in
    Ok (ValidationPair success caught, w)
  else
    v <- fitness_outcome cfg presented_ball_size comparison_ball_size
           (agent w) (ball w) ;;
    Ok (FitnessValue v, w).

(** ** Trial sweep ([run_trials]) *)

(** Lines 320-332: the outcome matrix, before it is reduced. *)
Definition build_result_matrix (fuel : nat) (cfg : Config) (w : World)
  : Res (Matrix * World) :=
  d0 <- py_div (circle_max_diameter cfg) (circle_difference cfg) ;;
  d1 <- py_div (circle_max_diameter cfg) (circle_difference cfg) ;;
  result_matrix <- np_zeros2 (py_int d0) (py_int d1) ;;
  for_range 0 (shape0 result_matrix) (fun i st =>
    for_range 0 (shape1 result_matrix) (fun j st =>
      let '(m, w) := st in
      if negb (i =? j)%nat then
        let ball_size :=
          inject_Z (Z.of_nat i) * circle_difference cfg
          + circle_min_diameter cfg in
        let compare_ball_size :=
          inject_Z (Z.of_nat j) * circle_difference cfg
          + circle_min_diameter cfg in
        r <- trial fuel cfg ball_size compare_ball_size false false w ;;
        match fst r with
        | FitnessValue v => m <- mset m i j v ;; Ok (m, snd r)
        | ValidationPair _ _ => Err ValueError
        end
      else Ok st) st)
    (result_matrix, w).

Definition run_trials (fuel : nat) (cfg : Config) (w : World)
  : Res (Q * World) :=
  r <- build_result_matrix fuel cfg w ;;
  f <- eval_fitness (fst r) ;;
  Ok (f, snd r).

End Trial.

Arguments World : clear implicits.

(** ** Notions used to state the properties *)

(** Two closed spans, given by their end points, overlap. *)
Definition spans_overlap (lo1 hi1 lo2 hi2 : Q) : Prop :=
  lo1 <= hi2 /\ lo2 <= hi1.

(** The same notion by a shared point (it agrees with [spans_overlap] on
    proper spans, see [spans_overlap_shared_point]). *)
Definition spans_share_point (lo1 hi1 lo2 hi2 : Q) : Prop :=
  exists p, (lo1 <= p /\ p <= hi1) /\ (lo2 <= p /\ p <= hi2).

(** The remainder of the floored division, without rounding: what [%]
    would return in exact arithmetic. *)
Definition floor_mod (v m : Q) : Q := v - m * inject_Z (Qfloor (v / m)).

(** The reduction of [eval_fitness] in closed form: for an interior index
    [i], the mean of the cells before the diagonal plus the mean of the
    cells after it, along column [i] and along row [i]; the fitness is half
    the smaller of the two averages of these scores over the interior
    indices. *)
Definition Qsum (l : list Q) : Q := foldr Qplus 0 l.

Definition segment_mean (f : nat -> Q) (lo hi : nat) : Q :=
  Qsum (f <$> seq lo (hi - lo)) / inject_Z (Z.of_nat (hi - lo)).

Definition column_score (m : Matrix) (i : nat) : Q :=
  segment_mean (fun j => cell m j i) 0 i
  + segment_mean (fun j => cell m j i) (i + 1) (shape1 m).

Definition row_score (m : Matrix) (i : nat) : Q :=
  segment_mean (fun j => cell m i j) 0 i
  + segment_mean (fun j => cell m i j) (i + 1) (shape1 m).

Definition fitness_formula (m : Matrix) : Q :=
  let n := shape0 m in
  Qmin (Qsum (column_score m <$> seq 1 (n - 2))
        / inject_Z (Z.of_nat (n - 2)) / 2)
       (Qsum (row_score m <$> seq 1 (n - 2))
        / inject_Z (Z.of_nat (n - 2)) / 2).

(** The diameter [run_trials] gives to grid index [i]. *)
Definition grid_diameter (cfg : Config) (i : nat) : Q :=
  inject_Z (Z.of_nat i) * circle_difference cfg + circle_min_diameter cfg.

(** ** A small pair of collaborators, to run the trial on

    The ball falls at a constant velocity; the agent's controller
    integrates the size of the ball it is shown and, when it is free to
    move, drifts by its controller state. *)

Record ToyAgent : Type := {
  ta_x : Q; ta_y : Q; ta_velocity_x : Q;
  ta_radius : Q; ta_max_ray_length : Q;
  ta_rays : list Ray;
  ta_ctrl : Q
}.

Record ToyBall : Type := {
  tb_x : Q; tb_y : Q; tb_size : Q; tb_vx : Q; tb_vy : Q
}.

Definition toy_ray (a : ToyAgent) (b : ToyBall) : Ray :=
  {| x1 := ta_x a; y1 := ta_y a; x2 := tb_x b; y2 := tb_y b |}.

#[export] Instance toy_circle : Circle ToyBall := {|
  ball_set_position := fun x y b =>
    {| tb_x := x; tb_y := y; tb_size := tb_size b;
       tb_vx := tb_vx b; tb_vy := tb_vy b |};
  ball_set_size := fun s b =>
    {| tb_x := tb_x b; tb_y := tb_y b; tb_size := s;
       tb_vx := tb_vx b; tb_vy := tb_vy b |};
  ball_step := fun dt b =>
    {| tb_x := Qred (tb_x b + dt * tb_vx b);
       tb_y := Qred (tb_y b + dt * tb_vy b);
       tb_size := tb_size b; tb_vx := tb_vx b; tb_vy := tb_vy b |};
  ball_leading_edge_y := fun b => tb_y b + tb_size b;
  ball_center_xpos := tb_x;
  ball_center_ypos := tb_y;
  ball_size := tb_size
|}.

#[export] Instance toy_agent : SensorAgent ToyAgent ToyBall Q := {|
  agent_set_position := fun x y a =>
    {| ta_x := x; ta_y := y; ta_velocity_x := ta_velocity_x a;
       ta_radius := ta_radius a; ta_max_ray_length := ta_max_ray_length a;
       ta_rays := ta_rays a; ta_ctrl := ta_ctrl a |};
  agent_reset_rays := fun a =>
    {| ta_x := ta_x a; ta_y := ta_y a; ta_velocity_x := ta_velocity_x a;
       ta_radius := ta_radius a; ta_max_ray_length := ta_max_ray_length a;
       ta_rays := []; ta_ctrl := ta_ctrl a |};
  nervous_system_initialize := fun a =>
    {| ta_x := ta_x a; ta_y := ta_y a; ta_velocity_x := ta_velocity_x a;
       ta_radius := ta_radius a; ta_max_ray_length := ta_max_ray_length a;
       ta_rays := ta_rays a; ta_ctrl := 0 |};
  agent_set_velocity_x := fun v a =>
    {| ta_x := ta_x a; ta_y := ta_y a; ta_velocity_x := v;
       ta_radius := ta_radius a; ta_max_ray_length := ta_max_ray_length a;
       ta_rays := ta_rays a; ta_ctrl := ta_ctrl a |};
  agent_initialize_ray_sensors := fun b a =>
    {| ta_x := ta_x a; ta_y := ta_y a; ta_velocity_x := ta_velocity_x a;
       ta_radius := ta_radius a; ta_max_ray_length := ta_max_ray_length a;
       ta_rays := [toy_ray a b]; ta_ctrl := ta_ctrl a |};
  agent_one_obj_step := fun dt b frozen a =>
    let ctrl := Qred (ta_ctrl a + dt * tb_size b) in
    {| ta_x := if frozen then ta_x a else Qred (ta_x a + dt * ctrl);
       ta_y := ta_y a; ta_velocity_x := if frozen then 0 else ctrl;
       ta_radius := ta_radius a; ta_max_ray_length := ta_max_ray_length a;
       ta_rays := [toy_ray a b]; ta_ctrl := ctrl |};
  agent_clip_position := fun lo hi a =>
    {| ta_x := if Qltb (ta_x a) lo then lo
               else if Qltb hi (ta_x a) then hi else ta_x a;
       ta_y := ta_y a; ta_velocity_x := ta_velocity_x a;
       ta_radius := ta_radius a; ta_max_ray_length := ta_max_ray_length a;
       ta_rays := ta_rays a; ta_ctrl := ta_ctrl a |};
  agent_xpos := ta_x;
  agent_ypos := ta_y;
  agent_radius_of := ta_radius;
  agent_max_ray_length := ta_max_ray_length;
  agent_rays := ta_rays;
  controller_state := ta_ctrl
|}.

Definition toy_world : World ToyAgent ToyBall := {|
  agent := {| ta_x := 0; ta_y := 0; ta_velocity_x := 0;
              ta_radius := 15; ta_max_ray_length := 220;
              ta_rays := []; ta_ctrl := 7 |};
  ball := {| tb_x := 0; tb_y := 0; tb_size := 20; tb_vx := 0; tb_vy := 300 |};
  records := {| time_records := []; object_records := [] |}
|}.

(** ** The shapes of the placement loops

    Every inner loop of the symmetric placement reads one value at
    [index_counter] and writes it to a cell of row [r1] and to a cell of
    row [r2]; every inner loop of the plain placement reads at a computed
    index and writes one cell. *)

Definition pair_body (src : list Q) (r1 r2 : nat) (c1 c2 : nat -> nat)
    (j : nat) (st : Matrix * nat) : Res (Matrix * nat) :=
  let '(m, index_counter) := st in
  v <- vget src index_counter ;;
  m <- mset m r1 (c1 j) v ;;
  v <- vget src index_counter ;;
  m <- mset m r2 (c2 j) v ;;
  Ok (m, (index_counter + 1)%nat).

Definition single_body (src : list Q) (r : nat) (c f : nat -> nat)
    (j : nat) (m : Matrix) : Res Matrix :=
  v <- vget src (f j) ;;
  mset m r (c j) v.

(** The free-value counts of the symmetric encoding, by what the loops
    consume. *)
Definition sym_sensor_count (R I : nat) : nat :=
  (R / 2 * I + (if (R mod 2 =? 1)%nat then ceil_half I else 0))%nat.

Definition sym_block_count (I : nat) : nat :=
  (I / 2 * I + (if (I mod 2 =? 1)%nat then ceil_half I else 0))%nat.

Definition sym_circuit_count (I : nat) : nat :=
  (sym_block_count I + I / 2 * 2
   + (if (I mod 2 =? 1)%nat then 1 else 0))%nat.

(** [r] is the parameter decoded from genome entry [k]: the entry wrapped
    into the unit range and rescaled into [[lo, hi]]. *)
Definition decoded_value (cfg : Config) (lo hi : Q) (x : list Q) (k : nat)
    (r : Q) : Prop :=
  exists g, x !! k = Some g
    /\ rescale_parameter (periodic_boundary_conditions g 1) lo hi
         (min_search_value cfg) (max_search_value cfg) = Ok r.

(** [seg] is the decoded segment of [n] genome entries starting at [a]. *)
Definition segment_decodes (cfg : Config) (x : list Q) (a n : nat)
    (lo hi : Q) (seg : list Q) : Prop :=
  decode_segment cfg (slice x a (a + n)) lo hi = Ok seg
  /\ length seg = n
  /\ forall k, (k < n)%nat ->
       exists r, seg !! k = Some r /\ decoded_value cfg lo hi x (a + k) r.

(** ** Concrete inputs for the decoder *)

Definition symmetric_defaults : Config := {|
  world_left := 0;
  world_right := 400;
  world_bottom := 300;
  bilateral_symmetry := true;
  agent_radius := 15;
  num_rays := 7;
  num_interneurons := 3;
  max_distance := 75;
  circle_min_diameter := 20;
  circle_max_diameter := 50;
  circle_difference := 5;
  step_size := 1 # 10;
  min_weight := - (16);
  max_weight := 16;
  min_bias := - (16);
  max_bias := 16;
  min_tau := 1;
  max_tau := 30;
  min_search_value := 0;
  max_search_value := 1
|}.

(** A nervous system of the shapes the topology asks for, all zeros. *)
Definition blank_nervous_system (cfg : Config) : NervousSystem := {|
  sensor_weights :=
    {| shape0 := num_rays cfg; shape1 := num_interneurons cfg;
       cell := fun _ _ => 0 |};
  circuit_weights :=
    {| shape0 := circuit_size cfg; shape1 := circuit_size cfg;
       cell := fun _ _ => 0 |};
  biases := np_zeros (circuit_size cfg);
  time_constants := np_zeros (circuit_size cfg)
|}.

(** The genome [0, 1/100, 2/100, ...] of length [n]. *)
Definition ramp_genome (n : nat) : list Q :=
  (fun k => Z.of_nat k # 100) <$> seq 0 n.

(** ** Where the symmetric placement writes free value number [k]

    One of the two mirrored cells that receive the [k]-th entry of the
    decoded segment. *)

Definition sym_sensor_site (R I k : nat) : nat * nat :=
  if (k <? R / 2 * I)%nat then ((k / I)%nat, (k mod I)%nat)
  else ((R / 2)%nat, (k - R / 2 * I)%nat).

Definition sym_circuit_site (I k : nat) : nat * nat :=
  if (k <? sym_block_count I)%nat then sym_sensor_site I I k
  else
    let k' := (k - sym_block_count I)%nat in
    if (k' <? I / 2 * 2)%nat then ((k' / 2)%nat, (I + k' mod 2)%nat)
    else ((I / 2)%nat, I).

Definition sym_vector_site (I k : nat) : nat :=
  if (k <? ceil_half I)%nat then k else (I + 1)%nat.

(** ** Notions used to state further properties *)

(** A computation that, when it fails, fails with an error in [P]. *)
Definition only_raises {A : Type} (P : PyError -> Prop) (c : Res A) : Prop :=
  forall e, c = Err e -> P e.


(** The image of a result, errors kept as they are. *)
Definition res_map {A B : Type} (f : A -> B) (c : Res A) : Res B :=
  match c with
  | Ok a => Ok (f a)
  | Err e => Err e
  end.

(** What a trial leaves behind apart from the records. *)
Definition world_view {Agent Ball : Type} (w : World Agent Ball)
  : Agent * Ball :=
  (agent w, ball w).

(** The rays of a snapshot as [_record_data] stores them at the start of a
    trial, and at every later step. *)
Definition rays_at_start (rays : list Ray) : list (Q * Q * Q * Q) :=
  (fun ray => (x1 ray, y1 ray, y2 ray, x2 ray)) <$> rays.

Definition rays_at_step (rays : list Ray) : list (Q * Q * Q * Q) :=
  (fun ray => (x1 ray, y1 ray, x2 ray, y2 ray)) <$> rays.

(** A ball that falls by 300 per unit of time whatever its fields say, so
    that every ball of the type falls. *)
Definition steady_circle : Circle ToyBall := {|
  ball_set_position := fun x y b =>
    {| tb_x := x; tb_y := y; tb_size := tb_size b;
       tb_vx := tb_vx b; tb_vy := tb_vy b |};
  ball_set_size := fun s b =>
    {| tb_x := tb_x b; tb_y := tb_y b; tb_size := s;
       tb_vx := tb_vx b; tb_vy := tb_vy b |};
  ball_step := fun dt b =>
    {| tb_x := tb_x b;
       tb_y := Qred (tb_y b + dt * 300);
       tb_size := tb_size b; tb_vx := tb_vx b; tb_vy := tb_vy b |};
  ball_leading_edge_y := fun b => tb_y b + tb_size b;
  ball_center_xpos := tb_x;
  ball_center_ypos := tb_y;
  ball_size := tb_size
|}.

Definition Zsum (l : list Z) : Z := foldr Z.add 0%Z l.

(** Where the rescaling from the unit search range sends 1: the rounded
    sum of [lo] and the rounded width. *)
Definition rescaled_top (lo hi : Q) : Q := round64 (round64 (hi - lo) + lo).
(** ** The entry points of the task

    Every entry point builds a fresh agent and a fresh ball with the
    constructors of the collaborators, decodes the genome into the agent's
    controller and runs trials.  The fresh pair is the world handed to the
    definitions below; the controller arrays of an agent are reached
    through the class [NervousSystemOwner]. *)

Class NervousSystemOwner (Agent : Type) : Type := {
  agent_nervous_system : Agent -> NervousSystem;
  agent_with_nervous_system : NervousSystem -> Agent -> Agent
}.

(** [np.linspace(start, stop, num)]: [num] evenly spaced values, the last
    one set to [stop]. *)
Definition np_linspace (start stop : Q) (num : nat) : list Q :=
  match num with
  | 1%nat => [start]
  | _ =>
      let step := (stop - start) / inject_Z (Z.of_nat (num - 1)) in
      (fun k => if (k =? num - 1)%nat then stop
                else inject_Z (Z.of_nat k) * step + start) <$> seq 0 num
  end.

Section Runs.
Context {Agent Ball Ctrl : Type}.
Context `{SA : SensorAgent Agent Ball Ctrl} `{CI : Circle Ball}.
Context `{NO : NervousSystemOwner Agent}.

(** [self.map_search_parameters(x, agent.nervous_system)] *)
Definition install_parameters (cfg : Config) (x : list Q)
    (w : World Agent Ball) : Res (World Agent Ball) :=
  ns <- map_search_parameters cfg x (agent_nervous_system (agent w)) ;;
  Ok {| agent := agent_with_nervous_system ns (agent w);
        ball := ball w; records := records w |}.

(** Lines 122-142: the cost of a genome. *)
Definition __call__ (fuel : nat) (cfg : Config) (x : list Q)
    (w : World Agent Ball) : Res (Q * World Agent Ball) :=
  w <- install_parameters cfg x w ;;
  r <- run_trials fuel cfg w ;;
  Ok (- fst r, snd r).

(** Lines 464-481: one recorded trial in continuous mode. *)
Definition run_test_trial (fuel : nat) (cfg : Config) (x : list Q)
    (ball_size comparison_ball_size : Q) (w : World Agent Ball)
  : Res (TrialResult * World Agent Ball) :=
  w <- install_parameters cfg x w ;;
  trial fuel cfg ball_size comparison_ball_size true false w.


(** Lines 511-542. *)
Definition ordered_validation_run (fuel : nat) (cfg : Config) (x : list Q)
    (num_sizes num_trials : nat) (w : World Agent Ball)
  : Res (Matrix * list Q * list Q * World Agent Ball) :=
  w <- install_parameters cfg x w ;;
  let original_set :=
    np_linspace (circle_min_diameter cfg) (circle_max_diameter cfg)
      num_sizes in
  let comparison_set :=
    np_linspace (circle_min_diameter cfg) (circle_max_diameter cfg)
      num_sizes in
  comparison_results <-
    np_zeros2 (Z.of_nat num_sizes) (Z.of_nat num_sizes) ;;
  st <- for_range 0 num_sizes (fun i st =>
      for_range 0 num_sizes (fun j st =>
        let '(m, w) := st in
        acc <- for_range 0 num_trials (fun k acc =>
            let '(trial_catches, w) := acc in
            p <- vget original_set i ;;
            c <- vget comparison_set j ;;
            r <- trial fuel cfg p c false true w ;;
            match fst r with
            | ValidationPair _ catch =>
                Ok (trial_catches + inject_Z catch, snd r)
            | FitnessValue _ => Err ValueError
            end) (0, w) ;;
        q <- py_div (fst acc) (inject_Z (Z.of_nat num_trials)) ;;
        m <- mset m j i q ;;
        Ok (m, snd acc)) st)
    (comparison_results, w) ;;
  Ok (fst st, original_set, comparison_set, snd st).

End Runs.

(** The small agent keeps no controller arrays of its own: it owns a
    constant blank controller. *)
Definition toy_owner (cfg : Config) : NervousSystemOwner ToyAgent := {|
  agent_nervous_system := fun _ => blank_nervous_system cfg;
  agent_with_nervous_system := fun _ a => a
|}.
(** ** The calls a trial makes on its collaborators

    [trial] is written against the methods of the agent and of the ball
    only.  Run on collaborators that note every call they receive, it
    shows which methods it calls and in which order, whatever the methods
    do: the observers ([xpos], [radius], [leading_edge_y], ...) are not
    noted. *)

Inductive AgentCall : Type :=
  | CallSetPosition
  | CallResetRays
  | CallInitialize            (* agent.nervous_system.initialize() *)
  | CallSetVelocityX
  | CallInitializeRaySensors
  | CallOneObjStep (frozen : bool)
  | CallClipPosition.

Inductive BallCall : Type :=
  | CallBallSetPosition
  | CallBallSetSize (size : Q)
  | CallBallStep.

Section Logged.
Context {Agent Ball Ctrl : Type}.
Context `{SA : SensorAgent Agent Ball Ctrl} `{CI : Circle Ball}.

Definition logged_agent
  : SensorAgent (Agent * list AgentCall) (Ball * list BallCall) Ctrl := {|
  agent_set_position := fun x y a =>
    (agent_set_position x y (fst a), snd a ++ [CallSetPosition]);
  agent_reset_rays := fun a =>
    (agent_reset_rays (fst a), snd a ++ [CallResetRays]);
  nervous_system_initialize := fun a =>
    (nervous_system_initialize (fst a), snd a ++ [CallInitialize]);
  agent_set_velocity_x := fun v a =>
    (agent_set_velocity_x v (fst a), snd a ++ [CallSetVelocityX]);
  agent_initialize_ray_sensors := fun b a =>
    (agent_initialize_ray_sensors (fst b) (fst a),
     snd a ++ [CallInitializeRaySensors]);
  agent_one_obj_step := fun dt b frozen a =>
    (agent_one_obj_step dt (fst b) frozen (fst a),
     snd a ++ [CallOneObjStep frozen]);
  agent_clip_position := fun lo hi a =>
    (agent_clip_position lo hi (fst a), snd a ++ [CallClipPosition]);
  agent_xpos := fun a => agent_xpos (fst a);
  agent_ypos := fun a => agent_ypos (fst a);
  agent_radius_of := fun a => agent_radius_of (fst a);
  agent_max_ray_length := fun a => agent_max_ray_length (fst a);
  agent_rays := fun a => agent_rays (fst a);
  controller_state := fun a => controller_state (fst a)
|}.

Definition logged_circle : Circle (Ball * list BallCall) := {|
  ball_set_position := fun x y b =>
    (ball_set_position x y (fst b), snd b ++ [CallBallSetPosition]);
  ball_set_size := fun s b =>
    (ball_set_size s (fst b), snd b ++ [CallBallSetSize s]);
  ball_step := fun dt b =>
    (ball_step dt (fst b), snd b ++ [CallBallStep]);
  ball_leading_edge_y := fun b => ball_leading_edge_y (fst b);
  ball_center_xpos := fun b => ball_center_xpos (fst b);
  ball_center_ypos := fun b => ball_center_ypos (fst b);
  ball_size := fun b => ball_size (fst b)
|}.

(** The world without the notes. *)
Definition unlogged (w : World (Agent * list AgentCall) (Ball * list BallCall))
  : World Agent Ball :=
  {| agent := fst (agent w); ball := fst (ball w); records := records w |}.

End Logged.

(** The calls of the second drop: a step and a clipping per iteration. *)
Definition free_steps (k : nat) : list AgentCall :=
  concat (repeat [CallOneObjStep false; CallClipPosition] k).

(** The calls a whole trial makes on the agent and on the ball, for [k1]
    iterations of the first loop and [k2] of the second. *)
Definition agent_calls (k1 k2 : nat) : list AgentCall :=
  [CallSetPosition; CallResetRays; CallInitialize; CallSetVelocityX;
   CallInitializeRaySensors]
  ++ repeat (CallOneObjStep true) k1
  ++ [CallResetRays]
  ++ free_steps k2.

Definition ball_calls (presented comparison : Q) (k1 k2 : nat)
  : list BallCall :=
  [CallBallSetPosition; CallBallSetSize (presented / 2)]
  ++ repeat CallBallStep k1
  ++ [CallBallSetPosition; CallBallSetSize (comparison / 2)]
  ++ repeat CallBallStep k2.

Definition logged_toy_world : World (ToyAgent * list AgentCall)
                                    (ToyBall * list BallCall) :=
  {| agent := (agent toy_world, []);
     ball := (ball toy_world, []);
     records := records toy_world |}.
(** * Properties of the rounding *)

(** ** Powers of two and the binary logarithm *)

Lemma pow2_pos (k : Z) : 0 < pow2 k.
Proof. apply Qpower_0_lt. reflexivity. Qed.

Lemma pow2_add (a b : Z) : pow2 (a + b) == pow2 a * pow2 b.
Proof. apply Qpower_plus. discriminate. Qed.

Lemma pow2_sub (a b : Z) : pow2 (a - b) == pow2 a / pow2 b.
Proof. apply Qpower_minus. discriminate. Qed.

Lemma pow2_le (a b : Z) : (a <= b)%Z -> pow2 a <= pow2 b.
Proof. intros H. apply Qpower_le_compat_l; [done|]. discriminate. Qed.

Lemma pow2_lt (a b : Z) : (a < b)%Z -> pow2 a < pow2 b.
Proof. intros H. apply Qpower_lt_compat_l; [done|]. reflexivity. Qed.

Lemma pow2_lt_inv (a b : Z) : pow2 a < pow2 b -> (a < b)%Z.
Proof. intros H. apply (Qpower_lt_compat_l_inv 2); [done|reflexivity]. Qed.

Lemma pow2_nonneg_Z (k : Z) : (0 <= k)%Z -> pow2 k == inject_Z (2 ^ k).
Proof. intros H. unfold pow2. by rewrite Zpower_Qpower. Qed.

Lemma pow2_succ (k : Z) : pow2 (k + 1) == 2 * pow2 k.
Proof. rewrite pow2_add. change (pow2 1) with 2. ring. Qed.

(** Bracket of a positive integer by powers of two. *)
Lemma log2_bracket (n : Z) :
  (0 < n)%Z ->
  pow2 (Z.log2 n) <= inject_Z n /\ inject_Z n < pow2 (Z.log2 n + 1).
Proof.
  intros Hn. destruct (Z.log2_spec n Hn) as [Hl Hu].
  pose proof (Z.log2_nonneg n) as H0.
  rewrite !pow2_nonneg_Z by lia. rewrite <- Zle_Qle, <- Zlt_Qlt.
  replace (Z.log2 n + 1)%Z with (Z.succ (Z.log2 n)) by lia. done.
Qed.

Lemma ilog2_spec (q : Q) :
  0 < q -> pow2 (ilog2 q) <= q /\ q < pow2 (ilog2 q + 1).
Proof.
  intros Hq. unfold ilog2.
  destruct q as [n d]. cbn [Qnum Qden].
  assert (0 < n)%Z as Hn by (unfold Qlt in Hq; cbn in Hq; lia).
  destruct (log2_bracket n Hn) as [Hn1 Hn2].
  destruct (log2_bracket (Zpos d) ltac:(lia)) as [Hd1 Hd2].
  set (ln := Z.log2 n) in *. set (ld := Z.log2 (Zpos d)) in *.
  assert (n # d == inject_Z n / inject_Z (Zpos d)) as Hq' by apply Qmake_Qdiv.
  assert (0 < inject_Z (Zpos d)) as Hdpos by reflexivity.
  assert (0 < inject_Z n) as Hnpos
    by (change 0 with (inject_Z 0); rewrite <- Zlt_Qlt; lia).
  pose proof (pow2_pos ld) as Hpld. pose proof (pow2_pos (ld + 1)) as Hpld1.
  pose proof (pow2_pos ln) as Hpln.
  assert (pow2 (ln - ld - 1) < n # d) as Hlow.
  { rewrite Hq'. apply Qlt_shift_div_l; [done|].
    assert (pow2 (ln - ld - 1) == pow2 ln / pow2 (ld + 1)) as ->.
    { rewrite <- pow2_sub. f_equiv. lia. }
    assert (pow2 ln / pow2 (ld + 1) * inject_Z (Z.pos d)
            == pow2 ln * (inject_Z (Z.pos d) / pow2 (ld + 1))) as ->
      by (field; lra).
    assert (inject_Z (Z.pos d) / pow2 (ld + 1) < 1)
      by (apply Qlt_shift_div_r; lra).
    nra. }
  assert (n # d < pow2 (ln - ld + 1)) as Hhigh.
  { rewrite Hq'. apply Qlt_shift_div_r; [done|].
    assert (pow2 (ln - ld + 1) == pow2 (ln + 1) / pow2 ld) as ->.
    { rewrite <- pow2_sub. f_equiv. lia. }
    assert (pow2 (ln + 1) / pow2 ld * inject_Z (Z.pos d)
            == pow2 (ln + 1) * (inject_Z (Z.pos d) / pow2 ld)) as ->
      by (field; lra).
    assert (1 <= inject_Z (Z.pos d) / pow2 ld)
      by (apply Qle_shift_div_l; lra).
    pose proof (pow2_pos (ln + 1)). nra. }
  destruct (Qle_bool (pow2 (ln - ld)) (n # d)) eqn:E.
  - apply Qle_bool_iff in E. split; done.
  - split.
    + apply Qlt_le_weak. done.
    + replace (ln - ld - 1 + 1)%Z with (ln - ld)%Z by lia.
      apply Qnot_le_lt. intros H. apply Qle_bool_iff in H. congruence.
Qed.

Lemma ilog2_unique (q : Q) (k : Z) :
  pow2 k <= q -> q < pow2 (k + 1) -> ilog2 q = k.
Proof.
  intros Hl Hu.
  assert (0 < q) as Hq by (pose proof (pow2_pos k); lra).
  destruct (ilog2_spec q Hq) as [Hl' Hu'].
  assert (ilog2 q < k + 1)%Z by (apply pow2_lt_inv; lra).
  assert (k < ilog2 q + 1)%Z by (apply pow2_lt_inv; lra).
  lia.
Qed.

Lemma ilog2_le (x y : Q) : 0 < x -> x <= y -> (ilog2 x <= ilog2 y)%Z.
Proof.
  intros Hx Hxy.
  destruct (ilog2_spec x Hx) as [Hl _].
  destruct (ilog2_spec y ltac:(lra)) as [_ Hu].
  assert (ilog2 x < ilog2 y + 1)%Z by (apply pow2_lt_inv; lra). lia.
Qed.

Lemma ilog2_comp_pos (x y : Q) :
  0 < x -> x == y -> ilog2 x = ilog2 y.
Proof.
  intros Hx Hxy. symmetry. destruct (ilog2_spec x Hx) as [Hl Hu].
  apply ilog2_unique; lra.
Qed.

(** ** Rounding to the nearest integer, ties to even *)

Lemma round_half_even_bounds (s : Q) :
  (Qfloor s <= round_half_even s <= Qfloor s + 1)%Z.
Proof.
  unfold round_half_even.
  destruct (Qcompare _ _); [destruct (Z.even _)|..]; lia.
Qed.

Lemma round_half_even_comp (s t : Q) :
  s == t -> round_half_even s = round_half_even t.
Proof.
  intros H. unfold round_half_even.
  rewrite (Qfloor_comp _ _ H).
  assert (s - inject_Z (Qfloor t) == t - inject_Z (Qfloor t)) as ->
    by (by rewrite H).
  reflexivity.
Qed.

Lemma round_half_even_Z (z : Z) : round_half_even (inject_Z z) = z.
Proof.
  unfold round_half_even. rewrite Qfloor_Z.
  destruct (Qcompare_spec (inject_Z z - inject_Z z) (1 # 2)) as [H|H|H];
    [lra|done|lra].
Qed.

Lemma round_half_even_le (s t : Q) :
  s <= t -> (round_half_even s <= round_half_even t)%Z.
Proof.
  intros Hst.
  pose proof (Qfloor_resp_le _ _ Hst) as Hf.
  destruct (Z.eq_dec (Qfloor s) (Qfloor t)) as [Heq|Hne].
  - unfold round_half_even. rewrite Heq.
    destruct (Qcompare_spec (s - inject_Z (Qfloor t)) (1 # 2)) as [H1|H1|H1];
      destruct (Qcompare_spec (t - inject_Z (Qfloor t)) (1 # 2))
        as [H2|H2|H2];
      try destruct (Z.even (Qfloor t)); try lia; lra.
  - pose proof (round_half_even_bounds s). pose proof (round_half_even_bounds t).
    lia.
Qed.

Lemma round_half_even_ge (s : Q) (a : Z) :
  inject_Z a <= s -> (a <= round_half_even s)%Z.
Proof.
  intros H. rewrite <- (round_half_even_Z a). by apply round_half_even_le.
Qed.

Lemma round_half_even_upper (s : Q) (b : Z) :
  s <= inject_Z b -> (round_half_even s <= b)%Z.
Proof.
  intros H. rewrite <- (round_half_even_Z b). by apply round_half_even_le.
Qed.

(** ** Rounding to 53 significant bits *)

Lemma scaled_bracket (q : Q) :
  0 < q ->
  inject_Z (2 ^ 52) <= q / pow2 (ilog2 q - 52)
  /\ q / pow2 (ilog2 q - 52) < inject_Z (2 ^ 53).
Proof.
  intros Hq. destruct (ilog2_spec q Hq) as [Hl Hu].
  pose proof (pow2_pos (ilog2 q - 52)) as Hp.
  rewrite <- !pow2_nonneg_Z by lia. split.
  - apply Qle_shift_div_l; [done|]. rewrite <- pow2_add.
    by replace (52 + (ilog2 q - 52))%Z with (ilog2 q) by lia.
  - apply Qlt_shift_div_r; [done|]. rewrite <- pow2_add.
    by replace (53 + (ilog2 q - 52))%Z with (ilog2 q + 1)%Z by lia.
Qed.

Lemma round_pos_bracket (q : Q) :
  0 < q ->
  pow2 (ilog2 q) <= round_pos q /\ round_pos q <= pow2 (ilog2 q + 1).
Proof.
  intros Hq. destruct (scaled_bracket q Hq) as [Hl Hu].
  unfold round_pos. cbv zeta.
  set (e := (ilog2 q - 52)%Z) in *.
  pose proof (pow2_pos e) as Hp.
  pose proof (round_half_even_ge _ _ Hl) as Hm1.
  pose proof (round_half_even_upper _ _ (Qlt_le_weak _ _ Hu)) as Hm2.
  set (m := round_half_even (q / pow2 e)) in *.
  assert (pow2 (ilog2 q) == inject_Z (2 ^ 52) * pow2 e) as ->.
  { rewrite <- pow2_nonneg_Z, <- pow2_add by lia. f_equiv. unfold e. lia. }
  assert (pow2 (ilog2 q + 1) == inject_Z (2 ^ 53) * pow2 e) as ->.
  { rewrite <- pow2_nonneg_Z, <- pow2_add by lia. f_equiv. unfold e. lia. }
  rewrite Zle_Qle in Hm1, Hm2. split; nra.
Qed.

Lemma round_pos_comp (x y : Q) :
  0 < x -> x == y -> round_pos x == round_pos y.
Proof.
  intros Hx Hxy. unfold round_pos. cbv zeta.
  rewrite (ilog2_comp_pos x y Hx Hxy).
  rewrite (round_half_even_comp (x / pow2 (ilog2 y - 52))
             (y / pow2 (ilog2 y - 52))) by (by rewrite Hxy).
  reflexivity.
Qed.

Lemma round_pos_le (x y : Q) :
  0 < x -> x <= y -> round_pos x <= round_pos y.
Proof.
  intros Hx Hxy. assert (0 < y) as Hy by lra.
  pose proof (ilog2_le x y Hx Hxy) as Hl.
  destruct (Z.eq_dec (ilog2 x) (ilog2 y)) as [Heq|Hne].
  - unfold round_pos. cbv zeta. rewrite Heq.
    pose proof (pow2_pos (ilog2 y - 52)) as Hp.
    assert (x / pow2 (ilog2 y - 52) <= y / pow2 (ilog2 y - 52)) as Hs.
    { apply Qle_shift_div_l; [done|].
      assert (x / pow2 (ilog2 y - 52) * pow2 (ilog2 y - 52) == x) as ->
        by (field; lra).
      done. }
    apply round_half_even_le in Hs. rewrite Zle_Qle in Hs. nra.
  - destruct (round_pos_bracket x Hx) as [_ Hux].
    destruct (round_pos_bracket y Hy) as [Hly _].
    assert (pow2 (ilog2 x + 1) <= pow2 (ilog2 y)) by (apply pow2_le; lia).
    lra.
Qed.

Lemma round_pos_pos (q : Q) : 0 < q -> 0 < round_pos q.
Proof.
  intros Hq. destruct (round_pos_bracket q Hq) as [Hl _].
  pose proof (pow2_pos (ilog2 q)). lra.
Qed.

(** ** [round64] *)

Lemma round64_0 : round64 0 == 0.
Proof. reflexivity. Qed.

Lemma round64_pos_eq (q : Q) : 0 < q -> round64 q == round_pos q.
Proof.
  intros Hq. unfold round64. rewrite Qred_correct.
  destruct (Qcompare_spec q 0) as [H|H|H]; [lra|lra|reflexivity].
Qed.

Lemma round64_neg_eq (q : Q) : q < 0 -> round64 q == - round_pos (- q).
Proof.
  intros Hq. unfold round64. rewrite Qred_correct.
  destruct (Qcompare_spec q 0) as [H|H|H]; [lra|reflexivity|lra].
Qed.

Lemma round64_zero_eq (q : Q) : q == 0 -> round64 q == 0.
Proof.
  intros Hq. unfold round64. rewrite Qred_correct.
  destruct (Qcompare_spec q 0) as [H|H|H]; [reflexivity|lra|lra].
Qed.

#[global] Instance round64_comp : Proper (Qeq ==> Qeq) round64.
Proof.
  intros x y Hxy.
  destruct (Qlt_le_dec 0 x) as [Hpos|Hle].
  - rewrite (round64_pos_eq x Hpos), (round64_pos_eq y) by lra.
    by apply round_pos_comp.
  - destruct (Qlt_le_dec x 0) as [Hneg|Hge].
    + rewrite (round64_neg_eq x Hneg), (round64_neg_eq y) by lra.
      rewrite (round_pos_comp (- x) (- y)); [reflexivity|lra|by rewrite Hxy].
    + rewrite (round64_zero_eq x), (round64_zero_eq y) by lra. reflexivity.
Qed.

Lemma round64_opp (q : Q) : round64 (- q) == - round64 q.
Proof.
  destruct (Qlt_le_dec 0 q) as [Hpos|Hle].
  - rewrite (round64_neg_eq (- q)) by lra. rewrite (round64_pos_eq q Hpos).
    rewrite (round_pos_comp (- - q) q); [reflexivity|lra|ring].
  - destruct (Qlt_le_dec q 0) as [Hneg|Hge].
    + rewrite (round64_pos_eq (- q)) by lra. rewrite (round64_neg_eq q Hneg).
      ring.
    + rewrite (round64_zero_eq q), (round64_zero_eq (- q)) by lra. ring.
Qed.

Lemma round64_pos (q : Q) : 0 < q -> 0 < round64 q.
Proof. intros Hq. rewrite (round64_pos_eq q Hq). by apply round_pos_pos. Qed.

Lemma round64_nonneg (q : Q) : 0 <= q -> 0 <= round64 q.
Proof.
  intros Hq. destruct (Qlt_le_dec 0 q) as [Hpos|Hle].
  - apply Qlt_le_weak. by apply round64_pos.
  - rewrite (round64_zero_eq q) by lra. lra.
Qed.

Lemma round64_le (x y : Q) : x <= y -> round64 x <= round64 y.
Proof.
  intros Hxy.
  destruct (Qlt_le_dec 0 x) as [Hx|Hx].
  - rewrite (round64_pos_eq x Hx), (round64_pos_eq y) by lra.
    by apply round_pos_le.
  - destruct (Qlt_le_dec 0 y) as [Hy|Hy].
    + pose proof (round64_pos y Hy).
      assert (round64 x <= 0); [|lra].
      assert (0 <= round64 (- x)) by (apply round64_nonneg; lra).
      rewrite round64_opp in *. lra.
    + destruct (Qlt_le_dec y 0) as [Hy'|Hy'].
      * rewrite (round64_neg_eq x), (round64_neg_eq y) by lra.
        assert (round_pos (- y) <= round_pos (- x))
          by (apply round_pos_le; lra).
        lra.
      * rewrite (round64_zero_eq y) by lra.
        assert (0 <= round64 (- x)) by (apply round64_nonneg; lra).
        rewrite round64_opp in *. lra.
Qed.

Lemma round64_zero_iff (q : Q) : round64 q == 0 <-> q == 0.
Proof.
  split; [|apply round64_zero_eq].
  intros H. destruct (Qlt_le_dec 0 q) as [Hpos|Hle].
  - pose proof (round64_pos q Hpos). lra.
  - destruct (Qlt_le_dec q 0) as [Hneg|Hge]; [|lra].
    pose proof (round64_pos (- q) ltac:(lra)) as Hp.
    rewrite round64_opp in Hp. lra.
Qed.

Lemma round64_abs (q : Q) : round64 (Qabs q) == Qabs (round64 q).
Proof.
  destruct (Qlt_le_dec q 0) as [Hneg|Hge].
  - rewrite (Qabs_neg q) by lra. rewrite round64_opp.
    assert (round64 q <= 0).
    { assert (0 <= round64 (- q)) by (apply round64_nonneg; lra).
      rewrite round64_opp in *. lra. }
    by rewrite Qabs_neg.
  - rewrite (Qabs_pos q) by done.
    by rewrite Qabs_pos by (by apply round64_nonneg).
Qed.

(** A number with at most 53 significant bits is its own rounding. *)
Lemma round64_dyadic_pos (m e : Z) :
  (0 < m < 2 ^ 53)%Z ->
  round64 (inject_Z m * pow2 e) == inject_Z m * pow2 e.
Proof.
  intros Hm. set (q := inject_Z m * pow2 e).
  pose proof (pow2_pos e) as Hpe.
  assert (0 < inject_Z m) as Hmq
    by (change 0 with (inject_Z 0); rewrite <- Zlt_Qlt; lia).
  assert (0 < q) as Hq by (unfold q; nra).
  rewrite (round64_pos_eq q Hq). unfold round_pos. cbv zeta.
  destruct (ilog2_spec q Hq) as [Hl Hu].
  set (l := ilog2 q) in *.
  assert (l < 53 + e)%Z as Hle.
  { apply pow2_lt_inv. rewrite pow2_add, (pow2_nonneg_Z 53) by lia.
    assert (inject_Z m < inject_Z (2 ^ 53)) by (rewrite <- Zlt_Qlt; lia).
    unfold q in Hl. nra. }
  assert (q / pow2 (l - 52) == inject_Z (m * 2 ^ (e - l + 52))) as Hs.
  { rewrite inject_Z_mult, <- (pow2_nonneg_Z (e - l + 52)) by lia.
    unfold q. rewrite pow2_sub.
    assert (pow2 (e - l + 52) == pow2 e * pow2 52 / pow2 l) as ->.
    { rewrite <- pow2_add, <- pow2_sub. f_equiv. lia. }
    pose proof (pow2_pos l). pose proof (pow2_pos 52). field. lra. }
  rewrite (round_half_even_comp _ _ Hs), round_half_even_Z.
  rewrite <- Hs. pose proof (pow2_pos (l - 52)). field. lra.
Qed.

Lemma round64_dyadic (m e : Z) :
  (Z.abs m <= 2 ^ 53)%Z ->
  round64 (inject_Z m * pow2 e) == inject_Z m * pow2 e.
Proof.
  intros Hm.
  assert (forall k, (0 < k <= 2 ^ 53)%Z ->
            round64 (inject_Z k * pow2 e) == inject_Z k * pow2 e) as Hpos.
  { intros k Hk. destruct (Z.eq_dec k (2 ^ 53)%Z) as [->|Hne].
    - assert (inject_Z (2 ^ 53) * pow2 e
              == inject_Z (2 ^ 52) * pow2 (e + 1)) as ->.
      { rewrite pow2_succ, <- (pow2_nonneg_Z 53), <- (pow2_nonneg_Z 52)
          by lia.
        change 53%Z with (52 + 1)%Z. rewrite pow2_succ. ring. }
      apply round64_dyadic_pos. lia.
    - apply round64_dyadic_pos. lia. }
  destruct (Z.lt_trichotomy m 0) as [Hneg|[->|Hp]].
  - assert (inject_Z m * pow2 e == - (inject_Z (- m) * pow2 e)) as ->
      by (rewrite inject_Z_opp; ring).
    rewrite round64_opp, Hpos by lia. reflexivity.
  - rewrite Qmult_0_l. reflexivity.
  - apply Hpos. lia.
Qed.

Lemma round64_Z (z : Z) :
  (Z.abs z <= 2 ^ 53)%Z -> round64 (inject_Z z) == inject_Z z.
Proof.
  intros Hz. pose proof (round64_dyadic z 0 Hz) as H.
  change (pow2 0) with 1 in H. by rewrite Qmult_1_r in H.
Qed.

(** The result of a rounding is one of those numbers. *)
Lemma round64_idem (q : Q) : round64 (round64 q) == round64 q.
Proof.
  assert (forall x, 0 < x -> round64 (round_pos x) == round_pos x) as Hpos.
  { intros x Hx. unfold round_pos. cbv zeta.
    destruct (scaled_bracket x Hx) as [Hl Hu].
    apply round64_dyadic.
    pose proof (round_half_even_ge _ _ Hl).
    pose proof (round_half_even_upper _ _ (Qlt_le_weak _ _ Hu)). lia. }
  destruct (Qlt_le_dec 0 q) as [Hp|Hle].
  - rewrite (round64_pos_eq q Hp). by apply Hpos.
  - destruct (Qlt_le_dec q 0) as [Hneg|Hge].
    + rewrite (round64_neg_eq q Hneg), round64_opp, Hpos by lra. reflexivity.
    + rewrite (round64_zero_eq q) by lra. reflexivity.
Qed.

(** Scaling by two is exact. *)
Lemma round64_double (q : Q) : round64 (2 * q) == 2 * round64 q.
Proof.
  assert (forall x, 0 < x -> round_pos (2 * x) == 2 * round_pos x) as Hpos.
  { intros x Hx. unfold round_pos. cbv zeta.
    destruct (ilog2_spec x Hx) as [Hl Hu].
    assert (ilog2 (2 * x) = (ilog2 x + 1)%Z) as ->.
    { apply ilog2_unique; rewrite !pow2_succ in *; lra. }
    replace (ilog2 x + 1 - 52)%Z with (ilog2 x - 52 + 1)%Z by lia.
    pose proof (pow2_pos (ilog2 x - 52)) as Hp.
    rewrite (round_half_even_comp (2 * x / pow2 (ilog2 x - 52 + 1))
               (x / pow2 (ilog2 x - 52))).
    - rewrite pow2_succ. ring.
    - rewrite pow2_succ. field. lra. }
  destruct (Qlt_le_dec 0 q) as [Hp|Hle].
  - rewrite (round64_pos_eq q Hp), (round64_pos_eq (2 * q)) by lra.
    by apply Hpos.
  - destruct (Qlt_le_dec q 0) as [Hneg|Hge].
    + rewrite (round64_neg_eq q Hneg), (round64_neg_eq (2 * q)) by lra.
      rewrite (round_pos_comp (- (2 * q)) (2 * - q)); [|lra|ring].
      rewrite Hpos by lra. ring.
    + rewrite (round64_zero_eq q), (round64_zero_eq (2 * q)) by lra. ring.
Qed.
(** * Properties *)

(** ** The result monad and the loops *)

Lemma bind_ok {A B : Type} (c : Res A) (k : A -> Res B) (b : B) :
  bind c k = Ok b -> exists a, c = Ok a /\ k a = Ok b.
Proof. destruct c as [a|e]; simpl; [eauto | discriminate]. Qed.

(** Invariant rule: the loop runs to its end and establishes the invariant
    at the upper bound. *)
Lemma for_loop_inv {S : Type} (P : nat -> S -> Prop)
    (body : nat -> S -> Res S) (n lo : nat) (s : S) :
  P lo s ->
  (forall i t, (lo <= i < lo + n)%nat -> P i t ->
     exists t', body i t = Ok t' /\ P (Datatypes.S i) t') ->
  exists s', for_loop lo n body s = Ok s' /\ P (lo + n)%nat s'.
Proof.
  revert lo s. induction n as [|n IH]; intros lo s H0 Hstep; simpl.
  - exists s. by rewrite Nat.add_0_r.
  - destruct (Hstep lo s) as (t & Ht & HP); [lia | done |].
    rewrite Ht; simpl.
    destruct (IH (Datatypes.S lo) t HP) as (s' & Hs' & HP').
    { intros i u Hi. apply Hstep. lia. }
    exists s'. split; [done|].
    by replace (lo + Datatypes.S n)%nat with (Datatypes.S lo + n)%nat by lia.
Qed.

Lemma for_range_inv {S : Type} (P : nat -> S -> Prop)
    (body : nat -> S -> Res S) (lo hi : nat) (s : S) :
  (lo <= hi)%nat ->
  P lo s ->
  (forall i t, (lo <= i < hi)%nat -> P i t ->
     exists t', body i t = Ok t' /\ P (Datatypes.S i) t') ->
  exists s', for_range lo hi body s = Ok s' /\ P hi s'.
Proof.
  intros Hle H0 Hstep. unfold for_range.
  destruct (for_loop_inv P body (hi - lo) lo s H0) as (s' & Hs' & HP).
  { intros i t Hi. apply Hstep. lia. }
  exists s'. split; [done|].
  by replace (lo + (hi - lo))%nat with hi in HP by lia.
Qed.

Lemma for_range_empty {S : Type} (body : nat -> S -> Res S) (lo hi : nat) (s : S) :
  (hi <= lo)%nat -> for_range lo hi body s = Ok s.
Proof. intros H. unfold for_range. by replace (hi - lo)%nat with 0%nat by lia. Qed.

(** ** Scalars *)

Lemma Qltb_lt (a b : Q) : Qltb a b = true <-> a < b.
Proof.
  unfold Qltb. rewrite negb_true_iff, <- not_true_iff_false, Qle_bool_iff.
  split; [apply Qnot_le_lt | apply Qlt_not_le].
Qed.

Lemma Qltb_ge (a b : Q) : Qltb a b = false <-> b <= a.
Proof. unfold Qltb. by rewrite negb_false_iff, Qle_bool_iff. Qed.

Lemma py_div_ok (a b : Q) : ~ b == 0 -> py_div a b = Ok (a / b).
Proof.
  intros Hb. unfold py_div.
  destruct (Qeq_bool b 0) eqn:E; [|done].
  apply Qeq_bool_iff in E. contradiction.
Qed.

Lemma Qfloor_unique (x : Q) (z : Z) :
  inject_Z z <= x -> x < inject_Z (z + 1) -> Qfloor x = z.
Proof.
  intros Hlo Hhi.
  apply Qfloor_resp_le in Hlo. rewrite Qfloor_Z in Hlo.
  pose proof (Qfloor_le x) as Hf.
  assert (inject_Z (Qfloor x) < inject_Z (z + 1)) as Hlt
    by (eapply Qle_lt_trans; eauto).
  rewrite <- Zlt_Qlt in Hlt. lia.
Qed.

Lemma Qfloor_succ (x : Q) : Qfloor (x + 1) = (Qfloor x + 1)%Z.
Proof.
  apply Qfloor_unique.
  - rewrite inject_Z_plus. pose proof (Qfloor_le x).
    change (inject_Z 1) with 1. lra.
  - rewrite !inject_Z_plus. pose proof (Qlt_floor x) as H.
    rewrite inject_Z_plus in H. change (inject_Z 1) with 1 in *. lra.
Qed.

(** ** The remainder *)

Lemma inject_Z_minus (a b : Z) : inject_Z (a - b) == inject_Z a - inject_Z b.
Proof.
  replace (a - b)%Z with (a + - b)%Z by lia.
  rewrite inject_Z_plus, inject_Z_opp. ring.
Qed.

Lemma floor_mod_range (v m : Q) :
  0 < m -> 0 <= floor_mod v m /\ floor_mod v m < m.
Proof.
  intros Hm. unfold floor_mod.
  pose proof (Qfloor_le (v / m)) as Hlo.
  pose proof (Qlt_floor (v / m)) as Hhi.
  rewrite inject_Z_plus in Hhi. change (inject_Z 1) with 1 in Hhi.
  assert (m * (v / m) == v) as Hv by (apply Qmult_div_r; lra).
  set (f := inject_Z (Qfloor (v / m))) in *.
  set (q := v / m) in *.
  split; nra.
Qed.



(** [fmod] agrees with the floored remainder on a non-negative dividend
    and lies one modulus below it otherwise, unless both are zero. *)
Lemma fmod_nonneg (v m : Q) :
  0 < m -> 0 <= v -> fmod v m == floor_mod v m.
Proof.
  intros Hm Hv. unfold fmod, floor_mod, py_int.
  assert (0 <= v / m) as Hq by (apply Qle_shift_div_l; lra).
  apply Qle_bool_iff in Hq. by rewrite Hq.
Qed.

Lemma fmod_neg (v m : Q) :
  0 < m -> v < 0 ->
  (fmod v m == 0 /\ floor_mod v m == 0)
  \/ (fmod v m < 0 /\ fmod v m + m == floor_mod v m).
Proof.
  intros Hm Hv.
  destruct (floor_mod_range v m Hm) as [Hf0 Hf1].
  unfold fmod, floor_mod, py_int in *.
  assert (v / m < 0) as Hq.
  { apply Qlt_shift_div_r; lra. }
  destruct (Qle_bool 0 (v / m)) eqn:E; [apply Qle_bool_iff in E; lra|].
  pose proof (Qle_ceiling (v / m)) as Hc1.
  pose proof (Qceiling_lt (v / m)) as Hc2.
  rewrite inject_Z_minus in Hc2. change (inject_Z 1) with 1 in Hc2.
  assert (m * (v / m) == v) as Hvm by (apply Qmult_div_r; lra).
  set (c := Qceiling (v / m)) in *. set (f := Qfloor (v / m)) in *.
  set (q := v / m) in *.
  pose proof (Qfloor_le q) as Hfl. fold f in Hfl.
  assert (f = c \/ f = (c - 1)%Z) as [Hfc|Hfc].
  { assert (inject_Z f <= inject_Z c) as H1 by lra.
    assert (inject_Z (c - 2) < inject_Z f) as H2.
    { rewrite inject_Z_minus. change (inject_Z 2) with 2.
      pose proof (Qlt_floor q) as Hlt. fold f in Hlt.
      rewrite inject_Z_plus in Hlt. change (inject_Z 1) with 1 in Hlt.
      lra. }
    rewrite <- Zle_Qle in H1. rewrite <- Zlt_Qlt in H2. lia. }
  - left. rewrite Hfc in *.
    assert (inject_Z c == q) as Hcq.
    { apply Qle_antisym; [|done].
      apply Qnot_lt_le. intros Hlt. nra. }
    split; rewrite Hcq; lra.
  - right. rewrite Hfc in *. rewrite inject_Z_minus in *.
    change (inject_Z 1) with 1 in *. split; [|ring].
    apply Qnot_le_lt. intros Hle. nra.
Qed.

Lemma py_mod_nonneg (v m : Q) :
  0 < m -> 0 <= v -> py_mod v m == floor_mod v m.
Proof.
  intros Hm Hv. unfold py_mod. cbv zeta.
  pose proof (fmod_nonneg v m Hm Hv) as Hr.
  destruct (floor_mod_range v m Hm) as [H0 _].
  assert (Qltb (fmod v m) 0 = false) as ->
    by (apply Qltb_ge; lra).
  assert (Qltb m 0 = false) as -> by (apply Qltb_ge; lra).
  cbn [Bool.eqb negb]. by rewrite andb_false_r.
Qed.

Lemma py_mod_neg (v m : Q) :
  0 < m -> v < 0 -> py_mod v m == round64 (floor_mod v m).
Proof.
  intros Hm Hv. unfold py_mod. cbv zeta.
  assert (Qltb m 0 = false) as -> by (apply Qltb_ge; lra).
  destruct (fmod_neg v m Hm Hv) as [[Hz Hfz]|[Hneg Hsum]].
  - apply Qeq_bool_iff in Hz as Hzb. rewrite Hzb. cbn [negb andb].
    by rewrite Hz, Hfz.
  - assert (Qeq_bool (fmod v m) 0 = false) as ->.
    { apply not_true_iff_false. intros H. apply Qeq_bool_iff in H. lra. }
    assert (Qltb (fmod v m) 0 = true) as -> by (apply Qltb_lt; lra).
    cbn [Bool.eqb negb andb]. by rewrite Hsum.
Qed.

(** In binary64 the remainder can reach the modulus itself. *)
Lemma py_mod_range (v m : Q) :
  0 < m -> round64 m == m -> 0 <= py_mod v m /\ py_mod v m <= m.
Proof.
  intros Hm Hrep.
  destruct (floor_mod_range v m Hm) as [H0 H1].
  destruct (Qlt_le_dec v 0) as [Hneg|Hpos].
  - rewrite (py_mod_neg v m Hm Hneg). split.
    + by apply round64_nonneg.
    + apply Qle_trans with (round64 m); [apply round64_le|]; lra.
  - rewrite (py_mod_nonneg v m Hm Hpos). lra.
Qed.

(** ** The wrap *)

Lemma periodic_boundary_conditions_range (v b : Q) :
  0 < b -> round64 b == b ->
  0 <= periodic_boundary_conditions v b
  /\ periodic_boundary_conditions v b <= b.
Proof.
  intros Hb Hrep. unfold periodic_boundary_conditions.
  assert (round64 (2 * b) == 2 * b) as Hm2
    by (by rewrite round64_double, Hrep).
  destruct (py_mod_range v (round64 (2 * b))) as [Hlo Hhi];
    [lra | apply round64_idem |].
  set (t := py_mod v (round64 (2 * b))) in *.
  assert (- b <= round64 (t - b)) as Hu1.
  { assert (round64 (- b) <= round64 (t - b)) as H
      by (apply round64_le; lra).
    rewrite round64_opp, Hrep in H. done. }
  assert (round64 (t - b) <= b) as Hu2.
  { apply Qle_trans with (round64 b); [apply round64_le|]; lra. }
  assert (Qabs (round64 (t - b)) <= b) as Habs
    by (apply Qabs_Qle_condition; split; lra).
  pose proof (Qabs_nonneg (round64 (t - b))) as Hnn.
  split.
  - apply Qle_trans with (round64 0); [rewrite round64_0; lra|].
    apply round64_le. lra.
  - apply Qle_trans with (round64 b); [apply round64_le|]; lra.
Qed.


(** ** The rescaling *)

Lemma rescale_parameter_value (v lo hi smin smax : Q) :
  ~ smax == smin ->
  exists r, rescale_parameter v lo hi smin smax = Ok r.
Proof.
  intros Hne. unfold rescale_parameter.
  rewrite py_div_ok; [cbn [bind]; by eexists|].
  rewrite round64_zero_iff. lra.
Qed.

Lemma rescale_parameter_degenerate (v lo hi smin smax : Q) :
  smax == smin ->
  rescale_parameter v lo hi smin smax = Err ZeroDivisionError.
Proof.
  intros He. unfold rescale_parameter, py_div.
  assert (round64 (smax - smin) == 0) as Hz
    by (apply round64_zero_iff; lra).
  apply Qeq_bool_iff in Hz. by rewrite Hz.
Qed.

(** The scale is not negative when the bounds are in order, so the
    rescaling keeps the order of its arguments. *)
Lemma rescale_parameter_monotone (v v' lo hi smin smax : Q) :
  smin < smax -> lo <= hi -> v <= v' ->
  exists r r',
    rescale_parameter v lo hi smin smax = Ok r
    /\ rescale_parameter v' lo hi smin smax = Ok r'
    /\ r <= r'.
Proof.
  intros Hs Hlh Hv. unfold rescale_parameter.
  assert (0 < round64 (smax - smin)) as Hd by (apply round64_pos; lra).
  assert (0 <= round64 (hi - lo)) as Hn by (apply round64_nonneg; lra).
  rewrite py_div_ok by lra. cbn [bind].
  set (scale := round64 (round64 (hi - lo) / round64 (smax - smin))).
  assert (0 <= scale) as Hscale.
  { apply round64_nonneg. apply Qle_shift_div_l; lra. }
  eexists _, _. split; [reflexivity|]. split; [reflexivity|].
  apply round64_le.
  assert (round64 (scale * v) <= round64 (scale * v'))
    by (apply round64_le; nra).
  lra.
Qed.

(** From the unit search range: zero goes to [lo] and one to the rounded
    sum of [lo] and the rounded width. *)
Lemma rescale_parameter_unit (w lo hi : Q) :
  round64 lo == lo ->
  exists r,
    rescale_parameter w lo hi 0 1 = Ok r
    /\ r == round64 (round64 (round64 (hi - lo) * w) + lo).
Proof.
  intros Hlo. unfold rescale_parameter.
  assert (round64 (1 - 0) == 1) as H1 by reflexivity.
  rewrite py_div_ok by (rewrite H1; discriminate). cbn [bind].
  eexists. split; [reflexivity|].
  assert (round64 (round64 (hi - lo) / round64 (1 - 0))
          == round64 (hi - lo)) as Hscale.
  { rewrite H1.
    assert (round64 (hi - lo) / 1 == round64 (hi - lo)) as -> by field.
    apply round64_idem. }
  rewrite Hscale.
  assert (round64 (hi - lo) * 0 == 0) as -> by ring.
  rewrite round64_0.
  assert (lo - 0 == lo) as -> by ring.
  by rewrite Hlo.
Qed.

Lemma rescale_parameter_unit_range (w lo hi : Q) :
  round64 lo == lo -> lo <= hi -> 0 <= w -> w <= 1 ->
  exists r,
    rescale_parameter w lo hi 0 1 = Ok r
    /\ lo <= r /\ r <= round64 (round64 (hi - lo) + lo).
Proof.
  intros Hlo Hlh H0 H1.
  destruct (rescale_parameter_unit w lo hi Hlo) as (r & Hr & Er).
  exists r. split; [done|]. rewrite Er.
  assert (0 <= round64 (hi - lo)) as Hn by (apply round64_nonneg; lra).
  set (s := round64 (hi - lo)) in *.
  assert (0 <= round64 (s * w)) as Hl.
  { apply round64_nonneg. nra. }
  assert (round64 (s * w) <= s) as Hu.
  { assert (round64 (s * w) <= round64 s) as H by (apply round64_le; nra).
    unfold s in H at 2. by rewrite round64_idem in H. }
  split.
  - apply Qle_trans with (round64 lo); [lra|]. apply round64_le. lra.
  - apply round64_le. lra.
Qed.

(** Whole bounds of moderate size are reached without any rounding. *)
Lemma rescale_parameter_whole_bounds (zl zh : Z) :
  (Z.abs zl <= 2 ^ 52)%Z -> (Z.abs zh <= 2 ^ 52)%Z -> (zl <= zh)%Z ->
  round64 (inject_Z zl) == inject_Z zl
  /\ round64 (round64 (inject_Z zh - inject_Z zl) + inject_Z zl)
     == inject_Z zh.
Proof.
  intros Hl Hh Hle. split; [apply round64_Z; lia|].
  rewrite <- inject_Z_minus, round64_Z by lia.
  rewrite <- inject_Z_plus, round64_Z by lia.
  f_equiv. lia.
Qed.

(** ** The rounding against the kernel's binary64

    On the operands of the examples below, the kernel's operations return
    the rounding of the exact result. *)

Lemma round64_agrees_with_binary64 :
  float_value 0x1.999999999999ap-4 == round64 (1 # 10)
  /\ float_value 0x1.999999999999ap-3 == round64 (2 # 10)
  /\ float_value 0x1.0cccccccccccdp+1 == round64 (21 # 10)
  /\ agrees_at PrimFloat.add Qplus 0x1.999999999999ap-4 2 = true
  /\ agrees_at PrimFloat.sub Qminus 0x1.999999999999ap-4 1 = true
  /\ agrees_at PrimFloat.sub Qminus 1 0x1.ccccccccccccdp-1 = true
  /\ agrees_at PrimFloat.sub Qminus 0x1.0cccccccccccdp+1 2 = true
  /\ agrees_at PrimFloat.sub Qminus 0x1.999999999999ap-3
       (-0x1.999999999999ap-4) = true
  /\ agrees_at PrimFloat.add Qplus 0x1.3333333333334p-2
       (-0x1.999999999999ap-4) = true
  /\ agrees_at PrimFloat.mul Qmult 0x1.3333333333334p-2
       0x1.999999999999ap-4 = true
  /\ agrees_at PrimFloat.div Qdiv 1 0x1.999999999999ap-4 = true.
Proof. vm_compute. repeat split; reflexivity. Qed.




(** ** Arrays *)

Lemma mget_ok (m : Matrix) (i j : nat) :
  (i < shape0 m)%nat -> (j < shape1 m)%nat -> mget m i j = Ok (cell m i j).
Proof.
  intros Hi Hj. unfold mget, in_shape.
  apply Nat.ltb_lt in Hi, Hj. by rewrite Hi, Hj.
Qed.

(** ** Fitness reduction *)

Lemma inject_nat_succ (k : nat) :
  inject_Z (Z.of_nat (Datatypes.S k)) == inject_Z (Z.of_nat k) + 1.
Proof. rewrite Nat2Z.inj_succ, <- Z.add_1_r, inject_Z_plus. reflexivity. Qed.

Lemma inject_nat_pos (k : nat) : (1 <= k)%nat -> 0 < inject_Z (Z.of_nat k).
Proof.
  intros Hk. change 0 with (inject_Z 0). rewrite <- Zlt_Qlt. lia.
Qed.


Section ConstantOffDiagonal.
(** A square matrix of size [n >= 3] whose off-diagonal cells all hold
    the value [c]; nothing is asked of the diagonal. *)
Variable m : Matrix.
Variable n : nat.
Variable c : Q.
Hypothesis Hn : (3 <= n)%nat.
Hypothesis Hs0 : shape0 m = n.
Hypothesis Hs1 : shape1 m = n.
Hypothesis Hc : forall i j, (i < n)%nat -> (j < n)%nat -> i <> j ->
  cell m i j == c.

Let inner_inv (i : nat) (ca ra : Q) (j : nat)
    (st : Q * Q * Q * Q * Z) : Prop :=
  let '(col_avg, row_avg, col_sum, row_sum, num_sums) := st in
  if (j <=? i)%nat then
    col_avg == ca /\ row_avg == ra
    /\ col_sum == inject_Z (Z.of_nat j) * c
    /\ row_sum == inject_Z (Z.of_nat j) * c
    /\ num_sums = Z.of_nat j
  else
    col_avg == ca + c /\ row_avg == ra + c
    /\ col_sum == inject_Z (Z.of_nat (j - i - 1)) * c
    /\ row_sum == inject_Z (Z.of_nat (j - i - 1)) * c
    /\ num_sums = Z.of_nat (j - i - 1).

Lemma eval_fitness_inner (i : nat) (ca ra : Q) :
  (1 <= i)%nat -> (i < n - 1)%nat ->
  forall j st, (0 <= j < n)%nat -> inner_inv i ca ra j st ->
  exists st',
    (let '(col_avg, row_avg, col_sum, row_sum, num_sums) := st in
     if (i =? j)%nat then
       c0 <- py_div col_sum (inject_Z num_sums) ;;
       let col_avg := col_avg + c0 in
       r <- py_div row_sum (inject_Z num_sums) ;;
       let row_avg := row_avg + r in
       Ok (col_avg, row_avg, 0, 0, 0%Z)
     else
       let num_sums := (num_sums + 1)%Z in
       c0 <- mget m j i ;;
       let col_sum := col_sum + c0 in
       r <- mget m i j ;;
       let row_sum := row_sum + r in
       Ok (col_avg, row_avg, col_sum, row_sum, num_sums)) = Ok st'
    /\ inner_inv i ca ra (Datatypes.S j) st'.
Proof.
  intros Hi1 Hi2 j [[[[col_avg row_avg] col_sum] row_sum] num_sums] Hj Hinv.
  unfold inner_inv in Hinv.
  destruct (Nat.eqb_spec i j) as [->|Hne].
  - (* the diagonal: both running sums are averaged and reset *)
    rewrite (proj2 (Nat.leb_le j j)) in Hinv by lia.
    destruct Hinv as (Hca & Hra & Hcs & Hrs & ->).
    pose proof (inject_nat_pos j Hi1) as Hpos.
    rewrite !py_div_ok by lra. cbn [bind].
    eexists. split; [reflexivity|]. unfold inner_inv.
    rewrite (proj2 (Nat.leb_gt _ _)) by lia.
    replace (Datatypes.S j - j - 1)%nat with 0%nat by lia.
    repeat split; try reflexivity.
    + rewrite Hca, Hcs. field. lra.
    + rewrite Hra, Hrs. field. lra.
  - rewrite !mget_ok by lia. cbn [bind].
    eexists. split; [reflexivity|]. unfold inner_inv.
    assert (cell m j i == c) as Hji by (apply Hc; lia).
    assert (cell m i j == c) as Hij by (apply Hc; lia).
    destruct (Nat.leb_spec j i) as [Hle|Hgt].
    + destruct Hinv as (Hca & Hra & Hcs & Hrs & ->).
      rewrite (proj2 (Nat.leb_le _ _)) by lia.
      repeat split; try done.
      * rewrite Hcs, Hji, inject_nat_succ. ring.
      * rewrite Hrs, Hij, inject_nat_succ. ring.
      * lia.
    + destruct Hinv as (Hca & Hra & Hcs & Hrs & ->).
      rewrite (proj2 (Nat.leb_gt _ _)) by lia.
      replace (Datatypes.S j - i - 1)%nat
        with (Datatypes.S (j - i - 1)) by lia.
      repeat split; try done.
      * rewrite Hcs, Hji, inject_nat_succ. ring.
      * rewrite Hrs, Hij, inject_nat_succ. ring.
      * lia.
Qed.

Lemma eval_fitness_constant :
  exists v, eval_fitness m = Ok v /\ v == c.
Proof.
  unfold eval_fitness. rewrite Hs0, Hs1.
  set (outer_inv := fun (i : nat) (acc : Q * Q) =>
    fst acc == inject_Z (Z.of_nat (i - 1)) * (2 * c)
    /\ snd acc == inject_Z (Z.of_nat (i - 1)) * (2 * c)).
  edestruct (for_range_inv outer_inv) as (acc & -> & Hacc);
    [ | | | simpl ].
  - lia.
  - split; simpl; change (inject_Z (Z.of_nat (1 - 1))) with 0; ring.
  - intros i [ca ra] Hi [Hca Hra]. simpl in Hca, Hra.
    edestruct (for_range_inv (inner_inv i ca ra)) as (st & -> & Hst);
      [ | | apply (eval_fitness_inner i ca ra); lia | simpl ].
    + lia.
    + simpl. repeat split; try reflexivity;
        change (inject_Z 0) with 0; ring.
    + destruct st as [[[[col_avg row_avg] col_sum] row_sum] num_sums].
      unfold inner_inv in Hst.
      rewrite (proj2 (Nat.leb_gt _ _)) in Hst by lia.
      destruct Hst as (Hca' & Hra' & Hcs & Hrs & ->).
      pose proof (inject_nat_pos (n - i - 1)) as Hpos.
      rewrite !py_div_ok by (specialize (Hpos ltac:(lia)); lra).
      cbn [bind]. eexists. split; [reflexivity|].
      specialize (Hpos ltac:(lia)).
      split; cbn [fst snd];
        replace (Datatypes.S i - 1)%nat with (Datatypes.S (i - 1)) by lia.
      * rewrite Hca', Hca, Hcs, inject_nat_succ. field. lra.
      * rewrite Hra', Hra, Hrs, inject_nat_succ. field. lra.
  - destruct acc as [col_avg row_avg]. destruct Hacc as [Hca Hra].
    simpl in Hca, Hra.
    assert (inject_Z (Z.of_nat n - 2) == inject_Z (Z.of_nat (n - 1 - 1)))
      as Hd by (f_equiv; lia).
    pose proof (inject_nat_pos (n - 1 - 1) ltac:(lia)) as Hpos.
    rewrite !py_div_ok by lra. simpl.
    eexists. split; [reflexivity|].
    assert (col_avg / inject_Z (Z.of_nat n - 2) / 2 == c) as Ha
      by (rewrite Hca, Hd; field; lra).
    assert (row_avg / inject_Z (Z.of_nat n - 2) / 2 == c) as Hb
      by (rewrite Hra, Hd; field; lra).
    rewrite Ha, Hb. apply Q.min_id.
Qed.

End ConstantOffDiagonal.

(** ** The reduction in closed form *)

Lemma Qsum_snoc (l : list Q) (v : Q) : Qsum (l ++ [v]) == Qsum l + v.
Proof.
  induction l as [|u l IH]; cbn [app Qsum foldr].
  - ring.
  - fold (Qsum (l ++ [v])). fold (Qsum l). rewrite IH. ring.
Qed.

Lemma Qsum_seq_succ (f : nat -> Q) (lo k : nat) :
  Qsum (f <$> seq lo (Datatypes.S k))
  == Qsum (f <$> seq lo k) + f (lo + k)%nat.
Proof. rewrite seq_S, fmap_app. apply Qsum_snoc. Qed.

Section FitnessFormula.
Variable m : Matrix.
Variable n : nat.
Hypothesis Hn : (3 <= n)%nat.
Hypothesis Hs0 : shape0 m = n.
Hypothesis Hs1 : shape1 m = n.

Let col (i j : nat) : Q := cell m j i.
Let row (i j : nat) : Q := cell m i j.

Let formula_inv (i : nat) (ca ra : Q) (j : nat)
    (st : Q * Q * Q * Q * Z) : Prop :=
  let '(col_avg, row_avg, col_sum, row_sum, num_sums) := st in
  if (j <=? i)%nat then
    col_avg == ca /\ row_avg == ra
    /\ col_sum == Qsum (col i <$> seq 0 j)
    /\ row_sum == Qsum (row i <$> seq 0 j)
    /\ num_sums = Z.of_nat j
  else
    col_avg == ca + segment_mean (col i) 0 i
    /\ row_avg == ra + segment_mean (row i) 0 i
    /\ col_sum == Qsum (col i <$> seq (i + 1) (j - i - 1))
    /\ row_sum == Qsum (row i <$> seq (i + 1) (j - i - 1))
    /\ num_sums = Z.of_nat (j - i - 1).

Lemma eval_fitness_formula_inner (i : nat) (ca ra : Q) :
  (1 <= i)%nat -> (i < n - 1)%nat ->
  forall j st, (0 <= j < n)%nat -> formula_inv i ca ra j st ->
  exists st',
    (let '(col_avg, row_avg, col_sum, row_sum, num_sums) := st in
     if (i =? j)%nat then
       c0 <- py_div col_sum (inject_Z num_sums) ;;
       let col_avg := col_avg + c0 in
       r <- py_div row_sum (inject_Z num_sums) ;;
       let row_avg := row_avg + r in
       Ok (col_avg, row_avg, 0, 0, 0%Z)
     else
       let num_sums := (num_sums + 1)%Z in
       c0 <- mget m j i ;;
       let col_sum := col_sum + c0 in
       r <- mget m i j ;;
       let row_sum := row_sum + r in
       Ok (col_avg, row_avg, col_sum, row_sum, num_sums)) = Ok st'
    /\ formula_inv i ca ra (Datatypes.S j) st'.
Proof.
  intros Hi1 Hi2 j [[[[col_avg row_avg] col_sum] row_sum] num_sums] Hj Hinv.
  unfold formula_inv in Hinv.
  destruct (Nat.eqb_spec i j) as [->|Hne].
  - rewrite (proj2 (Nat.leb_le j j)) in Hinv by lia.
    destruct Hinv as (Hca & Hra & Hcs & Hrs & ->).
    pose proof (inject_nat_pos j Hi1) as Hpos.
    rewrite !py_div_ok by lra. cbn [bind].
    eexists. split; [reflexivity|]. unfold formula_inv.
    rewrite (proj2 (Nat.leb_gt _ _)) by lia.
    replace (Datatypes.S j - j - 1)%nat with 0%nat by lia.
    unfold segment_mean. rewrite Nat.sub_0_r.
    repeat match goal with |- _ /\ _ => split end; try reflexivity.
    + by rewrite Hca, Hcs.
    + by rewrite Hra, Hrs.
  - rewrite !mget_ok by lia. cbn [bind].
    eexists. split; [reflexivity|]. unfold formula_inv.
    destruct (Nat.leb_spec j i) as [Hle|Hgt].
    + destruct Hinv as (Hca & Hra & Hcs & Hrs & ->).
      rewrite (proj2 (Nat.leb_le _ _)) by lia.
      repeat match goal with |- _ /\ _ => split end; try done.
      * rewrite Hcs, Qsum_seq_succ. reflexivity.
      * rewrite Hrs, Qsum_seq_succ. reflexivity.
      * lia.
    + destruct Hinv as (Hca & Hra & Hcs & Hrs & ->).
      rewrite (proj2 (Nat.leb_gt _ _)) by lia.
      replace (Datatypes.S j - i - 1)%nat
        with (Datatypes.S (j - i - 1)) by lia.
      repeat match goal with |- _ /\ _ => split end; try done.
      * rewrite Hcs, Qsum_seq_succ.
        replace (i + 1 + (j - i - 1))%nat with j by lia. reflexivity.
      * rewrite Hrs, Qsum_seq_succ.
        replace (i + 1 + (j - i - 1))%nat with j by lia. reflexivity.
      * lia.
Qed.

Lemma eval_fitness_closed_form :
  exists v, eval_fitness m = Ok v /\ v == fitness_formula m.
Proof.
  unfold eval_fitness, fitness_formula. rewrite Hs0, Hs1. cbv zeta.
  set (outer_inv := fun (i : nat) (acc : Q * Q) =>
    fst acc == Qsum (column_score m <$> seq 1 (i - 1))
    /\ snd acc == Qsum (row_score m <$> seq 1 (i - 1))).
  edestruct (for_range_inv outer_inv) as (acc & -> & Hacc);
    [ | | | cbn [bind] ].
  - lia.
  - split; reflexivity.
  - intros i [ca ra] Hi [Hca Hra]. cbn [fst snd] in Hca, Hra.
    edestruct (for_range_inv (formula_inv i ca ra)) as (st & -> & Hst);
      [ | | apply (eval_fitness_formula_inner i ca ra); lia | cbn [bind] ].
    + lia.
    + unfold formula_inv. cbn [Nat.leb].
      repeat match goal with |- _ /\ _ => split end; reflexivity.
    + destruct st as [[[[col_avg row_avg] col_sum] row_sum] num_sums].
      unfold formula_inv in Hst.
      rewrite (proj2 (Nat.leb_gt _ _)) in Hst by lia.
      destruct Hst as (Hca' & Hra' & Hcs & Hrs & ->).
      pose proof (inject_nat_pos (n - i - 1) ltac:(lia)) as Hpos.
      rewrite !py_div_ok by lra. cbn [bind].
      eexists. split; [reflexivity|].
      assert (column_score m i
              == segment_mean (col i) 0 i
                 + Qsum (col i <$> seq (i + 1) (n - i - 1))
                   / inject_Z (Z.of_nat (n - i - 1))) as Hci.
      { unfold column_score, segment_mean. rewrite Hs1.
        replace (n - (i + 1))%nat with (n - i - 1)%nat by lia. reflexivity. }
      assert (row_score m i
              == segment_mean (row i) 0 i
                 + Qsum (row i <$> seq (i + 1) (n - i - 1))
                   / inject_Z (Z.of_nat (n - i - 1))) as Hri.
      { unfold row_score, segment_mean. rewrite Hs1.
        replace (n - (i + 1))%nat with (n - i - 1)%nat by lia. reflexivity. }
      split; cbn [fst snd];
        replace (Datatypes.S i - 1)%nat with (Datatypes.S (i - 1)) by lia;
        rewrite Qsum_seq_succ;
        replace (1 + (i - 1))%nat with i by lia.
      * rewrite Hca', Hca, Hcs, Hci. ring.
      * rewrite Hra', Hra, Hrs, Hri. ring.
  - destruct acc as [col_avg row_avg]. destruct Hacc as [Hca Hra].
    cbn [fst snd] in Hca, Hra.
    replace (n - 1 - 1)%nat with (n - 2)%nat in * by lia.
    assert (inject_Z (Z.of_nat n - 2) == inject_Z (Z.of_nat (n - 2)))
      as Hd by (f_equiv; lia).
    pose proof (inject_nat_pos (n - 2) ltac:(lia)) as Hpos.
    rewrite !py_div_ok by lra. cbn [bind].
    eexists. split; [reflexivity|].
    rewrite Hca, Hra, Hd. reflexivity.
Qed.

End FitnessFormula.

(** C1 (as stated, refuted): on the 3 x 3 matrix with every off-diagonal
    cell equal to 1 the reduction returns 1, not 0.5. *)
Lemma eval_fitness_all_ones_is_not_half :
  exists v, eval_fitness (off_diagonal_matrix 3 1) = Ok v
            /\ v == 1 /\ ~ v == 1 # 2.
Proof.
  eexists. split; [vm_compute; reflexivity|]. split; [reflexivity|].
  intros H. discriminate H.
Qed.

(** C1 (amended): for every square outcome matrix of size [n >= 3],
    [eval_fitness] returns 1 when all off-diagonal cells equal 1 and 0 when
    they all equal 0.  For each interior index [i] in [[1, n-2]] the loop
    adds, for column [i] and for row [i], the mean of the cells before the
    diagonal and the mean of the cells after it; the result is
    [min(accumulated_column/(n-2)/2, accumulated_row/(n-2)/2)]. *)
Theorem eval_fitness_all_ones_all_zeros (m : Matrix) (n : nat) :
  (3 <= n)%nat ->
  shape0 m = n ->
  shape1 m = n ->
  (exists v, eval_fitness m = Ok v /\ v == fitness_formula m)
  /\ ((forall i j, (i < n)%nat -> (j < n)%nat -> i <> j -> cell m i j == 1) ->
      exists v, eval_fitness m = Ok v /\ v == 1)
  /\ ((forall i j, (i < n)%nat -> (j < n)%nat -> i <> j -> cell m i j == 0) ->
      exists v, eval_fitness m = Ok v /\ v == 0).
Proof.
  intros Hn Hs0 Hs1. split; [|split].
  - exact (eval_fitness_closed_form m n Hn Hs0 Hs1).
  - intros Hc. exact (eval_fitness_constant m n 1 Hn Hs0 Hs1 Hc).
  - intros Hc. exact (eval_fitness_constant m n 0 Hn Hs0 Hs1 Hc).
Qed.

Lemma eval_fitness_all_ones_all_zeros_witness :
  (exists v, eval_fitness (off_diagonal_matrix 5 1) = Ok v /\ v == 1)
  /\ (exists v, eval_fitness (off_diagonal_matrix 5 0) = Ok v /\ v == 0).
Proof.
  split.
  - apply (eval_fitness_all_ones_all_zeros (off_diagonal_matrix 5 1) 5);
      [lia | reflexivity | reflexivity |].
    intros i j Hi Hj Hne. simpl.
    destruct (Nat.eqb_spec i j); [contradiction | reflexivity].
  - apply (eval_fitness_all_ones_all_zeros (off_diagonal_matrix 5 0) 5);
      [lia | reflexivity | reflexivity |].
    intros i j Hi Hj Hne. simpl.
    destruct (Nat.eqb_spec i j); reflexivity.
Defined.

(** C7 (as stated, refuted): on a 1 x 1 outcome matrix the reduction
    returns a value; no error of any kind is reported. *)
Lemma eval_fitness_degenerate_returns_silently :
  (exists v, eval_fitness (off_diagonal_matrix 1 1) = Ok v /\ v == 0)
  /\ ~ (exists e, eval_fitness (off_diagonal_matrix 1 1) = Err e).
Proof.
  split.
  - eexists. split; [vm_compute; reflexivity | reflexivity].
  - intros [e He]. vm_compute in He. discriminate He.
Qed.

(** C7 (amended): [eval_fitness] has no guard for a degenerate outcome
    matrix.  With [n = 2] the division by [n - 2] raises
    [ZeroDivisionError]; with [n <= 1] the loops are empty and zero is
    returned without any error. *)
Theorem eval_fitness_degenerate (m : Matrix) :
  (shape0 m <= 2)%nat ->
  if (shape0 m =? 2)%nat
  then eval_fitness m = Err ZeroDivisionError
  else exists v, eval_fitness m = Ok v /\ v == 0.
Proof.
  intros Hn. unfold eval_fitness.
  rewrite for_range_empty by lia. cbn [bind].
  destruct (shape0 m) as [|[|[|k]]] eqn:E; [| | |lia]; cbn [Nat.eqb].
  - eexists. split; [reflexivity|]. vm_compute. reflexivity.
  - eexists. split; [reflexivity|]. vm_compute. reflexivity.
  - reflexivity.
Qed.

Lemma eval_fitness_degenerate_witness :
  eval_fitness (off_diagonal_matrix 2 1) = Err ZeroDivisionError.
Proof.
  apply (eval_fitness_degenerate (off_diagonal_matrix 2 1)). simpl. lia.
Defined.

(** ** Outcome of a trial *)

Lemma spans_overlap_shared_point (lo1 hi1 lo2 hi2 : Q) :
  lo1 <= hi1 -> lo2 <= hi2 ->
  (spans_overlap lo1 hi1 lo2 hi2 <-> spans_share_point lo1 hi1 lo2 hi2).
Proof.
  intros H1 H2. unfold spans_overlap, spans_share_point. split.
  - intros [Ha Hb]. destruct (Qlt_le_dec lo1 lo2) as [Hlt|Hge].
    + exists lo2. repeat split; lra.
    + exists lo1. repeat split; lra.
  - intros (p & [Ha Hb] & [Hc Hd]). split; lra.
Qed.

Section TrialProperties.
Context {Agent Ball Ctrl : Type}.
Context `{SA : SensorAgent Agent Ball Ctrl} `{CI : Circle Ball}.

(** [trial] reads its outcome off the state in which the second drop
    ends. *)
Lemma trial_validation_result (fuel : nat) (cfg : Config) (p c : Q)
    (record : bool) (w w' : World Agent Ball) :
  trial_run fuel cfg p c record w = Ok w' ->
  trial fuel cfg p c record true w
  = Ok (ValidationPair (fst (validation_outcome p c (agent w') (ball w')))
                       (snd (validation_outcome p c (agent w') (ball w'))),
        w').
Proof.
  intros H. unfold trial. rewrite H. cbn [bind].
  by destruct (validation_outcome p c (agent w') (ball w')).
Qed.

Lemma trial_fitness_result (fuel : nat) (cfg : Config) (p c : Q)
    (record : bool) (w w' : World Agent Ball) (v : Q) :
  trial_run fuel cfg p c record w = Ok w' ->
  fitness_outcome cfg p c (agent w') (ball w') = Ok v ->
  trial fuel cfg p c record false w = Ok (FitnessValue v, w').
Proof. intros H Hv. unfold trial. rewrite H. cbn [bind]. by rewrite Hv. Qed.


(** The continuous branch, on any final state. *)
Lemma fitness_outcome_spec (cfg : Config)
    (presented comparison : Q) (a : Agent) (b : Ball) :
  0 < max_distance cfg ->
  let normalized :=
    Qmin (Qabs (ball_center_xpos b - agent_xpos a) / max_distance cfg) 1 in
  exists v,
    fitness_outcome cfg presented comparison a b = Ok v
    /\ 0 <= v /\ v <= 1
    /\ 0 <= normalized
    /\ (comparison < presented -> v == 1 - normalized)
    /\ (~ comparison < presented -> v == normalized)
    /\ (presented == comparison -> v == normalized).
Proof.
  intros Hmax. cbv zeta. unfold fitness_outcome.
  rewrite py_div_ok by lra. cbn [bind].
  set (d := Qabs (ball_center_xpos b - agent_xpos a) / max_distance cfg).
  assert (0 <= d) as Hd.
  { unfold d. apply Qle_shift_div_l; [done|].
    pose proof (Qabs_nonneg (ball_center_xpos b - agent_xpos a)). lra. }
  eexists. split; [reflexivity|].
  destruct (Qltb 1 d) eqn:Hcl;
    [apply Qltb_lt in Hcl; rewrite (Q.min_r d 1) by lra
    |apply Qltb_ge in Hcl; rewrite (Q.min_l d 1) by lra];
    (destruct (Qltb comparison presented) eqn:Hpc;
     [apply Qltb_lt in Hpc | apply Qltb_ge in Hpc]);
    repeat match goal with |- _ /\ _ => split end;
    try lra; intros; try lra; reflexivity.
Qed.


(** C10 (amended): in continuous mode, with a positive [max_distance],
    whatever the two diameters and the state [w'] in which the second drop ends, [trial]
    returns a value in [[0, 1]]: the distance between ball and agent over
    [max_distance], capped at 1, when the presented diameter does not
    exceed the comparison diameter (in particular when the two are equal),
    and 1 minus that otherwise. *)
Theorem trial_fitness_unit_interval (fuel : nat) (cfg : Config)
    (presented comparison : Q) (record : bool) (w w' : World Agent Ball) :
  0 < max_distance cfg ->
  trial_run fuel cfg presented comparison record w = Ok w' ->
  let normalized :=
    Qmin (Qabs (ball_center_xpos (ball w') - agent_xpos (agent w'))
          / max_distance cfg) 1 in
  exists v,
    trial fuel cfg presented comparison record false w
    = Ok (FitnessValue v, w')
    /\ 0 <= v /\ v <= 1
    /\ 0 <= normalized
    /\ (comparison < presented -> v == 1 - normalized)
    /\ (~ comparison < presented -> v == normalized)
    /\ (presented == comparison -> v == normalized).
Proof.
  intros Hmax Hrun. cbv zeta.
  destruct (fitness_outcome_spec cfg presented comparison
              (agent w') (ball w') Hmax) as (v & Hv & Hrest).
  exists v. split; [by apply trial_fitness_result|done].
Qed.

(** Each drop that ends leaves the controller wherever the collaborator's
    steps took it: the state entering the second drop is the one computed
    by the first. *)
Lemma trial_run_phases (fuel : nat) (cfg : Config)
    (presented comparison : Q) (record : bool) (w w2 : World Agent Ball) :
  trial_run fuel cfg presented comparison record w = Ok w2 ->
  exists w0 w1,
    trial_setup cfg presented record w = Ok w0
    /\ drop_presented fuel cfg record w0 = Ok w1
    /\ drop_comparison fuel cfg record (trial_resetup cfg comparison w1)
       = Ok w2.
Proof.
  intros Hrun. unfold trial_run in Hrun.
  apply bind_ok in Hrun as (w0 & Hsetup & Hrun).
  apply bind_ok in Hrun as (w1 & Hdrop & Hrun).
  by exists w0, w1.
Qed.

End TrialProperties.


Lemma trial_fitness_unit_interval_witness :
  exists (v : Q) (w' : World ToyAgent ToyBall),
    trial 20 parameter_defaults 30 30 false false toy_world
    = Ok (FitnessValue v, w')
    /\ 0 <= v /\ v <= 1.
Proof.
  destruct (trial_run 20 parameter_defaults 30 30 false toy_world)
    as [w'|e] eqn:Hrun; [|vm_compute in Hrun; discriminate Hrun].
  destruct (trial_fitness_unit_interval 20 parameter_defaults 30 30 false
              toy_world w' ltac:(reflexivity) Hrun)
    as (v & Htrial & H0 & H1 & _).
  exists v, w'. split; [exact Htrial|]. split; [exact H0 | exact H1].
Defined.

(** On the small collaborators: the controller state that enters the
    second drop is the one the first drop left, not the initial one. *)
Lemma toy_trial_carries_controller_state :
  exists w0 w1 : World ToyAgent ToyBall,
    trial_setup parameter_defaults 50 false toy_world = Ok w0
    /\ drop_presented 20 parameter_defaults false w0 = Ok w1
    /\ controller_state (agent w0) == 0
    /\ controller_state (agent w1) == 45 # 2
    /\ controller_state (agent (trial_resetup parameter_defaults 20 w1)) == 45 # 2.
Proof.
  eexists. eexists. split; [vm_compute; reflexivity|].
  split; [vm_compute; reflexivity|].
  repeat split; vm_compute; reflexivity.
Qed.

(** C10 (as stated, refuted): nothing makes [max_distance] positive.  With
    [max_distance = -75] the value of a trial is 483/375, above 1, when the
    presented ball is the larger one, and -369/1500, below 0, when it is
    the smaller one. *)
Lemma trial_fitness_leaves_unit_interval :
  let cfg :=
    {| world_left := 0; world_right := 400; world_bottom := 300;
       bilateral_symmetry := false; agent_radius := 15; num_rays := 7;
       num_interneurons := 3; max_distance := - (75);
       circle_min_diameter := 20; circle_max_diameter := 50;
       circle_difference := 5; step_size := 1 # 10;
       min_weight := - (16); max_weight := 16;
       min_bias := - (16); max_bias := 16;
       min_tau := 1; max_tau := 30;
       min_search_value := 0; max_search_value := 1 |} in
  exists (v v' : Q) (w1 w2 : World ToyAgent ToyBall),
    trial 20 cfg 50 20 false false toy_world = Ok (FitnessValue v, w1)
    /\ 1 < v
    /\ trial 20 cfg 20 50 false false toy_world = Ok (FitnessValue v', w2)
    /\ v' < 0.
Proof.
  cbv zeta. eexists _, _, _, _.
  split; [vm_compute; reflexivity|]. split; [reflexivity|].
  split; [vm_compute; reflexivity|]. reflexivity.
Qed.
(** ** The two drops end

    With a ball whose leading edge moves down by at least [delta > 0] at
    every step and an agent whose top edge is not moved by its own step or
    by the clipping, enough fuel lets both loops reach their exit
    condition, so that [trial] returns.  A recorded trial also needs the
    agent never to carry more rays than the first snapshot has lists
    for. *)

Lemma Q_archimedean (v d : Q) :
  0 < d -> exists k : nat, v <= inject_Z (Z.of_nat k) * d.
Proof.
  intros Hd. exists (Z.to_nat (Qceiling (v / d))).
  pose proof (Qle_ceiling (v / d)) as Hc.
  assert (inject_Z (Qceiling (v / d))
          <= inject_Z (Z.of_nat (Z.to_nat (Qceiling (v / d))))) as Hz
    by (rewrite <- Zle_Qle; lia).
  assert (v == v / d * d) as Hv by (field; lra).
  rewrite Hv at 1. apply Qmult_le_compat_r; lra.
Qed.

Section MoreFuel.
Context {Agent Ball Ctrl : Type}.
Context `{SA : SensorAgent Agent Ball Ctrl} `{CI : Circle Ball}.

Variable cfg : Config.

Lemma drop_presented_more_fuel (record : bool) (k k' : nat) :
  forall w w' : World Agent Ball,
    (k <= k')%nat ->
    drop_presented k cfg record w = Ok w' ->
    drop_presented k' cfg record w = Ok w'.
Proof.
  revert k'. induction k as [|k IH]; intros k' w w' Hle Hrun.
  - cbn [drop_presented] in Hrun.
    destruct (Qltb _ _) eqn:E; [discriminate|].
    destruct k'; cbn [drop_presented]; by rewrite E.
  - destruct k' as [|k']; [lia|]. cbn [drop_presented] in *.
    destruct (Qltb _ _) eqn:E; [|done].
    apply bind_ok in Hrun as (r & -> & Hrun). cbn [bind].
    apply IH; [lia|done].
Qed.

Lemma drop_comparison_more_fuel (record : bool) (k k' : nat) :
  forall w w' : World Agent Ball,
    (k <= k')%nat ->
    drop_comparison k cfg record w = Ok w' ->
    drop_comparison k' cfg record w = Ok w'.
Proof.
  revert k'. induction k as [|k IH]; intros k' w w' Hle Hrun.
  - cbn [drop_comparison] in Hrun.
    destruct (Qltb _ _) eqn:E; [discriminate|].
    destruct k'; cbn [drop_comparison]; by rewrite E.
  - destruct k' as [|k']; [lia|]. cbn [drop_comparison] in *.
    destruct (Qltb _ _) eqn:E; [|done].
    apply bind_ok in Hrun as (r & -> & Hrun). cbn [bind].
    apply IH; [lia|done].
Qed.

(** A later recording succeeds exactly when there is an earlier one and
    the agent has no more rays than the first snapshot. *)
Lemma record_data_step (a : Agent) (b : Ball) (r : Records) (slots : nat) :
  time_records r <> [] ->
  ray_slots r = Some slots ->
  (length (agent_rays a) <= slots)%nat ->
  exists r',
    _record_data cfg a b false r = Ok r'
    /\ time_records r' <> []
    /\ ray_slots r' = Some slots.
Proof.
  intros Hne Hslots Hrays. unfold _record_data, vget_back, vget.
  destruct (time_records r) as [|t ts] eqn:E; [done|].
  rewrite decide_True by (cbn; lia).
  destruct (lookup_lt_is_Some_2 (t :: ts) (length (t :: ts) - 1))
    as [u ->]; [cbn; lia|].
  cbn [bind]. rewrite Hslots, decide_True by done.
  eexists. split; [reflexivity|].
  cbn [time_records]. split; [by destruct ts|].
  unfold ray_slots in *. cbn [object_records].
  destruct (object_records r); [discriminate|done].
Qed.

Lemma record_data_too_many_rays (a : Agent) (b : Ball) (r : Records)
    (slots : nat) :
  time_records r <> [] ->
  ray_slots r = Some slots ->
  (slots < length (agent_rays a))%nat ->
  _record_data cfg a b false r = Err KeyError.
Proof.
  intros Hne Hslots Hrays. unfold _record_data, vget_back, vget.
  destruct (time_records r) as [|t ts] eqn:E; [done|].
  rewrite decide_True by (cbn; lia).
  destruct (lookup_lt_is_Some_2 (t :: ts) (length (t :: ts) - 1))
    as [u ->]; [cbn; lia|].
  cbn [bind]. rewrite Hslots, decide_False by lia. reflexivity.
Qed.

End MoreFuel.

Section TrialTermination.
Context {Agent Ball Ctrl : Type}.
Context `{SA : SensorAgent Agent Ball Ctrl} `{CI : Circle Ball}.

Variable cfg : Config.
Variable delta : Q.
Variable record : bool.
Variable slots : nat.

Let top (a : Agent) : Q := agent_ypos a - agent_radius_of a.

Hypothesis Hdelta : 0 < delta.
Hypothesis Hfall : forall b : Ball,
  ball_leading_edge_y b + delta
  <= ball_leading_edge_y (ball_step (step_size cfg) b).
Hypothesis Hstep : forall (b : Ball) (frozen : bool) (a : Agent),
  top (agent_one_obj_step (step_size cfg) b frozen a) == top a.
Hypothesis Hclip : forall a : Agent,
  top (agent_clip_position (world_left cfg) (world_right cfg) a) == top a.
Hypothesis Hrays : record = true ->
  (forall (b : Ball) (a : Agent),
     length (agent_rays (agent_initialize_ray_sensors b a)) = slots)
  /\ (forall (b : Ball) (frozen : bool) (a : Agent),
        (length (agent_rays (agent_one_obj_step (step_size cfg) b frozen a))
         <= slots)%nat)
  /\ (forall a : Agent,
        (length (agent_rays
                   (agent_clip_position (world_left cfg) (world_right cfg) a))
         <= length (agent_rays a))%nat).

Let recording (w : World Agent Ball) : Prop :=
  record = true ->
  time_records (records w) <> [] /\ ray_slots (records w) = Some slots.

Lemma record_if_asked (a : Agent) (b : Ball) (w : World Agent Ball) :
  recording w ->
  (record = true -> (length (agent_rays a) <= slots)%nat) ->
  exists r,
    (if record then _record_data cfg a b false (records w)
     else Ok (records w)) = Ok r
    /\ (record = true ->
        time_records r <> [] /\ ray_slots r = Some slots).
Proof.
  intros Hrec Hlen. destruct record eqn:E.
  - destruct (Hrec eq_refl) as [Hne Hsl].
    destruct (record_data_step cfg a b (records w) slots Hne Hsl
                (Hlen eq_refl)) as (r & Hr & Hne' & Hsl').
    by exists r.
  - exists (records w). split; [done|]. discriminate.
Qed.

Lemma drop_presented_ends (k : nat) :
  forall w : World Agent Ball,
    recording w ->
    top (agent w) - ball_leading_edge_y (ball w)
    <= inject_Z (Z.of_nat k) * delta ->
    exists w',
      drop_presented k cfg record w = Ok w'
      /\ recording w'
      /\ top (agent w') <= ball_leading_edge_y (ball w').
Proof.
  induction k as [|k IH]; intros w Hrec Hk.
  - change (inject_Z (Z.of_nat 0)) with 0 in Hk.
    exists w. cbn [drop_presented]. fold (top (agent w)).
    destruct (Qltb _ _) eqn:E; [apply Qltb_lt in E; lra|].
    apply Qltb_ge in E. done.
  - cbn [drop_presented]. fold (top (agent w)).
    destruct (Qltb _ _) eqn:E; [|apply Qltb_ge in E; by exists w].
    set (b := ball_step (step_size cfg) (ball w)).
    set (a := agent_one_obj_step (step_size cfg) b true (agent w)).
    destruct (record_if_asked a b w Hrec) as (r & -> & Hr).
    { intros Ht. destruct (Hrays Ht) as (_ & Hs & _). apply Hs. }
    cbn [bind]. apply IH; [done|]. cbn [agent ball].
    pose proof (Hfall (ball w)) as Hf. fold b in Hf.
    pose proof (Hstep b true (agent w)) as Hs. fold a in Hs.
    rewrite inject_nat_succ in Hk. nra.
Qed.

Lemma drop_comparison_ends (k : nat) :
  forall w : World Agent Ball,
    recording w ->
    top (agent w) - ball_leading_edge_y (ball w)
    <= inject_Z (Z.of_nat k) * delta ->
    exists w',
      drop_comparison k cfg record w = Ok w'
      /\ recording w'
      /\ top (agent w') <= ball_leading_edge_y (ball w').
Proof.
  induction k as [|k IH]; intros w Hrec Hk.
  - change (inject_Z (Z.of_nat 0)) with 0 in Hk.
    exists w. cbn [drop_comparison]. fold (top (agent w)).
    destruct (Qltb _ _) eqn:E; [apply Qltb_lt in E; lra|].
    apply Qltb_ge in E. done.
  - cbn [drop_comparison]. fold (top (agent w)).
    destruct (Qltb _ _) eqn:E; [|apply Qltb_ge in E; by exists w].
    set (b := ball_step (step_size cfg) (ball w)).
    set (a0 := agent_one_obj_step (step_size cfg) b false (agent w)).
    set (a := agent_clip_position (world_left cfg) (world_right cfg) a0).
    destruct (record_if_asked a b w Hrec) as (r & -> & Hr).
    { intros Ht. destruct (Hrays Ht) as (_ & Hs & Hc).
      pose proof (Hc a0) as H1. pose proof (Hs b false (agent w)) as H2.
      fold a0 in H2. fold a in H1. lia. }
    cbn [bind]. apply IH; [done|]. cbn [agent ball].
    pose proof (Hfall (ball w)) as Hf. fold b in Hf.
    pose proof (Hstep b false (agent w)) as Hs. fold a0 in Hs.
    pose proof (Hclip a0) as Hc. fold a in Hc.
    rewrite inject_nat_succ in Hk. nra.
Qed.

(** Both drops of a trial end, whatever the two diameters. *)
Lemma trial_run_returns (presented comparison : Q) (w : World Agent Ball) :
  exists fuel w',
    trial_run fuel cfg presented comparison record w = Ok w'
    /\ top (agent w') <= ball_leading_edge_y (ball w').
Proof.
  unfold trial_run.
  assert (exists w0, trial_setup cfg presented record w = Ok w0
                     /\ recording w0) as (w0 & Hsetup & Hrec0).
  { unfold trial_setup, recording. destruct record eqn:E.
    - cbn [_record_data bind]. eexists. split; [reflexivity|].
      intros _. cbn [records time_records]. split; [done|].
      unfold ray_slots. cbn [records object_records snap_rays].
      rewrite length_fmap. f_equal.
      destruct (Hrays eq_refl) as (Hi & _). apply Hi.
    - cbn [bind]. eexists. split; [reflexivity|]. discriminate. }
  destruct (Q_archimedean
              (top (agent w0) - ball_leading_edge_y (ball w0)) delta Hdelta)
    as [k1 Hk1].
  destruct (drop_presented_ends k1 w0 Hrec0 Hk1)
    as (w1 & Hd1 & Hrec1 & _).
  set (w1' := trial_resetup cfg comparison w1).
  destruct (Q_archimedean
              (top (agent w1') - ball_leading_edge_y (ball w1'))
              delta Hdelta)
    as [k2 Hk2].
  destruct (drop_comparison_ends k2 w1') as (w2 & Hd2 & Hrec2 & Hend);
    [done|done|].
  exists (Nat.max k1 k2), w2. split; [|done].
  rewrite Hsetup. cbn [bind].
  rewrite (drop_presented_more_fuel cfg record k1 (Nat.max k1 k2) w0 w1)
    by (done || lia).
  cbn [bind]. fold w1'.
  apply (drop_comparison_more_fuel cfg record k2); [lia|done].
Qed.

(** Hence a validation trial returns its pair, and a continuous trial its
    value when [max_distance] is not zero. *)
Lemma trial_returns (presented comparison : Q) (validation : bool)
    (w : World Agent Ball) :
  ~ max_distance cfg == 0 ->
  exists fuel r w',
    trial fuel cfg presented comparison record validation w = Ok (r, w').
Proof.
  intros Hmax.
  destruct (trial_run_returns presented comparison w)
    as (fuel & w' & Hrun & _).
  exists fuel. unfold trial. rewrite Hrun. cbn [bind].
  destruct validation.
  - destruct (validation_outcome presented comparison (agent w') (ball w')).
    by eexists _, _.
  - unfold fitness_outcome. rewrite py_div_ok by done. cbn [bind].
    by eexists _, _.
Qed.

End TrialTermination.
(** ** Trial sweep *)

Lemma for_loop_inv_ok {S : Type} (P : nat -> S -> Prop)
    (body : nat -> S -> Res S) (n lo : nat) (s s' : S) :
  P lo s ->
  (forall i t t', (lo <= i < lo + n)%nat -> P i t -> body i t = Ok t' ->
     P (Datatypes.S i) t') ->
  for_loop lo n body s = Ok s' ->
  P (lo + n)%nat s'.
Proof.
  revert lo s. induction n as [|n IH]; intros lo s H0 Hstep Hrun; simpl in Hrun.
  - injection Hrun as <-. by rewrite Nat.add_0_r.
  - apply bind_ok in Hrun as (t & Ht & Hrun).
    replace (lo + Datatypes.S n)%nat with (Datatypes.S lo + n)%nat by lia.
    apply (IH (Datatypes.S lo) t); [| |done].
    + apply (Hstep lo s t); [lia|done..].
    + intros i u u' Hi. apply Hstep. lia.
Qed.

Lemma mset_inv (m m' : Matrix) (i j : nat) (v : Q) :
  mset m i j v = Ok m' ->
  (i < shape0 m)%nat /\ (j < shape1 m)%nat
  /\ shape0 m' = shape0 m /\ shape1 m' = shape1 m
  /\ cell m' i j = v
  /\ forall a b, (a, b) <> (i, j) -> cell m' a b = cell m a b.
Proof.
  unfold mset, in_shape. intros H.
  destruct (Nat.ltb_spec i (shape0 m)); [|discriminate].
  destruct (Nat.ltb_spec j (shape1 m)); [|discriminate].
  injection H as <-. cbn [shape0 shape1 cell].
  rewrite !Nat.eqb_refl. repeat split; try done.
  intros a b Hne.
  destruct (Nat.eqb_spec a i) as [->|]; [|done].
  destruct (Nat.eqb_spec b j) as [->|]; [|done].
  by destruct Hne.
Qed.

Lemma mset_ok (m : Matrix) (i j : nat) (v : Q) :
  (i < shape0 m)%nat -> (j < shape1 m)%nat ->
  exists m', mset m i j v = Ok m'.
Proof.
  intros Hi Hj. unfold mset, in_shape.
  apply Nat.ltb_lt in Hi, Hj. rewrite Hi, Hj. eauto.
Qed.

Section SweepProperties.
Context {Agent Ball Ctrl : Type}.
Context `{SA : SensorAgent Agent Ball Ctrl} `{CI : Circle Ball}.

Variable fuel : nat.
Variable cfg : Config.

(** Cell [(a, b)] holds the value of a continuous-mode trial with the
    diameters of grid indices [a] and [b]. *)
Let trial_cell (m : Matrix) (a b : nat) : Prop :=
  exists w0 w1 : World Agent Ball,
    trial fuel cfg (grid_diameter cfg a) (grid_diameter cfg b)
      false false w0
    = Ok (FitnessValue (cell m a b), w1).

Let visited (n i j a b : nat) : Prop :=
  (a < n)%nat /\ (b < n)%nat /\ (a < i \/ (a = i /\ b < j))%nat.

Let sweep_inv (n i j : nat) (st : Matrix * World Agent Ball) : Prop :=
  shape0 (fst st) = n /\ shape1 (fst st) = n
  /\ (forall a b, visited n i j a b -> a <> b -> trial_cell (fst st) a b)
  /\ (forall a b, a = b \/ ~ visited n i j a b -> cell (fst st) a b = 0).

Lemma build_result_matrix_inv (w w' : World Agent Ball) (m : Matrix) :
  build_result_matrix fuel cfg w = Ok (m, w') ->
  exists d n,
    py_div (circle_max_diameter cfg) (circle_difference cfg) = Ok d
    /\ (0 <= py_int d)%Z
    /\ n = Z.to_nat (py_int d)
    /\ shape0 m = n /\ shape1 m = n
    /\ (forall a b, (a < n)%nat -> (b < n)%nat -> a <> b ->
          trial_cell m a b)
    /\ (forall a, cell m a a = 0).
Proof.
  unfold build_result_matrix. intros H.
  apply bind_ok in H as (d & Hd & H). rewrite Hd in H. cbn [bind] in H.
  apply bind_ok in H as (rm & Hrm & H).
  unfold np_zeros2 in Hrm. rewrite orb_diag in Hrm.
  destruct (Z.ltb_spec (py_int d) 0) as [|Hpos]; [discriminate|].
  injection Hrm as <-. cbn [shape0 shape1] in H.
  set (n := Z.to_nat (py_int d)) in *.
  exists d, n. do 3 (split; [done|]).
  unfold for_range in H. rewrite Nat.sub_0_r in H.
  apply (for_loop_inv_ok (fun i st => sweep_inv n i 0 st)) in H.
  - destruct H as (Hs0 & Hs1 & Hv & Hz). cbn [fst] in *.
    do 2 (split; [done|]). split.
    + intros a b Ha Hb Hne. apply Hv; [|done]. unfold visited. lia.
    + intros a. apply Hz. by left.
  - split; [done|]. split; [done|]. split; [|done].
    intros a b (_ & _ & [? | [_ ?]]); lia.
  - intros i st st' Hi Hinv Hrow.
    apply (for_loop_inv_ok (fun j st => sweep_inv n i j st)) in Hrow.
    + destruct Hrow as (Hs0 & Hs1 & Hv & Hz).
      unfold sweep_inv.
      split; [done|]. split; [done|]. split.
      * intros a b (Ha & Hb & Hab). apply Hv. unfold visited. lia.
      * intros a b [->|Hnv]; apply Hz; [by left|].
        right. intros (Ha & Hb & Hab). apply Hnv. unfold visited. lia.
    + done.
    + clear Hinv. intros j [m0 w0] t Hj (Hs0 & Hs1 & Hv & Hz) Hbody.
      cbn [fst] in *.
      destruct (Nat.eqb_spec i j) as [->|Hne]; cbn [negb] in Hbody.
      * injection Hbody as <-. unfold sweep_inv; cbn [fst].
        split; [done|]. split; [done|]. split.
        -- intros a b (Ha & Hb & Hab) Hneq. apply Hv; [|done].
           unfold visited. lia.
        -- intros a b [->|Hnv]; apply Hz; [by left|].
           right. intros (Ha & Hb & Hab). apply Hnv. unfold visited. lia.
      * apply bind_ok in Hbody as ([r w1] & Htrial & Hbody).
        cbn [fst snd] in Hbody.
        destruct r as [v|? ?]; [|discriminate].
        apply bind_ok in Hbody as (m1 & Hset & Hbody).
        injection Hbody as <-. cbn [fst].
        apply mset_inv in Hset as (Hi0 & Hj0 & Hs0' & Hs1' & Hij & Hother).
        unfold sweep_inv; cbn [fst].
        split; [congruence|]. split; [congruence|]. split.
        -- intros a b (Ha & Hb & Hab) Hneq.
           destruct (decide ((a, b) = (i, j))) as [[= -> ->]|Hd'].
           ++ exists w0, w1. by rewrite Hij.
           ++ destruct (Hv a b) as (u0 & u1 & Hu); [|done|].
              { unfold visited. split; [done|]. split; [done|].
                destruct Hab as [?|[-> ?]]; [by left|].
                right. split; [done|].
                assert (b <> j) by congruence. lia. }
              exists u0, u1. by rewrite Hother.
        -- intros a b Hcase.
           rewrite Hother.
           ++ apply Hz. destruct Hcase as [->|Hnv]; [by left|].
              right. intros (Ha & Hb & Hab). apply Hnv. unfold visited. lia.
           ++ intros [= -> ->]. destruct Hcase as [?|Hnv]; [done|].
              apply Hnv. unfold visited. lia.
Qed.

End SweepProperties.

(** C2 (the code at the default configuration): the matrix [run_trials]
    builds is 10 x 10, from [int(circle_max_diameter / circle_difference)],
    whereas [floor((circle_max_diameter - circle_min_diameter) /
    circle_difference)] is 6; row 9 holds trials of a ball of diameter 65,
    beyond [circle_max_diameter = 50].  Each off-diagonal cell holds the
    continuous-mode trial of its two grid diameters and the diagonal stays
    at zero. *)
Theorem run_trials_default_grid {Agent Ball Ctrl : Type}
    `{SA : SensorAgent Agent Ball Ctrl} `{CI : Circle Ball}
    (fuel : nat) (w w' : World Agent Ball) (m : Matrix) :
  build_result_matrix fuel parameter_defaults w = Ok (m, w') ->
  shape0 m = 10%nat /\ shape1 m = 10%nat
  /\ Qfloor ((circle_max_diameter parameter_defaults
              - circle_min_diameter parameter_defaults)
             / circle_difference parameter_defaults) = 6%Z
  /\ (exists w0 w1 : World Agent Ball,
        trial fuel parameter_defaults (grid_diameter parameter_defaults 9)
          (grid_diameter parameter_defaults 0) false false w0
        = Ok (FitnessValue (cell m 9 0), w1))
  /\ (forall a, cell m a a = 0)
  /\ grid_diameter parameter_defaults 9 == 65
  /\ circle_max_diameter parameter_defaults
     < grid_diameter parameter_defaults 9.
Proof.
  intros H.
  apply build_result_matrix_inv in H
    as (d & n & Hd & Hpos & -> & Hs0 & Hs1 & Hcells & Hdiag).
  vm_compute in Hd. injection Hd as <-.
  change (Z.to_nat (py_int (50 # 5))) with 10%nat in *.
  repeat split; try done.
  apply Hcells; lia.
Qed.

Lemma run_trials_default_grid_witness :
  exists (m : Matrix) (w' : World ToyAgent ToyBall),
    build_result_matrix 20 parameter_defaults toy_world = Ok (m, w')
    /\ shape0 m = 10%nat /\ shape1 m = 10%nat.
Proof.
  destruct (build_result_matrix 20 parameter_defaults toy_world)
    as [[m w']|e] eqn:Hrun; [|vm_compute in Hrun; discriminate Hrun].
  exists m, w'. split; [reflexivity|].
  destruct (run_trials_default_grid 20 toy_world w' m Hrun) as (H0 & H1 & _).
  by split.
Defined.

(** ** Reading and writing arrays *)

Lemma vget_lookup (l : list Q) (i : nat) (v : Q) :
  l !! i = Some v -> vget l i = Ok v.
Proof. intros H. unfold vget. by rewrite H. Qed.

Lemma vget_lt (l : list Q) (i : nat) :
  (i < length l)%nat -> exists v, l !! i = Some v /\ vget l i = Ok v.
Proof.
  intros H. destruct (lookup_lt_is_Some_2 l i H) as [v Hv].
  exists v. split; [done|]. by apply vget_lookup.
Qed.

Lemma vset_lt (l : list Q) (i : nat) (v : Q) :
  (i < length l)%nat -> vset l i v = Ok (<[i := v]> l).
Proof. intros H. unfold vset. by rewrite decide_True. Qed.

Lemma mset_spec (m : Matrix) (i j : nat) (v : Q) :
  (i < shape0 m)%nat -> (j < shape1 m)%nat ->
  exists m', mset m i j v = Ok m'
    /\ shape0 m' = shape0 m /\ shape1 m' = shape1 m
    /\ cell m' i j = v
    /\ forall a b, (a, b) <> (i, j) -> cell m' a b = cell m a b.
Proof.
  intros Hi Hj. destruct (mset_ok m i j v Hi Hj) as [m' Hm'].
  exists m'. split; [done|].
  apply mset_inv in Hm' as (_ & _ & H0 & H1 & H2 & H3). by repeat split.
Qed.

(** ** The inner loop of the symmetric placement *)

Section PairLoop.
Variable src : list Q.
Variables r1 r2 : nat.
Variables c1 c2 : nat -> nat.
Variable n : nat.
Variable m : Matrix.
Variable ic : nat.

Hypothesis Hsrc : (ic + n <= length src)%nat.
Hypothesis Hr1 : (r1 < shape0 m)%nat.
Hypothesis Hr2 : (r2 < shape0 m)%nat.
Hypothesis Hc1 : forall j, (j < n)%nat -> (c1 j < shape1 m)%nat.
Hypothesis Hc2 : forall j, (j < n)%nat -> (c2 j < shape1 m)%nat.
Hypothesis Hinj1 : forall j j', (j < n)%nat -> (j' < n)%nat ->
  c1 j = c1 j' -> j = j'.
Hypothesis Hinj2 : forall j j', (j < n)%nat -> (j' < n)%nat ->
  c2 j = c2 j' -> j = j'.
Hypothesis Hcross : forall j j', (j < n)%nat -> (j' < n)%nat ->
  r1 = r2 -> c1 j = c2 j' -> j = j'.

Let pair_inv (j : nat) (st : Matrix * nat) : Prop :=
  snd st = (ic + j)%nat
  /\ shape0 (fst st) = shape0 m /\ shape1 (fst st) = shape1 m
  /\ (forall j' v, (j' < j)%nat -> src !! (ic + j')%nat = Some v ->
        cell (fst st) r1 (c1 j') = v /\ cell (fst st) r2 (c2 j') = v)
  /\ (forall a b,
        (forall j', (j' < j)%nat ->
           (a, b) <> (r1, c1 j') /\ (a, b) <> (r2, c2 j')) ->
        cell (fst st) a b = cell m a b).

Lemma pair_loop_spec :
  exists m',
    for_range 0 n (pair_body src r1 r2 c1 c2) (m, ic) = Ok (m', (ic + n)%nat)
    /\ shape0 m' = shape0 m /\ shape1 m' = shape1 m
    /\ (forall j v, (j < n)%nat -> src !! (ic + j)%nat = Some v ->
          cell m' r1 (c1 j) = v /\ cell m' r2 (c2 j) = v)
    /\ (forall a b,
          (forall j, (j < n)%nat ->
             (a, b) <> (r1, c1 j) /\ (a, b) <> (r2, c2 j)) ->
          cell m' a b = cell m a b).
Proof.
  destruct (for_range_inv pair_inv (pair_body src r1 r2 c1 c2) 0 n (m, ic))
    as ([m' ic'] & Hrun & Hic & Hs0 & Hs1 & Hval & Hframe).
  - lia.
  - unfold pair_inv; cbn [fst snd].
    split; [lia|]. do 2 (split; [done|]). split; [|done].
    intros j' v Hj'. lia.
  - intros j [mj icj] Hj (Hic & Hs0 & Hs1 & Hval & Hframe).
    cbn [fst snd] in *. subst icj. unfold pair_body.
    destruct (vget_lt src (ic + j)) as (v & Hv & ->); [lia|]. cbn [bind].
    destruct (mset_spec mj r1 (c1 j) v)
      as (ma & -> & Ha0 & Ha1 & Haw & Hao); [lia | rewrite Hs1; apply Hc1; lia |].
    cbn [bind].
    destruct (mset_spec ma r2 (c2 j) v)
      as (mb & -> & Hb0 & Hb1 & Hbw & Hbo);
      [lia | rewrite Ha1, Hs1; apply Hc2; lia |].
    cbn [bind]. eexists. split; [reflexivity|].
    unfold pair_inv; cbn [fst snd].
    split; [lia|]. split; [congruence|]. split; [congruence|]. split.
    + intros j' v' Hj' Hv'.
      destruct (decide (j' = j)) as [->|Hne].
      * assert (v' = v) as -> by congruence. split; [|done].
        destruct (decide ((r1, c1 j) = (r2, c2 j))) as [Heq|Hneq].
        -- injection Heq as -> ->. done.
        -- by rewrite Hbo.
      * destruct (Hval j' v') as [Hv1 Hv2]; [lia|done|].
        split.
        -- rewrite Hbo, Hao; [done| |].
           ++ intros [= Heq]. apply Hne. apply Hinj1; [lia..|done].
           ++ intros [= Hrr Heq]. apply Hne. apply Hcross; [lia..|done|done].
        -- rewrite Hbo, Hao; [done| |].
           ++ intros [= Hrr Heq]. apply Hne. symmetry.
              apply Hcross; [lia..|done|done].
           ++ intros [= Heq]. apply Hne. apply Hinj2; [lia..|done].
    + intros a b Hab.
      destruct (Hab j) as [Hab1 Hab2]; [lia|].
      rewrite Hbo, Hao; [|done..].
      apply Hframe. intros j' Hj'. apply Hab. lia.
  - cbn [fst snd] in *. subst ic'. exists m'.
    split; [done|]. do 2 (split; [done|]). split.
    + intros j v Hj Hv. by apply Hval.
    + done.
Qed.

End PairLoop.

(** ** The row loop of the symmetric placement: row [i] and its mirror
    [N - i - 1], for [i] below [h <= N / 2] *)

Section MirrorRows.
Variable src : list Q.
Variables N h n : nat.
Variables c1 c2 : nat -> nat.
Variable m : Matrix.
Variable ic : nat.

Hypothesis Hh : (h * 2 <= N)%nat.
Hypothesis HN : (N <= shape0 m)%nat.
Hypothesis Hsrc : (ic + h * n <= length src)%nat.
Hypothesis Hc1 : forall j, (j < n)%nat -> (c1 j < shape1 m)%nat.
Hypothesis Hc2 : forall j, (j < n)%nat -> (c2 j < shape1 m)%nat.
Hypothesis Hinj1 : forall j j', (j < n)%nat -> (j' < n)%nat ->
  c1 j = c1 j' -> j = j'.
Hypothesis Hinj2 : forall j j', (j < n)%nat -> (j' < n)%nat ->
  c2 j = c2 j' -> j = j'.

Let rows_inv (i : nat) (st : Matrix * nat) : Prop :=
  snd st = (ic + i * n)%nat
  /\ shape0 (fst st) = shape0 m /\ shape1 (fst st) = shape1 m
  /\ (forall i' j v, (i' < i)%nat -> (j < n)%nat ->
        src !! (ic + i' * n + j)%nat = Some v ->
        cell (fst st) i' (c1 j) = v
        /\ cell (fst st) (N - i' - 1) (c2 j) = v)
  /\ (forall a b,
        (forall i' j, (i' < i)%nat -> (j < n)%nat ->
           (a, b) <> (i', c1 j) /\ (a, b) <> ((N - i' - 1)%nat, c2 j)) ->
        cell (fst st) a b = cell m a b).

Lemma mirror_rows_spec :
  exists m',
    for_range 0 h
      (fun i st => for_range 0 n (pair_body src i (N - i - 1) c1 c2) st)
      (m, ic)
    = Ok (m', (ic + h * n)%nat)
    /\ shape0 m' = shape0 m /\ shape1 m' = shape1 m
    /\ (forall i j v, (i < h)%nat -> (j < n)%nat ->
          src !! (ic + i * n + j)%nat = Some v ->
          cell m' i (c1 j) = v /\ cell m' (N - i - 1) (c2 j) = v)
    /\ (forall a b,
          (forall i j, (i < h)%nat -> (j < n)%nat ->
             (a, b) <> (i, c1 j) /\ (a, b) <> ((N - i - 1)%nat, c2 j)) ->
          cell m' a b = cell m a b).
Proof.
  destruct (for_range_inv rows_inv
              (fun i st =>
                 for_range 0 n (pair_body src i (N - i - 1) c1 c2) st)
              0 h (m, ic))
    as ([m' ic'] & Hrun & Hic & Hs0 & Hs1 & Hval & Hframe).
  - lia.
  - unfold rows_inv; cbn [fst snd].
    split; [lia|]. do 2 (split; [done|]). split; [|done].
    intros i' j v Hi'. lia.
  - intros i [mi ici] Hi (Hic & Hs0 & Hs1 & Hval & Hframe).
    cbn [fst snd] in *. subst ici.
    assert (i * n + n <= h * n)%nat as Hin by nia.
    destruct (pair_loop_spec src i (N - i - 1) c1 c2 n mi (ic + i * n))
      as (mr & -> & Hr0 & Hr1 & Hrv & Hrf).
    + lia.
    + lia.
    + lia.
    + intros j Hj. rewrite Hs1. by apply Hc1.
    + intros j Hj. rewrite Hs1. by apply Hc2.
    + done.
    + done.
    + intros j j' _ _ Heq. lia.
    + eexists. split; [reflexivity|].
      unfold rows_inv; cbn [fst snd].
      split; [lia|]. split; [congruence|]. split; [congruence|]. split.
      * intros i' j v Hi' Hj Hv.
        destruct (decide (i' = i)) as [->|Hne].
        -- by apply Hrv.
        -- destruct (Hval i' j v) as [Hv1 Hv2]; [lia|done|done|].
           split.
           ++ rewrite Hrf; [done|].
              intros j' Hj'. split; intros [= ? ?]; lia.
           ++ rewrite Hrf; [done|].
              intros j' Hj'. split; intros [= ? ?]; lia.
      * intros a b Hab. rewrite Hrf.
        -- apply Hframe. intros i' j Hi' Hj. apply Hab; lia.
        -- intros j Hj. apply Hab; lia.
  - cbn [fst snd] in *. subst ic'. exists m'.
    split; [done|]. do 2 (split; [done|]). split; [|done].
    intros i j v Hi Hj Hv. by apply Hval.
Qed.

End MirrorRows.

(** ** The loops of the plain placement *)

Section GridLoop.
Variable src : list Q.
Variables N n : nat.
Variable c : nat -> nat.
Variable f : nat -> nat -> nat.
Variable m : Matrix.

Hypothesis HN : (N <= shape0 m)%nat.
Hypothesis Hc : forall j, (j < n)%nat -> (c j < shape1 m)%nat.
Hypothesis Hinj : forall j j', (j < n)%nat -> (j' < n)%nat ->
  c j = c j' -> j = j'.
Hypothesis Hf : forall i j, (i < N)%nat -> (j < n)%nat ->
  (f i j < length src)%nat.

Let written (i j a b : nat) : Prop :=
  (a < i)%nat \/ (a = i /\ b < j)%nat.

Let grid_inv (i j : nat) (mi : Matrix) : Prop :=
  shape0 mi = shape0 m /\ shape1 mi = shape1 m
  /\ (forall a b v, written i j a b -> (a < N)%nat -> (b < n)%nat ->
        src !! f a b = Some v -> cell mi a (c b) = v)
  /\ (forall a b,
        (forall a' b', (a' < N)%nat -> (b' < n)%nat ->
           (a, b) <> (a', c b')) ->
        cell mi a b = cell m a b).

Lemma grid_loop_spec :
  exists m',
    for_range 0 N
      (fun i mi => for_range 0 n (single_body src i c (f i)) mi) m
    = Ok m'
    /\ shape0 m' = shape0 m /\ shape1 m' = shape1 m
    /\ (forall i j v, (i < N)%nat -> (j < n)%nat ->
          src !! f i j = Some v -> cell m' i (c j) = v)
    /\ (forall a b,
          (forall i j, (i < N)%nat -> (j < n)%nat -> (a, b) <> (i, c j)) ->
          cell m' a b = cell m a b).
Proof.
  destruct (for_range_inv (fun i mi => grid_inv i 0 mi)
              (fun i mi => for_range 0 n (single_body src i c (f i)) mi)
              0 N m)
    as (m' & Hrun & Hs0 & Hs1 & Hval & Hframe).
  - lia.
  - unfold grid_inv, written. do 2 (split; [done|]). split; [|done].
    intros a b v [?|[_ ?]]; lia.
  - intros i mi Hi Hinv.
    destruct (for_range_inv (fun j mj => grid_inv i j mj)
                (single_body src i c (f i)) 0 n mi)
      as (mr & -> & Hr0 & Hr1 & Hrv & Hrf); [lia|done| |].
    + clear Hinv. intros j mj Hj (Hs0 & Hs1 & Hval & Hframe).
      unfold single_body.
      destruct (vget_lt src (f i j)) as (v & Hv & ->); [apply Hf; lia|].
      cbn [bind].
      destruct (mset_spec mj i (c j) v)
        as (ma & -> & Ha0 & Ha1 & Haw & Hao);
        [lia | rewrite Hs1; apply Hc; lia |].
      eexists. split; [reflexivity|]. unfold grid_inv, written.
      split; [congruence|]. split; [congruence|]. split.
      * intros a b v' Hw Ha Hb Hv'.
        destruct (decide ((a, b) = (i, j))) as [[= -> ->]|Hne].
        -- congruence.
        -- rewrite Hao.
           ++ apply Hval; [|done..]. unfold written.
              destruct Hw as [?|[-> ?]]; [by left|]. right. split; [done|].
              assert (b <> j) by congruence. lia.
           ++ intros [= -> Hcb]. apply Hne. f_equal.
              apply Hinj; [lia..|done].
      * intros a b Hab. rewrite Hao; [|apply Hab; lia].
        by apply Hframe.
    + eexists. split; [reflexivity|]. unfold grid_inv, written.
      do 2 (split; [done|]). split; [|done].
      intros a b v Hw Ha Hb Hv. apply Hrv; [|done..].
      unfold written. destruct Hw as [Hw|[_ Hw]]; [|lia].
      destruct (decide (a = i)) as [->|]; [right|left]; lia.
  - exists m'. split; [done|]. do 2 (split; [done|]). split; [|done].
    intros i j v Hi Hj Hv. apply (Hval i j v); [|done..].
    unfold written. left. lia.
Qed.

End GridLoop.

(** ** Symmetric placement of the sensor weights *)

(** Two index pairs differ: by arithmetic on their components. *)
Ltac pair_ne :=
  let H := fresh in
  intros H; apply pair_equal_spec in H; destruct H; lia.

Lemma half_le (k : nat) : (k / 2 * 2 <= k)%nat.
Proof. pose proof (Nat.div_mod_eq k 2). lia. Qed.

Lemma odd_half (k : nat) : (k mod 2 = 1)%nat -> (k = k / 2 * 2 + 1)%nat.
Proof. pose proof (Nat.div_mod_eq k 2). lia. Qed.

Lemma even_half (k : nat) : (k mod 2 <> 1)%nat -> (k = k / 2 * 2)%nat.
Proof.
  pose proof (Nat.div_mod_eq k 2). pose proof (Nat.mod_upper_bound k 2). lia.
Qed.

Lemma ceil_half_odd (k : nat) :
  (k mod 2 = 1)%nat -> (ceil_half k = k / 2 + 1)%nat.
Proof.
  intros H. unfold ceil_half. pose proof (odd_half k H) as Hk.
  rewrite Hk at 1.
  replace (k / 2 * 2 + 1 + 1)%nat with ((k / 2 + 1) * 2)%nat by lia.
  by rewrite Nat.div_mul.
Qed.

Lemma ceil_half_even (k : nat) :
  (k mod 2 <> 1)%nat -> (ceil_half k = k / 2)%nat.
Proof.
  intros H. unfold ceil_half. pose proof (even_half k H) as Hk.
  rewrite Hk at 1.
  rewrite Nat.add_comm, Nat.div_add by lia. cbn. lia.
Qed.

Lemma ceil_half_bounds (k : nat) :
  (k <= ceil_half k * 2 <= k + 1)%nat.
Proof.
  destruct (decide (k mod 2 = 1)%nat) as [H|H].
  - rewrite (ceil_half_odd k H). pose proof (odd_half k H). lia.
  - rewrite (ceil_half_even k H). pose proof (even_half k H). lia.
Qed.

Lemma sym_place_sensor_unfold (cfg : Config) (src : list Q) (m : Matrix) :
  let R := num_rays cfg in
  let I := num_interneurons cfg in
  sym_place_sensor cfg src m
  = (st <- for_range 0 (R / 2) (fun i st =>
             for_range 0 I
               (pair_body src i (R - i - 1)
                  (fun j => j) (fun j => (I - j - 1)%nat)) st)
           (m, 0%nat) ;;
     if (R mod 2 =? 1)%nat then
       for_range 0 (ceil_half I)
         (pair_body src (R / 2) (R / 2)
            (fun j => j) (fun j => (I - j - 1)%nat)) st
     else Ok st).
Proof. reflexivity. Qed.

Section SymSensor.
Variable cfg : Config.
Variable src : list Q.
Variable m : Matrix.

Let R := num_rays cfg.
Let I := num_interneurons cfg.

Hypothesis HR : (R <= shape0 m)%nat.
Hypothesis HI : (I <= shape1 m)%nat.
Hypothesis Hsrc : (sym_sensor_count R I <= length src)%nat.

Lemma sym_place_sensor_spec :
  exists m',
    sym_place_sensor cfg src m = Ok (m', sym_sensor_count R I)
    /\ shape0 m' = shape0 m /\ shape1 m' = shape1 m
    /\ (forall a b v, (a < R / 2)%nat -> (b < I)%nat ->
          src !! (a * I + b)%nat = Some v ->
          cell m' a b = v /\ cell m' (R - a - 1) (I - b - 1) = v)
    /\ ((R mod 2 = 1)%nat ->
        forall b v, (b < ceil_half I)%nat ->
          src !! (R / 2 * I + b)%nat = Some v ->
          cell m' (R / 2) b = v /\ cell m' (R / 2) (I - b - 1) = v)
    /\ (forall a b, ~ ((a < R)%nat /\ (b < I)%nat) ->
          cell m' a b = cell m a b).
Proof.
  rewrite sym_place_sensor_unfold. cbv zeta. fold R I.
  pose proof (half_le R) as HhR.
  pose proof (ceil_half_bounds I) as HcI.
  unfold sym_sensor_count in *.
  destruct (mirror_rows_spec src R (R / 2) I
              (fun j => j) (fun j => (I - j - 1)%nat) m 0)
    as (m1 & -> & H10 & H11 & H1v & H1f);
    [ lia | lia | lia | intros; lia | intros; lia
    | intros; lia | intros; lia | ].
  cbn [bind]. rewrite Nat.add_0_l.
  destruct (Nat.eqb_spec (R mod 2) 1) as [Hodd|Heven].
  - pose proof (odd_half R Hodd) as HRo.
    destruct (pair_loop_spec src (R / 2) (R / 2)
                (fun j => j) (fun j => (I - j - 1)%nat)
                (ceil_half I) m1 (R / 2 * I))
      as (m2 & -> & H20 & H21 & H2v & H2f);
      [ lia | lia | lia | intros; lia | intros; lia
      | intros; lia | intros; lia | intros; lia | ].
    exists m2. split; [done|]. split; [congruence|]. split; [congruence|].
    split; [|split].
    + intros a b v Ha Hb Hv.
      destruct (H1v a b v Ha Hb Hv) as [Hv1 Hv2].
      split; (rewrite H2f; [done|]); intros j Hj; split; pair_ne.
    + intros _ b v Hb Hv. by apply H2v.
    + intros a b Hab. rewrite H2f.
      * apply H1f. intros i j Hi Hj. split; pair_ne.
      * intros j Hj. split; pair_ne.
  - exists m1. rewrite Nat.add_0_r.
    split; [done|]. do 2 (split; [done|]). split; [|split].
    + intros a b v Ha Hb Hv. by apply H1v.
    + intros Hodd. contradiction.
    + intros a b Hab. apply H1f.
      intros i j Hi Hj. split; pair_ne.
Qed.

End SymSensor.

(** ** Symmetric placement of the circuit weights *)

Lemma sym_place_circuit_unfold (cfg : Config) (src : list Q) (m : Matrix) :
  let I := num_interneurons cfg in
  sym_place_circuit cfg src m
  = (st <- for_range 0 (I / 2) (fun i st =>
             for_range 0 I
               (pair_body src i (I - i - 1)
                  (fun j => j) (fun j => (I - j - 1)%nat)) st)
           (m, 0%nat) ;;
     st <- (if (I mod 2 =? 1)%nat then
              for_range 0 (ceil_half I)
                (pair_body src (I / 2) (I / 2)
                   (fun j => j) (fun j => (I - j - 1)%nat)) st
            else Ok st) ;;
     st <- for_range 0 (I / 2) (fun i st =>
             for_range 0 2
               (pair_body src i (I - i - 1)
                  (fun j => (I + j)%nat)
                  (fun j => (circuit_size cfg - j - 1)%nat)) st)
           st ;;
     if (I mod 2 =? 1)%nat then
       for_range 0 1
         (pair_body src (I / 2) (I / 2)
            (fun j => (I + j)%nat)
            (fun j => (circuit_size cfg - j - 1)%nat)) st
     else Ok st).
Proof. reflexivity. Qed.

(** Side conditions of the loop lemmas and frame conditions. *)
Ltac loop_side := first [ lia | intros; lia ].
Ltac off_row := let j := fresh "j" in let Hj := fresh "Hj" in
  intros j Hj; split; pair_ne.
Ltac off_rows := let i := fresh "i" in let j := fresh "j" in
  let Hi := fresh "Hi" in let Hj := fresh "Hj" in
  intros i j Hi Hj; split; pair_ne.

Section SymCircuit.
Variable cfg : Config.
Variable src : list Q.
Variable m : Matrix.

Let I := num_interneurons cfg.
Let cs := circuit_size cfg.

Hypothesis HI : (I <= shape0 m)%nat.
Hypothesis Hcs : (cs <= shape1 m)%nat.
Hypothesis Hsrc : (sym_circuit_count I <= length src)%nat.

Lemma sym_place_circuit_spec :
  exists m',
    sym_place_circuit cfg src m = Ok (m', sym_circuit_count I)
    /\ shape0 m' = shape0 m /\ shape1 m' = shape1 m
    /\ (forall a b v, (a < I / 2)%nat -> (b < I)%nat ->
          src !! (a * I + b)%nat = Some v ->
          cell m' a b = v /\ cell m' (I - a - 1) (I - b - 1) = v)
    /\ ((I mod 2 = 1)%nat ->
        forall b v, (b < ceil_half I)%nat ->
          src !! (I / 2 * I + b)%nat = Some v ->
          cell m' (I / 2) b = v /\ cell m' (I / 2) (I - b - 1) = v)
    /\ (forall a k v, (a < I / 2)%nat -> (k < 2)%nat ->
          src !! (sym_block_count I + a * 2 + k)%nat = Some v ->
          cell m' a (I + k) = v /\ cell m' (I - a - 1) (cs - k - 1) = v)
    /\ ((I mod 2 = 1)%nat ->
        forall v, src !! (sym_block_count I + I / 2 * 2)%nat = Some v ->
          cell m' (I / 2) I = v /\ cell m' (I / 2) (cs - 1) = v)
    /\ (forall a b, ~ ((a < I)%nat /\ (b < cs)%nat) ->
          cell m' a b = cell m a b).
Proof.
  rewrite sym_place_circuit_unfold. cbv zeta. fold I cs.
  pose proof (half_le I) as HhI.
  pose proof (ceil_half_bounds I) as HcI.
  assert (cs = I + 2)%nat as Hcsd by reflexivity.
  unfold sym_circuit_count, sym_block_count in *.
  destruct (mirror_rows_spec src I (I / 2) I
              (fun j => j) (fun j => (I - j - 1)%nat) m 0)
    as (m1 & -> & H10 & H11 & H1v & H1f); [loop_side..|].
  cbn [bind]. rewrite Nat.add_0_l.
  destruct (Nat.eqb_spec (I mod 2) 1) as [Hodd|Heven].
  - pose proof (odd_half I Hodd) as HIo.
    destruct (pair_loop_spec src (I / 2) (I / 2)
                (fun j => j) (fun j => (I - j - 1)%nat)
                (ceil_half I) m1 (I / 2 * I))
      as (m2 & -> & H20 & H21 & H2v & H2f); [loop_side..|].
    cbn [bind].
    destruct (mirror_rows_spec src I (I / 2) 2
                (fun j => (I + j)%nat) (fun j => (cs - j - 1)%nat)
                m2 (I / 2 * I + ceil_half I))
      as (m3 & -> & H30 & H31 & H3v & H3f); [loop_side..|].
    cbn [bind].
    destruct (pair_loop_spec src (I / 2) (I / 2)
                (fun j => (I + j)%nat) (fun j => (cs - j - 1)%nat)
                1 m3 (I / 2 * I + ceil_half I + I / 2 * 2))
      as (m4 & -> & H40 & H41 & H4v & H4f); [loop_side..|].
    exists m4. split; [done|]. split; [congruence|]. split; [congruence|].
    split; [|split; [|split; [|split]]].
    + intros a b v Ha Hb Hv.
      destruct (H1v a b v Ha Hb Hv) as [Hv1 Hv2].
      split; (rewrite H4f, H3f, H2f; [done|off_row|off_rows|off_row]).
    + intros _ b v Hb Hv.
      destruct (H2v b v Hb Hv) as [Hv1 Hv2].
      split; (rewrite H4f, H3f; [done|off_rows|off_row]).
    + intros a k v Ha Hk Hv.
      destruct (H3v a k v Ha Hk Hv) as [Hv1 Hv2].
      split; (rewrite H4f; [done|off_row]).
    + intros _ v Hv.
      destruct (H4v 0%nat v) as [Hv1 Hv2]; [lia|by rewrite Nat.add_0_r|].
      rewrite Nat.add_0_r, Nat.sub_0_r in *. done.
    + intros a b Hab.
      rewrite H4f, H3f, H2f, H1f; [done|off_rows|off_row|off_rows|off_row].
  - pose proof (even_half I Heven) as HIe. cbn [bind].
    rewrite Nat.add_0_r.
    destruct (mirror_rows_spec src I (I / 2) 2
                (fun j => (I + j)%nat) (fun j => (cs - j - 1)%nat)
                m1 (I / 2 * I))
      as (m3 & -> & H30 & H31 & H3v & H3f); [loop_side..|].
    cbn [bind]. rewrite !Nat.add_0_r in *.
    exists m3. split; [done|]. split; [congruence|]. split; [congruence|].
    split; [|split; [|split; [|split]]].
    + intros a b v Ha Hb Hv.
      destruct (H1v a b v Ha Hb Hv) as [Hv1 Hv2].
      split; (rewrite H3f; [done|off_rows]).
    + intros Hodd. contradiction.
    + intros a k v Ha Hk Hv. by apply H3v.
    + intros Hodd. contradiction.
    + intros a b Hab. rewrite H3f, H1f; [done|off_rows..].
Qed.

End SymCircuit.

(** ** Symmetric placement of the biases and of the time constants *)

Section SymVector.
Variable cfg : Config.
Variable pars : list Q.

Let I := num_interneurons cfg.
Let cs := circuit_size cfg.

Hypothesis Hlen : (ceil_half I + 1 <= length pars)%nat.

Let vec_inv (i : nat) (arr : list Q) : Prop :=
  length arr = cs
  /\ forall i', (i' < i)%nat ->
       arr !! i' = pars !! i' /\ arr !! (I - i' - 1)%nat = pars !! i'.

Lemma sym_place_vector_spec :
  exists arr,
    sym_place_vector cfg pars = Ok arr
    /\ length arr = cs
    /\ (forall i, (i < ceil_half I)%nat ->
          arr !! i = pars !! i /\ arr !! (I - i - 1)%nat = pars !! i)
    /\ arr !! (cs - 2)%nat = pars !! (length pars - 1)%nat
    /\ arr !! (cs - 1)%nat = pars !! (length pars - 1)%nat.
Proof.
  unfold sym_place_vector. fold I cs.
  pose proof (ceil_half_bounds I) as HcI.
  assert (cs = I + 2)%nat as Hcsd by reflexivity.
  edestruct (for_range_inv vec_inv) as (arr & -> & Harr & Hval).
  - lia.
  - split; [apply length_replicate | intros i' Hi'; lia].
  - intros i arr Hi [Harr Hval].
    destruct (vget_lt pars i) as (v & Hv & ->); [lia|]. cbn [bind].
    rewrite vset_lt by lia. cbn [bind].
    rewrite vset_lt by (rewrite length_insert; lia).
    eexists. split; [reflexivity|]. split.
    + by rewrite !length_insert.
    + intros i' Hi'.
      destruct (decide (i' = i)) as [->|Hne].
      * rewrite Hv. split.
        -- destruct (decide (i = I - i - 1)%nat) as [Heq|Hneq].
           ++ rewrite <- Heq. apply list_lookup_insert_eq.
              rewrite length_insert. lia.
           ++ rewrite list_lookup_insert_ne by lia.
              apply list_lookup_insert_eq. lia.
        -- apply list_lookup_insert_eq. rewrite length_insert. lia.
      * destruct (Hval i') as [H1 H2]; [lia|].
        rewrite !list_lookup_insert_ne by lia. done.
  - cbn [bind].
    unfold vget_back, vset_back.
    rewrite decide_True by lia.
    destruct (vget_lt pars (length pars - 1)) as (v & Hv & ->); [lia|].
    cbn [bind].
    rewrite decide_True by lia. rewrite vset_lt by lia. cbn [bind].
    rewrite decide_True by (rewrite length_insert; lia).
    rewrite vset_lt by (rewrite length_insert; lia).
    rewrite !length_insert, Harr, Hv.
    eexists. split; [reflexivity|]. split; [by rewrite !length_insert|].
    split; [|split].
    + intros i Hi. destruct (Hval i Hi) as [H1 H2].
      rewrite !list_lookup_insert_ne by lia. done.
    + rewrite list_lookup_insert_ne by lia.
      apply list_lookup_insert_eq. lia.
    + apply list_lookup_insert_eq. rewrite length_insert. lia.
Qed.

End SymVector.

(** ** Decoding a segment of the genome *)

Lemma slice_length (x : list Q) (a b : nat) :
  (a <= b)%nat -> (b <= length x)%nat -> length (slice x a b) = (b - a)%nat.
Proof.
  intros Hab Hb. unfold slice. rewrite length_take, length_drop. lia.
Qed.

Lemma slice_lookup (x : list Q) (a b k : nat) :
  (k < b - a)%nat -> slice x a b !! k = x !! (a + k)%nat.
Proof.
  intros Hk. unfold slice. rewrite lookup_take_lt by lia. apply lookup_drop.
Qed.

Lemma drop_as_slice (x : list Q) (a : nat) : drop a x = slice x a (length x).
Proof.
  unfold slice. rewrite take_ge; [done|]. rewrite length_drop. lia.
Qed.

Section DecodeSegment.
Variable cfg : Config.
Hypothesis Hsearch : ~ max_search_value cfg == min_search_value cfg.

Lemma search_range_nonzero :
  ~ round64 (max_search_value cfg - min_search_value cfg) == 0.
Proof. rewrite round64_zero_iff. intros H. apply Hsearch. lra. Qed.

Lemma decode_segment_spec (x : list Q) (a b : nat) (lo hi : Q) :
  (a <= b)%nat -> (b <= length x)%nat ->
  exists l,
    decode_segment cfg (slice x a b) lo hi = Ok l
    /\ length l = (b - a)%nat
    /\ forall k, (k < b - a)%nat ->
         exists r, l !! k = Some r
                   /\ decoded_value cfg lo hi x (a + k) r.
Proof.
  intros Hab Hb.
  unfold decode_segment, rescale_parameter_array,
    periodic_boundary_conditions_array.
  rewrite py_div_ok by apply search_range_nonzero. cbn [bind].
  eexists. split; [reflexivity|]. split.
  - rewrite !length_fmap. by apply slice_length.
  - intros k Hk.
    destruct (lookup_lt_is_Some_2 x (a + k)) as [g Hg]; [lia|].
    rewrite !list_lookup_fmap, slice_lookup, Hg by done. cbn.
    eexists. split; [reflexivity|].
    exists g. split; [done|].
    unfold rescale_parameter.
    rewrite py_div_ok by apply search_range_nonzero. reflexivity.
Qed.

End DecodeSegment.

(** ** The parameter counts of the constructor *)

Section SymCounts.
Variable cfg : Config.
Hypothesis Hsym : bilateral_symmetry cfg = true.

Let R := num_rays cfg.
Let I := num_interneurons cfg.

Lemma num_sensor_weights_sym : num_sensor_weights cfg = sym_sensor_count R I.
Proof.
  unfold num_sensor_weights, sym_sensor_count. rewrite Hsym. fold R I.
  pose proof (Nat.mod_upper_bound R 2 ltac:(lia)) as Hm.
  destruct (Nat.eqb_spec (R mod 2) 0) as [H0|H0];
    destruct (Nat.eqb_spec (R mod 2) 1) as [H1|H1]; try lia.
  pose proof (odd_half R H1) as HR.
  replace ((R - 1) / 2)%nat with (R / 2)%nat; [done|].
  rewrite HR at 2.
  replace (R / 2 * 2 + 1 - 1)%nat with (R / 2 * 2)%nat by lia.
  by rewrite Nat.div_mul.
Qed.

Lemma num_circuit_weights_sym : num_circuit_weights cfg = sym_circuit_count I.
Proof.
  unfold num_circuit_weights, sym_circuit_count, sym_block_count,
    num_motor_weights, num_loops, num_cross_connections,
    num_side_connections.
  rewrite Hsym. fold I.
  destruct (Nat.eqb_spec (I mod 2) 1) as [H1|H1].
  - rewrite (ceil_half_odd I H1). pose proof (odd_half I H1) as HI.
    set (f := (I / 2)%nat) in *. rewrite HI. cbn [Nat.pow]. nia.
  - rewrite (ceil_half_even I H1). pose proof (even_half I H1) as HI.
    set (f := (I / 2)%nat) in *. rewrite HI. cbn [Nat.pow]. nia.
Qed.

Lemma ceil_half_circuit_size :
  ceil_half (circuit_size cfg) = (ceil_half I + 1)%nat.
Proof.
  unfold circuit_size, ceil_half. fold I.
  replace (I + 2 + 1)%nat with (1 * 2 + (I + 1))%nat by lia.
  rewrite Nat.div_add_l by lia. lia.
Qed.

Lemma num_parameters_sym :
  num_parameters cfg
  = (num_sensor_weights cfg + num_circuit_weights cfg
     + (ceil_half I + 1) + (ceil_half I + 1))%nat.
Proof. unfold num_parameters. rewrite Hsym. fold I. lia. Qed.

End SymCounts.

Lemma segment_decodes_intro (cfg : Config) (x : list Q) (a n : nat)
    (lo hi : Q) :
  ~ max_search_value cfg == min_search_value cfg ->
  (a + n <= length x)%nat ->
  exists seg, segment_decodes cfg x a n lo hi seg.
Proof.
  intros Hsearch Hlen.
  destruct (decode_segment_spec cfg Hsearch x a (a + n) lo hi)
    as (seg & Hseg & Hl & Hv); [lia..|].
  exists seg. unfold segment_decodes.
  replace (a + n - a)%nat with n in * by lia. done.
Qed.

(** ** Symmetric decoding, step by step *)

Section SymDecode.
Variable cfg : Config.
Variable x : list Q.
Variable ns : NervousSystem.

Let R := num_rays cfg.
Let I := num_interneurons cfg.
Let cs := circuit_size cfg.
Let n_s := num_sensor_weights cfg.
Let n_c := num_circuit_weights cfg.
Let n_v := (ceil_half I + 1)%nat.

Hypothesis Hsym : bilateral_symmetry cfg = true.
Hypothesis Hlen : length x = num_parameters cfg.
Hypothesis Hsearch : ~ max_search_value cfg == min_search_value cfg.
Hypothesis Hsw0 : (R <= shape0 (sensor_weights ns))%nat.
Hypothesis Hsw1 : (I <= shape1 (sensor_weights ns))%nat.
Hypothesis Hcw0 : (I <= shape0 (circuit_weights ns))%nat.
Hypothesis Hcw1 : (cs <= shape1 (circuit_weights ns))%nat.

Lemma sym_decode_spec :
  exists sp cp bp tp ns',
    segment_decodes cfg x 0 n_s (min_weight cfg) (max_weight cfg) sp
    /\ segment_decodes cfg x n_s n_c (min_weight cfg) (max_weight cfg) cp
    /\ segment_decodes cfg x (n_s + n_c) n_v
         (min_bias cfg) (max_bias cfg) bp
    /\ segment_decodes cfg x (n_s + n_c + n_v) n_v
         (min_tau cfg) (max_tau cfg) tp
    /\ sym_place_sensor cfg sp (sensor_weights ns)
       = Ok (sensor_weights ns', n_s)
    /\ sym_place_circuit cfg cp (circuit_weights ns)
       = Ok (circuit_weights ns', n_c)
    /\ sym_place_vector cfg bp = Ok (biases ns')
    /\ sym_place_vector cfg tp = Ok (time_constants ns')
    /\ map_search_parameters cfg x ns = Ok ns'.
Proof.
  pose proof (num_parameters_sym cfg Hsym) as Hnp.
  fold I n_s n_c n_v in Hnp. rewrite Hnp in Hlen.
  destruct (segment_decodes_intro cfg x 0 n_s (min_weight cfg)
              (max_weight cfg) Hsearch) as (sp & Hsp); [lia|].
  destruct (segment_decodes_intro cfg x n_s n_c (min_weight cfg)
              (max_weight cfg) Hsearch) as (cp & Hcp); [lia|].
  destruct (segment_decodes_intro cfg x (n_s + n_c) n_v (min_bias cfg)
              (max_bias cfg) Hsearch) as (bp & Hbp); [lia|].
  destruct (segment_decodes_intro cfg x (n_s + n_c + n_v) n_v (min_tau cfg)
              (max_tau cfg) Hsearch) as (tp & Htp); [lia|].
  destruct (sym_place_sensor_spec cfg sp (sensor_weights ns))
    as (sw' & Hsw' & _); [done|done| |].
  { destruct Hsp as (_ & -> & _). fold R I.
    unfold n_s. by rewrite (num_sensor_weights_sym cfg Hsym). }
  destruct (sym_place_circuit_spec cfg cp (circuit_weights ns))
    as (cw' & Hcw' & _); [done|done| |].
  { destruct Hcp as (_ & -> & _). fold I.
    unfold n_c. by rewrite (num_circuit_weights_sym cfg Hsym). }
  destruct (sym_place_vector_spec cfg bp) as (b' & Hb' & _).
  { destruct Hbp as (_ & -> & _). done. }
  destruct (sym_place_vector_spec cfg tp) as (t' & Ht' & _).
  { destruct Htp as (_ & -> & _). done. }
  rewrite <- (num_sensor_weights_sym cfg Hsym) in Hsw'.
  rewrite <- (num_circuit_weights_sym cfg Hsym) in Hcw'.
  fold n_s in Hsw'. fold n_c in Hcw'.
  exists sp, cp, bp, tp,
    {| sensor_weights := sw'; circuit_weights := cw';
       biases := b'; time_constants := t' |}.
  cbn [sensor_weights circuit_weights biases time_constants].
  do 8 (split; [done|]).
  unfold map_search_parameters. rewrite Hsym.
  unfold map_search_parameters_symmetric. cbv zeta.
  rewrite (ceil_half_circuit_size cfg). fold I n_s n_c n_v.
  destruct Hsp as (Hsp & _). destruct Hcp as (Hcp & _).
  destruct Hbp as (Hbp & _). destruct Htp as (Htp & _).
  rewrite Nat.add_0_l in Hsp. rewrite Hsp. cbn [bind].
  rewrite Hsw'. cbn [bind fst set_sensor_weights circuit_weights].
  rewrite Hcp. cbn [bind]. rewrite Hcw'. cbn [bind].
  rewrite Hbp. cbn [bind]. rewrite Hb'. cbn [bind].
  rewrite drop_as_slice.
  replace (length x) with (n_s + n_c + n_v + n_v)%nat by lia.
  rewrite Htp. cbn [bind]. rewrite Ht'. cbn [bind]. reflexivity.
Qed.

End SymDecode.

(** ** Where each free value of the symmetric encoding ends up *)

Section SymCells.
Variable cfg : Config.
Variable x : list Q.
Variable ns : NervousSystem.

Let R := num_rays cfg.
Let I := num_interneurons cfg.
Let cs := circuit_size cfg.
Let n_s := num_sensor_weights cfg.
Let n_c := num_circuit_weights cfg.
Let n_v := (ceil_half I + 1)%nat.

Hypothesis Hsym : bilateral_symmetry cfg = true.
Hypothesis Hlen : length x = num_parameters cfg.
Hypothesis Hsearch : ~ max_search_value cfg == min_search_value cfg.
Hypothesis Hsw0 : (R <= shape0 (sensor_weights ns))%nat.
Hypothesis Hsw1 : (I <= shape1 (sensor_weights ns))%nat.
Hypothesis Hcw0 : (I <= shape0 (circuit_weights ns))%nat.
Hypothesis Hcw1 : (cs <= shape1 (circuit_weights ns))%nat.

Lemma sym_decode_cells :
  exists sp cp bp tp ns',
    (segment_decodes cfg x 0 n_s (min_weight cfg) (max_weight cfg) sp
     /\ segment_decodes cfg x n_s n_c (min_weight cfg) (max_weight cfg) cp
     /\ segment_decodes cfg x (n_s + n_c) n_v
          (min_bias cfg) (max_bias cfg) bp
     /\ segment_decodes cfg x (n_s + n_c + n_v) n_v
          (min_tau cfg) (max_tau cfg) tp)
    /\ (sym_place_sensor cfg sp (sensor_weights ns)
        = Ok (sensor_weights ns', n_s)
        /\ sym_place_circuit cfg cp (circuit_weights ns)
           = Ok (circuit_weights ns', n_c)
        /\ sym_place_vector cfg bp = Ok (biases ns')
        /\ sym_place_vector cfg tp = Ok (time_constants ns')
        /\ map_search_parameters cfg x ns = Ok ns')
    /\ (shape0 (sensor_weights ns') = shape0 (sensor_weights ns)
        /\ shape1 (sensor_weights ns') = shape1 (sensor_weights ns)
        /\ shape0 (circuit_weights ns') = shape0 (circuit_weights ns)
        /\ shape1 (circuit_weights ns') = shape1 (circuit_weights ns)
        /\ length (biases ns') = cs
        /\ length (time_constants ns') = cs)
    /\ ((forall a b v, (a < R / 2)%nat -> (b < I)%nat ->
           sp !! (a * I + b)%nat = Some v ->
           cell (sensor_weights ns') a b = v
           /\ cell (sensor_weights ns') (R - a - 1) (I - b - 1) = v)
        /\ ((R mod 2 = 1)%nat ->
            forall b v, (b < ceil_half I)%nat ->
              sp !! (R / 2 * I + b)%nat = Some v ->
              cell (sensor_weights ns') (R / 2) b = v
              /\ cell (sensor_weights ns') (R / 2) (I - b - 1) = v))
    /\ ((forall a b v, (a < I / 2)%nat -> (b < I)%nat ->
           cp !! (a * I + b)%nat = Some v ->
           cell (circuit_weights ns') a b = v
           /\ cell (circuit_weights ns') (I - a - 1) (I - b - 1) = v)
        /\ ((I mod 2 = 1)%nat ->
            forall b v, (b < ceil_half I)%nat ->
              cp !! (I / 2 * I + b)%nat = Some v ->
              cell (circuit_weights ns') (I / 2) b = v
              /\ cell (circuit_weights ns') (I / 2) (I - b - 1) = v)
        /\ (forall a k v, (a < I / 2)%nat -> (k < 2)%nat ->
              cp !! (sym_block_count I + a * 2 + k)%nat = Some v ->
              cell (circuit_weights ns') a (I + k) = v
              /\ cell (circuit_weights ns') (I - a - 1) (cs - k - 1) = v)
        /\ ((I mod 2 = 1)%nat ->
            forall v,
              cp !! (sym_block_count I + I / 2 * 2)%nat = Some v ->
              cell (circuit_weights ns') (I / 2) I = v
              /\ cell (circuit_weights ns') (I / 2) (cs - 1) = v))
    /\ ((forall i, (i < ceil_half I)%nat ->
           biases ns' !! i = bp !! i
           /\ biases ns' !! (I - i - 1)%nat = bp !! i)
        /\ biases ns' !! (cs - 2)%nat = bp !! ceil_half I
        /\ biases ns' !! (cs - 1)%nat = bp !! ceil_half I)
    /\ ((forall i, (i < ceil_half I)%nat ->
           time_constants ns' !! i = tp !! i
           /\ time_constants ns' !! (I - i - 1)%nat = tp !! i)
        /\ time_constants ns' !! (cs - 2)%nat = tp !! ceil_half I
        /\ time_constants ns' !! (cs - 1)%nat = tp !! ceil_half I).
Proof.
  destruct (sym_decode_spec cfg x ns Hsym Hlen Hsearch Hsw0 Hsw1 Hcw0 Hcw1)
    as (sp & cp & bp & tp & ns' & Hsp & Hcp & Hbp & Htp
        & Hps & Hpc & Hpb & Hpt & Hrun).
  fold R I cs n_s n_c n_v in Hsp, Hcp, Hbp, Htp, Hps, Hpc.
  exists sp, cp, bp, tp, ns'.
  split; [done|]. split; [done|].
  destruct (sym_place_sensor_spec cfg sp (sensor_weights ns))
    as (sw' & Hsw' & Hs0 & Hs1 & HsA & HsB & _); [done|done| |].
  { destruct Hsp as (_ & -> & _). fold R I.
    unfold n_s. by rewrite (num_sensor_weights_sym cfg Hsym). }
  rewrite Hps in Hsw'. injection Hsw' as <- _.
  destruct (sym_place_circuit_spec cfg cp (circuit_weights ns))
    as (cw' & Hcw' & Hc0 & Hc1 & HcA & HcB & HcC & HcD & _); [done|done| |].
  { destruct Hcp as (_ & -> & _). fold I.
    unfold n_c. by rewrite (num_circuit_weights_sym cfg Hsym). }
  rewrite Hpc in Hcw'. injection Hcw' as <- _.
  destruct (sym_place_vector_spec cfg bp)
    as (b' & Hb' & Hbl & Hbv & Hbm2 & Hbm1).
  { destruct Hbp as (_ & -> & _). done. }
  rewrite Hpb in Hb'. injection Hb' as <-.
  destruct (sym_place_vector_spec cfg tp)
    as (t' & Ht' & Htl & Htv & Htm2 & Htm1).
  { destruct Htp as (_ & -> & _). done. }
  rewrite Hpt in Ht'. injection Ht' as <-.
  destruct Hbp as (_ & Hbpl & _). destruct Htp as (_ & Htpl & _).
  rewrite Hbpl in Hbm2, Hbm1. rewrite Htpl in Htm2, Htm1.
  replace (n_v - 1)%nat with (ceil_half I) in * by (unfold n_v; lia).
  fold R I cs in HsA, HsB, HcA, HcB, HcC, HcD, Hbl, Hbv, Hbm2, Hbm1,
    Htl, Htv, Htm2, Htm1.
  repeat match goal with |- _ /\ _ => split end; done.
Qed.

End SymCells.

(** ** Mirror identities of the symmetric decoding *)

Lemma mirror_cells (m : Matrix) (src : list Q) (N n : nat) :
  (forall a b v, (a < N / 2)%nat -> (b < n)%nat ->
     src !! (a * n + b)%nat = Some v ->
     cell m a b = v /\ cell m (N - a - 1) (n - b - 1) = v) ->
  ((N mod 2 = 1)%nat ->
   forall b v, (b < ceil_half n)%nat ->
     src !! (N / 2 * n + b)%nat = Some v ->
     cell m (N / 2) b = v /\ cell m (N / 2) (n - b - 1) = v) ->
  (N / 2 * n + (if (N mod 2 =? 1)%nat then ceil_half n else 0)
   <= length src)%nat ->
  forall i j, (i < N)%nat -> (j < n)%nat ->
    cell m i j = cell m (N - 1 - i) (n - 1 - j).
Proof.
  intros HA HB Hlen i j Hi Hj.
  pose proof (half_le N) as HhN.
  pose proof (ceil_half_bounds n) as Hcn.
  replace (N - 1 - i)%nat with (N - i - 1)%nat by lia.
  replace (n - 1 - j)%nat with (n - j - 1)%nat by lia.
  destruct (decide (i < N / 2)%nat) as [Hlo|Hnlo].
  - destruct (lookup_lt_is_Some_2 src (i * n + j)) as [v Hv]; [nia|].
    destruct (HA i j v Hlo Hj Hv) as [-> ->]. done.
  - destruct (decide (N - i - 1 < N / 2)%nat) as [Hhi|Hnhi].
    + destruct (lookup_lt_is_Some_2 src ((N - i - 1) * n + (n - j - 1)))
        as [v Hv]; [nia|].
      destruct (HA (N - i - 1)%nat (n - j - 1)%nat v Hhi ltac:(lia) Hv)
        as [H1 H2].
      replace (N - (N - i - 1) - 1)%nat with i in H2 by lia.
      replace (n - (n - j - 1) - 1)%nat with j in H2 by lia.
      congruence.
    + (* the middle row of an odd count *)
      destruct (Nat.eqb_spec (N mod 2) 1) as [Hodd|Heven];
        [|pose proof (even_half N Heven); lia].
      pose proof (odd_half N Hodd) as HN.
      assert (i = N / 2)%nat as -> by lia.
      replace (N - N / 2 - 1)%nat with (N / 2)%nat by lia.
      destruct (decide (j < ceil_half n)%nat) as [Hj1|Hj2].
      * destruct (lookup_lt_is_Some_2 src (N / 2 * n + j)) as [v Hv]; [lia|].
        destruct (HB Hodd j v Hj1 Hv) as [-> ->]. done.
      * destruct (lookup_lt_is_Some_2 src (N / 2 * n + (n - j - 1)))
          as [v Hv]; [lia|].
        destruct (HB Hodd (n - j - 1)%nat v ltac:(lia) Hv) as [H1 H2].
        replace (n - (n - j - 1) - 1)%nat with j in H2 by lia.
        congruence.
Qed.

Lemma mirror_vector (arr pars : list Q) (I : nat) :
  (ceil_half I <= length pars)%nat ->
  (forall i, (i < ceil_half I)%nat ->
     arr !! i = pars !! i /\ arr !! (I - i - 1)%nat = pars !! i) ->
  forall i, (i < I)%nat ->
    exists v, arr !! i = Some v /\ arr !! (I - 1 - i)%nat = Some v.
Proof.
  intros Hlen Hval i Hi.
  pose proof (ceil_half_bounds I) as HcI.
  replace (I - 1 - i)%nat with (I - i - 1)%nat by lia.
  destruct (decide (i < ceil_half I)%nat) as [Hlo|Hhi].
  - destruct (lookup_lt_is_Some_2 pars i) as [v Hv]; [lia|].
    destruct (Hval i Hlo) as [H1 H2]. exists v. split; congruence.
  - destruct (lookup_lt_is_Some_2 pars (I - i - 1)) as [v Hv]; [lia|].
    destruct (Hval (I - i - 1)%nat ltac:(lia)) as [H1 H2].
    replace (I - (I - i - 1) - 1)%nat with i in H2 by lia.
    exists v. split; congruence.
Qed.

(** C5: with bilateral symmetry, a genome of [num_parameters] entries
    decodes into parameters that are equal, without sign change, at
    mirrored places: sensor weights at [(i, j)] and [(R-1-i, I-1-j)];
    circuit weights at [(i, j)] and [(I-1-i, I-1-j)] inside the interneuron
    block and at [(i, I+k)] and [(I-1-i, circuit_size-1-k)] in the two
    motor columns; biases and time constants at [i] and [I-1-i]; both motor
    slots of the biases, and of the time constants, hold the one value
    decoded from the last genome entry of their segment. *)
Theorem symmetric_decoding_mirror (cfg : Config) (x : list Q)
    (ns : NervousSystem) :
  bilateral_symmetry cfg = true ->
  length x = num_parameters cfg ->
  ~ max_search_value cfg == min_search_value cfg ->
  (num_rays cfg <= shape0 (sensor_weights ns))%nat ->
  (num_interneurons cfg <= shape1 (sensor_weights ns))%nat ->
  (num_interneurons cfg <= shape0 (circuit_weights ns))%nat ->
  (circuit_size cfg <= shape1 (circuit_weights ns))%nat ->
  let R := num_rays cfg in
  let I := num_interneurons cfg in
  let cs := circuit_size cfg in
  let bias_start := (num_sensor_weights cfg + num_circuit_weights cfg)%nat in
  let tau_start := (bias_start + (ceil_half I + 1))%nat in
  exists ns',
    map_search_parameters cfg x ns = Ok ns'
    /\ (forall i j, (i < R)%nat -> (j < I)%nat ->
          exists v, mget (sensor_weights ns') i j = Ok v
                    /\ mget (sensor_weights ns') (R - 1 - i) (I - 1 - j) = Ok v)
    /\ (forall i j, (i < I)%nat -> (j < I)%nat ->
          exists v, mget (circuit_weights ns') i j = Ok v
                    /\ mget (circuit_weights ns') (I - 1 - i) (I - 1 - j)
                       = Ok v)
    /\ (forall i k, (i < I)%nat -> (k < 2)%nat ->
          exists v, mget (circuit_weights ns') i (I + k) = Ok v
                    /\ mget (circuit_weights ns') (I - 1 - i) (cs - 1 - k)
                       = Ok v)
    /\ (forall i, (i < I)%nat ->
          exists v, biases ns' !! i = Some v
                    /\ biases ns' !! (I - 1 - i)%nat = Some v)
    /\ (exists v,
          decoded_value cfg (min_bias cfg) (max_bias cfg) x
            (bias_start + ceil_half I) v
          /\ biases ns' !! (cs - 2)%nat = Some v
          /\ biases ns' !! (cs - 1)%nat = Some v)
    /\ (forall i, (i < I)%nat ->
          exists v, time_constants ns' !! i = Some v
                    /\ time_constants ns' !! (I - 1 - i)%nat = Some v)
    /\ (exists v,
          decoded_value cfg (min_tau cfg) (max_tau cfg) x
            (tau_start + ceil_half I) v
          /\ time_constants ns' !! (cs - 2)%nat = Some v
          /\ time_constants ns' !! (cs - 1)%nat = Some v).
Proof.
  intros Hsym Hlen Hsearch Hsw0 Hsw1 Hcw0 Hcw1 R I cs bias_start tau_start.
  destruct (sym_decode_cells cfg x ns Hsym Hlen Hsearch Hsw0 Hsw1 Hcw0 Hcw1)
    as (sp & cp & bp & tp & ns'
        & (Hsp & Hcp & Hbp & Htp) & (_ & _ & _ & _ & Hrun)
        & (Hs0 & Hs1 & Hc0 & Hc1 & Hbl & Htl)
        & (HsA & HsB) & (HcA & HcB & HcC & HcD)
        & (Hbv & Hbm2 & Hbm1) & (Htv & Htm2 & Htm1)).
  fold R I cs in HsA, HsB, HcA, HcB, HcC, HcD, Hbv, Hbm2, Hbm1,
    Htv, Htm2, Htm1, Hbl, Htl, Hsw0, Hsw1, Hcw0, Hcw1.
  pose proof (half_le I) as HhI.
  pose proof (ceil_half_bounds I) as HcI.
  assert (cs = I + 2)%nat as Hcsd by reflexivity.
  destruct Hsp as (_ & Hspl & _). destruct Hcp as (_ & Hcpl & _).
  rewrite (num_sensor_weights_sym cfg Hsym) in Hspl.
  rewrite (num_circuit_weights_sym cfg Hsym) in Hcpl.
  fold R I in Hspl, Hcpl.
  unfold sym_sensor_count in Hspl.
  unfold sym_circuit_count, sym_block_count in Hcpl.
  exists ns'. split; [done|].
  split; [|split; [|split; [|split; [|split; [|split]]]]].
  - intros i j Hi Hj. exists (cell (sensor_weights ns') i j).
    rewrite !mget_ok by lia. split; [done|]. f_equal. symmetry.
    apply (mirror_cells _ sp R I); [done|done|lia|done|done].
  - intros i j Hi Hj. exists (cell (circuit_weights ns') i j).
    rewrite !mget_ok by lia. split; [done|]. f_equal. symmetry.
    apply (mirror_cells _ cp I I); [done|done| |done|done].
    destruct (I mod 2 =? 1)%nat; lia.
  - intros i k Hi Hk. exists (cell (circuit_weights ns') i (I + k)).
    rewrite !mget_ok by lia. split; [done|]. f_equal.
    unfold sym_block_count in HcC, HcD.
    destruct (decide (i < I / 2)%nat) as [Hlo|Hnlo].
    + destruct (lookup_lt_is_Some_2 cp
                  (I / 2 * I + (if (I mod 2 =? 1)%nat then ceil_half I else 0)
                   + i * 2 + k)) as [v Hv];
        [destruct (I mod 2 =? 1)%nat; lia|].
      destruct (HcC i k v Hlo Hk Hv) as [H1 H2].
      replace (I - 1 - i)%nat with (I - i - 1)%nat by lia.
      replace (cs - 1 - k)%nat with (cs - k - 1)%nat by lia. congruence.
    + destruct (decide (I - i - 1 < I / 2)%nat) as [Hhi|Hnhi].
      * destruct (lookup_lt_is_Some_2 cp
                    (I / 2 * I
                     + (if (I mod 2 =? 1)%nat then ceil_half I else 0)
                     + (I - i - 1) * 2 + (1 - k))) as [v Hv];
          [destruct (I mod 2 =? 1)%nat; lia|].
        destruct (HcC (I - i - 1)%nat (1 - k)%nat v Hhi ltac:(lia) Hv)
          as [H1 H2].
        replace (I - (I - i - 1) - 1)%nat with i in H2 by lia.
        replace (cs - (1 - k) - 1)%nat with (I + k)%nat in H2 by lia.
        replace (I - 1 - i)%nat with (I - i - 1)%nat by lia.
        replace (cs - 1 - k)%nat with (I + (1 - k))%nat by lia. congruence.
      * destruct (Nat.eqb_spec (I mod 2) 1) as [Hodd|Heven];
          [|pose proof (even_half I Heven); lia].
        pose proof (odd_half I Hodd) as HIo.
        assert (i = I / 2)%nat as -> by lia.
        replace (I - 1 - I / 2)%nat with (I / 2)%nat by lia.
        destruct (lookup_lt_is_Some_2 cp
                    (I / 2 * I + ceil_half I + I / 2 * 2)) as [v Hv]; [lia|].
        destruct (HcD Hodd v Hv) as [H1 H2].
        assert (k = 0 \/ k = 1)%nat as [-> | ->] by lia.
        -- rewrite Nat.add_0_r, Nat.sub_0_r. congruence.
        -- replace (cs - 1 - 1)%nat with I by lia.
           replace (I + 1)%nat with (cs - 1)%nat by lia. congruence.
  - destruct Hbp as (_ & Hbpl & _). fold I in Hbpl.
    apply (mirror_vector _ bp I); [lia|done].
  - destruct Hbp as (_ & Hbpl & Hbpv). fold I in Hbpl, Hbpv.
    destruct (Hbpv (ceil_half I)) as (v & Hv & Hdec); [lia|].
    exists v. split; [done|]. split; congruence.
  - destruct Htp as (_ & Htpl & _). fold I in Htpl.
    apply (mirror_vector _ tp I); [lia|done].
  - destruct Htp as (_ & Htpl & Htpv). fold I in Htpl, Htpv.
    destruct (Htpv (ceil_half I)) as (v & Hv & Hdec); [lia|].
    exists v. split; [done|]. split; congruence.
Qed.

(** ** Every free value of the symmetric encoding is consumed *)

Lemma sensor_site_spec (m : Matrix) (src : list Q) (N n : nat) :
  (forall a b v, (a < N / 2)%nat -> (b < n)%nat ->
     src !! (a * n + b)%nat = Some v ->
     cell m a b = v /\ cell m (N - a - 1) (n - b - 1) = v) ->
  ((N mod 2 = 1)%nat ->
   forall b v, (b < ceil_half n)%nat ->
     src !! (N / 2 * n + b)%nat = Some v ->
     cell m (N / 2) b = v /\ cell m (N / 2) (n - b - 1) = v) ->
  length src = sym_sensor_count N n ->
  forall k, (k < length src)%nat ->
    (fst (sym_sensor_site N n k) < N)%nat
    /\ (snd (sym_sensor_site N n k) < n)%nat
    /\ src !! k
       = Some (cell m (fst (sym_sensor_site N n k))
                      (snd (sym_sensor_site N n k))).
Proof.
  intros HA HB Hlen k Hk.
  pose proof (half_le N) as HhN.
  pose proof (ceil_half_bounds n) as Hcn.
  destruct (lookup_lt_is_Some_2 src k Hk) as [v Hv].
  unfold sym_sensor_site, sym_sensor_count in *.
  destruct (Nat.ltb_spec k (N / 2 * n)) as [Hlo|Hhi]; cbn [fst snd].
  - assert (n <> 0)%nat as Hn0 by nia.
    pose proof (Nat.div_mod_eq k n) as Hdm.
    pose proof (Nat.mod_upper_bound k n Hn0) as Hmod.
    assert (k / n < N / 2)%nat as Hdiv
      by (apply Nat.Div0.div_lt_upper_bound; nia).
    destruct (HA (k / n)%nat (k mod n)%nat v Hdiv Hmod) as [H1 _].
    { rewrite <- Hv. f_equal. nia. }
    split; [lia|]. split; [done|]. by rewrite H1.
  - destruct (Nat.eqb_spec (N mod 2) 1) as [Hodd|Heven]; [|lia].
    pose proof (odd_half N Hodd) as HN.
    destruct (HB Hodd (k - N / 2 * n)%nat v) as [H1 _]; [lia| |].
    { rewrite <- Hv. f_equal. lia. }
    split; [lia|]. split; [lia|]. by rewrite H1.
Qed.

Lemma vector_site_spec (arr pars : list Q) (I : nat) :
  length pars = (ceil_half I + 1)%nat ->
  (forall i, (i < ceil_half I)%nat ->
     arr !! i = pars !! i /\ arr !! (I - i - 1)%nat = pars !! i) ->
  arr !! (I + 2 - 1)%nat = pars !! ceil_half I ->
  forall k, (k < length pars)%nat ->
    (sym_vector_site I k < I + 2)%nat
    /\ is_Some (pars !! k)
    /\ arr !! sym_vector_site I k = pars !! k.
Proof.
  intros Hlen Hval Hmotor k Hk.
  pose proof (ceil_half_bounds I) as HcI.
  unfold sym_vector_site.
  split; [|split].
  - destruct (Nat.ltb_spec k (ceil_half I)); lia.
  - by apply lookup_lt_is_Some_2.
  - destruct (Nat.ltb_spec k (ceil_half I)) as [Hlo|Hhi].
    + by destruct (Hval k Hlo).
    + assert (k = ceil_half I) as -> by lia.
      by replace (I + 1)%nat with (I + 2 - 1)%nat by lia.
Qed.

Section SymConsumption.
Variable cfg : Config.
Variable x : list Q.
Variable ns : NervousSystem.

Let R := num_rays cfg.
Let I := num_interneurons cfg.
Let cs := circuit_size cfg.
Let n_s := num_sensor_weights cfg.
Let n_c := num_circuit_weights cfg.
Let n_v := (ceil_half I + 1)%nat.

Hypothesis Hsym : bilateral_symmetry cfg = true.
Hypothesis Hlen : length x = num_parameters cfg.
Hypothesis Hsearch : ~ max_search_value cfg == min_search_value cfg.
Hypothesis Hsw0 : (R <= shape0 (sensor_weights ns))%nat.
Hypothesis Hsw1 : (I <= shape1 (sensor_weights ns))%nat.
Hypothesis Hcw0 : (I <= shape0 (circuit_weights ns))%nat.
Hypothesis Hcw1 : (cs <= shape1 (circuit_weights ns))%nat.

Lemma sym_decode_consumes_all :
  exists sp cp bp tp ns',
    (segment_decodes cfg x 0 n_s (min_weight cfg) (max_weight cfg) sp
     /\ segment_decodes cfg x n_s n_c (min_weight cfg) (max_weight cfg) cp
     /\ segment_decodes cfg x (n_s + n_c) n_v
          (min_bias cfg) (max_bias cfg) bp
     /\ segment_decodes cfg x (n_s + n_c + n_v) n_v
          (min_tau cfg) (max_tau cfg) tp
     /\ (n_s + n_c + n_v + n_v = length x)%nat)
    /\ (sym_place_sensor cfg sp (sensor_weights ns)
        = Ok (sensor_weights ns', n_s)
        /\ sym_place_circuit cfg cp (circuit_weights ns)
           = Ok (circuit_weights ns', n_c)
        /\ sym_place_vector cfg bp = Ok (biases ns')
        /\ sym_place_vector cfg tp = Ok (time_constants ns')
        /\ map_search_parameters cfg x ns = Ok ns')
    /\ (forall k, (k < n_s)%nat ->
          (fst (sym_sensor_site R I k) < R)%nat
          /\ (snd (sym_sensor_site R I k) < I)%nat
          /\ sp !! k
             = Some (cell (sensor_weights ns')
                       (fst (sym_sensor_site R I k))
                       (snd (sym_sensor_site R I k))))
    /\ (forall k, (k < n_c)%nat ->
          (fst (sym_circuit_site I k) < I)%nat
          /\ (snd (sym_circuit_site I k) < cs)%nat
          /\ cp !! k
             = Some (cell (circuit_weights ns')
                       (fst (sym_circuit_site I k))
                       (snd (sym_circuit_site I k))))
    /\ (forall k, (k < n_v)%nat ->
          (sym_vector_site I k < cs)%nat
          /\ is_Some (bp !! k)
          /\ biases ns' !! sym_vector_site I k = bp !! k)
    /\ (forall k, (k < n_v)%nat ->
          (sym_vector_site I k < cs)%nat
          /\ is_Some (tp !! k)
          /\ time_constants ns' !! sym_vector_site I k = tp !! k).
Proof.
  destruct (sym_decode_cells cfg x ns Hsym Hlen Hsearch Hsw0 Hsw1 Hcw0 Hcw1)
    as (sp & cp & bp & tp & ns'
        & (Hsp & Hcp & Hbp & Htp) & Hplace
        & (Hs0 & Hs1 & Hc0 & Hc1 & Hbl & Htl)
        & (HsA & HsB) & (HcA & HcB & HcC & HcD)
        & (Hbv & Hbm2 & Hbm1) & (Htv & Htm2 & Htm1)).
  fold R I cs n_s n_c n_v in Hsp, Hcp, Hbp, Htp, Hplace,
    HsA, HsB, HcA, HcB, HcC, HcD, Hbv, Hbm2, Hbm1, Htv, Htm2, Htm1.
  pose proof (half_le I) as HhI.
  pose proof (ceil_half_bounds I) as HcI.
  assert (cs = I + 2)%nat as Hcsd by reflexivity.
  pose proof (num_parameters_sym cfg Hsym) as Hnp.
  fold I n_s n_c n_v in Hnp.
  pose proof (num_sensor_weights_sym cfg Hsym) as Hns. fold R I n_s in Hns.
  pose proof (num_circuit_weights_sym cfg Hsym) as Hnc. fold I n_c in Hnc.
  exists sp, cp, bp, tp, ns'.
  split; [repeat match goal with |- _ /\ _ => split end; try done; lia|].
  split; [done|].
  destruct Hsp as (_ & Hspl & _). destruct Hcp as (_ & Hcpl & _).
  destruct Hbp as (_ & Hbpl & _). destruct Htp as (_ & Htpl & _).
  split; [|split; [|split]].
  - intros k Hk.
    apply (sensor_site_spec _ sp R I); [done|done|lia|lia].
  - intros k Hk. unfold sym_circuit_site.
    unfold sym_circuit_count in Hnc.
    destruct (Nat.ltb_spec k (sym_block_count I)) as [Hlo|Hhi].
    + destruct (lookup_lt_is_Some_2 cp k) as [v Hv]; [lia|].
      destruct (sensor_site_spec (circuit_weights ns')
                  (take (sym_block_count I) cp) I I) with (k := k)
        as (H1 & H2 & H3).
      * intros a b v' Ha Hb Hv'. apply HcA; [done..|].
        apply lookup_take_Some in Hv'. by destruct Hv'.
      * intros Hodd b v' Hb Hv'. apply HcB; [done..|].
        apply lookup_take_Some in Hv'. by destruct Hv'.
      * rewrite length_take.
        unfold sym_sensor_count, sym_block_count in *. lia.
      * rewrite length_take. lia.
      * split; [done|]. split; [lia|].
        rewrite <- H3. by rewrite lookup_take_lt.
    + set (k' := (k - sym_block_count I)%nat).
      destruct (lookup_lt_is_Some_2 cp k) as [v Hv]; [lia|].
      destruct (Nat.ltb_spec k' (I / 2 * 2)) as [Hm|Hc]; cbn [fst snd].
      * pose proof (Nat.div_mod_eq k' 2) as Hdm.
        pose proof (Nat.mod_upper_bound k' 2 ltac:(lia)) as Hmod.
        assert (k' / 2 < I / 2)%nat as Hdiv
          by (apply Nat.Div0.div_lt_upper_bound; lia).
        destruct (HcC (k' / 2)%nat (k' mod 2)%nat v Hdiv Hmod) as [H1 _].
        { rewrite <- Hv. f_equal. unfold k' in *. lia. }
        split; [lia|]. split; [lia|]. by rewrite H1.
      * destruct (Nat.eqb_spec (I mod 2) 1) as [Hodd|Heven];
          [|unfold k' in *; lia].
        pose proof (odd_half I Hodd) as HIo.
        destruct (HcD Hodd v) as [H1 _].
        { rewrite <- Hv. f_equal. unfold k' in *. lia. }
        split; [lia|]. split; [lia|]. by rewrite H1.
  - intros k Hk. rewrite Hcsd.
    apply (vector_site_spec _ bp I); [done|done| |lia].
    by replace (I + 2 - 1)%nat with (cs - 1)%nat by lia.
  - intros k Hk. rewrite Hcsd.
    apply (vector_site_spec _ tp I); [done|done| |lia].
    by replace (I + 2 - 1)%nat with (cs - 1)%nat by lia.
Qed.

End SymConsumption.

(** C3: with bilateral symmetry, for 1 to 6 interneurons and 3 to 9 rays,
    the counts derived by the constructor are exactly what
    [map_search_parameters] consumes from a genome of [num_parameters]
    entries.  The four slices have the derived lengths and add up to the
    genome; every read stays inside its slice (the placement returns
    normally); [index_counter] ends at [num_sensor_weights] after the sensor
    loops and at [num_circuit_weights] (motor + loops + cross + side
    connections) after the circuit loops; and every entry of every slice
    ends up in a cell of the array it belongs to. *)
Theorem symmetric_counts_match_consumption (cfg : Config) (x : list Q)
    (ns : NervousSystem) :
  bilateral_symmetry cfg = true ->
  (1 <= num_interneurons cfg <= 6)%nat ->
  (3 <= num_rays cfg <= 9)%nat ->
  length x = num_parameters cfg ->
  ~ max_search_value cfg == min_search_value cfg ->
  (num_rays cfg <= shape0 (sensor_weights ns))%nat ->
  (num_interneurons cfg <= shape1 (sensor_weights ns))%nat ->
  (num_interneurons cfg <= shape0 (circuit_weights ns))%nat ->
  (circuit_size cfg <= shape1 (circuit_weights ns))%nat ->
  let R := num_rays cfg in
  let I := num_interneurons cfg in
  let cs := circuit_size cfg in
  let n_s := num_sensor_weights cfg in
  let n_c := num_circuit_weights cfg in
  let n_v := (ceil_half I + 1)%nat in
  n_c = (num_motor_weights cfg + num_loops cfg
         + num_cross_connections cfg + num_side_connections cfg)%nat
  /\ exists sp cp bp tp ns',
      (segment_decodes cfg x 0 n_s (min_weight cfg) (max_weight cfg) sp
       /\ segment_decodes cfg x n_s n_c (min_weight cfg) (max_weight cfg) cp
       /\ segment_decodes cfg x (n_s + n_c) n_v
            (min_bias cfg) (max_bias cfg) bp
       /\ segment_decodes cfg x (n_s + n_c + n_v) n_v
            (min_tau cfg) (max_tau cfg) tp
       /\ (n_s + n_c + n_v + n_v = length x)%nat)
      /\ (sym_place_sensor cfg sp (sensor_weights ns)
          = Ok (sensor_weights ns', n_s)
          /\ sym_place_circuit cfg cp (circuit_weights ns)
             = Ok (circuit_weights ns', n_c)
          /\ sym_place_vector cfg bp = Ok (biases ns')
          /\ sym_place_vector cfg tp = Ok (time_constants ns')
          /\ map_search_parameters cfg x ns = Ok ns')
      /\ (forall k, (k < n_s)%nat ->
            (fst (sym_sensor_site R I k) < R)%nat
            /\ (snd (sym_sensor_site R I k) < I)%nat
            /\ sp !! k
               = Some (cell (sensor_weights ns')
                         (fst (sym_sensor_site R I k))
                         (snd (sym_sensor_site R I k))))
      /\ (forall k, (k < n_c)%nat ->
            (fst (sym_circuit_site I k) < I)%nat
            /\ (snd (sym_circuit_site I k) < cs)%nat
            /\ cp !! k
               = Some (cell (circuit_weights ns')
                         (fst (sym_circuit_site I k))
                         (snd (sym_circuit_site I k))))
      /\ (forall k, (k < n_v)%nat ->
            (sym_vector_site I k < cs)%nat
            /\ is_Some (bp !! k)
            /\ biases ns' !! sym_vector_site I k = bp !! k)
      /\ (forall k, (k < n_v)%nat ->
            (sym_vector_site I k < cs)%nat
            /\ is_Some (tp !! k)
            /\ time_constants ns' !! sym_vector_site I k = tp !! k).
Proof.
  intros Hsym _ _ Hlen Hsearch Hsw0 Hsw1 Hcw0 Hcw1. cbv zeta. split.
  - unfold num_circuit_weights. by rewrite Hsym.
  - exact (sym_decode_consumes_all cfg x ns Hsym Hlen Hsearch
             Hsw0 Hsw1 Hcw0 Hcw1).
Qed.

Lemma symmetric_counts_match_consumption_witness :
  num_circuit_weights symmetric_defaults = 8%nat
  /\ exists ns',
       map_search_parameters symmetric_defaults (ramp_genome 25)
         (blank_nervous_system symmetric_defaults) = Ok ns'.
Proof.
  destruct (symmetric_counts_match_consumption symmetric_defaults
              (ramp_genome 25) (blank_nervous_system symmetric_defaults))
    as (Hc & sp & cp & bp & tp & ns' & _ & (_ & _ & _ & _ & Hrun) & _);
    [ reflexivity | vm_compute; lia | vm_compute; lia | reflexivity
    | intros H; discriminate H | vm_compute; lia | vm_compute; lia
    | vm_compute; lia | vm_compute; lia | ].
  split; [reflexivity|]. by exists ns'.
Defined.

Lemma symmetric_decoding_mirror_witness :
  exists ns',
    map_search_parameters symmetric_defaults (ramp_genome 25)
      (blank_nervous_system symmetric_defaults) = Ok ns'
    /\ (exists v, mget (sensor_weights ns') 1 0 = Ok v
                  /\ mget (sensor_weights ns') 5 2 = Ok v).
Proof.
  destruct (symmetric_decoding_mirror symmetric_defaults
              (ramp_genome 25) (blank_nervous_system symmetric_defaults))
    as (ns' & Hrun & Hs & _);
    [ reflexivity | reflexivity | intros H; discriminate H
    | vm_compute; lia | vm_compute; lia | vm_compute; lia | vm_compute; lia | ].
  exists ns'. split; [done|].
  apply (Hs 1%nat 0%nat); vm_compute; lia.
Defined.

(** ** Decoding without symmetry *)

Lemma asym_place_sensor_unfold (cfg : Config) (src : list Q) (m : Matrix) :
  let I := num_interneurons cfg in
  asym_place_sensor cfg src m
  = for_range 0 (num_rays cfg) (fun i mi =>
      for_range 0 I
        (single_body src i (fun j => j) (fun j => (I * i + j)%nat)) mi) m.
Proof. reflexivity. Qed.

Lemma asym_place_circuit_unfold (cfg : Config) (src : list Q) (m : Matrix) :
  let I := num_interneurons cfg in
  asym_place_circuit cfg src m
  = (m <- for_range 0 I (fun i mi =>
            for_range 0 I
              (single_body src i (fun j => j) (fun j => (I * i + j)%nat)) mi)
          m ;;
     for_range 0 I (fun i mi =>
       for_range 0 2
         (single_body src i (fun j => (I + j)%nat)
            (fun j => (I * I + 2 * i + j)%nat)) mi) m).
Proof. reflexivity. Qed.

Section AsymPlacement.
Variable cfg : Config.
Variable src : list Q.
Variable m : Matrix.

Let R := num_rays cfg.
Let I := num_interneurons cfg.
Let cs := circuit_size cfg.

Lemma asym_place_sensor_spec :
  (R <= shape0 m)%nat -> (I <= shape1 m)%nat ->
  (I * R <= length src)%nat ->
  exists m',
    asym_place_sensor cfg src m = Ok m'
    /\ shape0 m' = shape0 m /\ shape1 m' = shape1 m
    /\ forall i j v, (i < R)%nat -> (j < I)%nat ->
         src !! (I * i + j)%nat = Some v -> cell m' i j = v.
Proof.
  intros HR HI Hsrc. rewrite asym_place_sensor_unfold. cbv zeta. fold R I.
  destruct (grid_loop_spec src R I (fun j => j)
              (fun i j => (I * i + j)%nat) m)
    as (m' & -> & H0 & H1 & Hv & _);
    [ lia | intros; lia | intros; lia | intros; nia | ].
  exists m'. by repeat match goal with |- _ /\ _ => split end.
Qed.

Lemma asym_place_circuit_spec :
  (I <= shape0 m)%nat -> (cs <= shape1 m)%nat ->
  (I * (I + 2) <= length src)%nat ->
  exists m',
    asym_place_circuit cfg src m = Ok m'
    /\ shape0 m' = shape0 m /\ shape1 m' = shape1 m
    /\ (forall i j v, (i < I)%nat -> (j < I)%nat ->
          src !! (I * i + j)%nat = Some v -> cell m' i j = v)
    /\ (forall i k v, (i < I)%nat -> (k < 2)%nat ->
          src !! (I * I + 2 * i + k)%nat = Some v ->
          cell m' i (I + k) = v)
    /\ (forall a b, ~ (a < I)%nat -> cell m' a b = cell m a b).
Proof.
  intros HI Hcs Hsrc. rewrite asym_place_circuit_unfold. cbv zeta. fold I.
  assert (cs = I + 2)%nat as Hcsd by reflexivity.
  destruct (grid_loop_spec src I I (fun j => j)
              (fun i j => (I * i + j)%nat) m)
    as (m1 & -> & H10 & H11 & H1v & H1f);
    [ lia | intros; lia | intros; lia | intros; nia | ].
  cbn [bind].
  destruct (grid_loop_spec src I 2 (fun j => (I + j)%nat)
              (fun i j => (I * I + 2 * i + j)%nat) m1)
    as (m2 & -> & H20 & H21 & H2v & H2f);
    [ lia | intros; lia | intros; lia | intros; nia | ].
  exists m2. split; [done|]. split; [congruence|]. split; [congruence|].
  split; [|split].
  - intros i j v Hi Hj Hv. rewrite H2f.
    + by apply H1v.
    + intros a b Ha Hb. pair_ne.
  - intros i k v Hi Hk Hv. by apply H2v.
  - intros a b Ha. rewrite H2f, H1f; [done| |].
    + intros i j Hi Hj. pair_ne.
    + intros i j Hi Hj. pair_ne.
Qed.

End AsymPlacement.

(** C4 (as stated, refuted): at the default configuration (3 interneurons,
    circuit size 5) the circuit weight at row 1, column 0 is not the entry
    of the circuit segment at the row-major position [5 * 1 + 0] of an
    interneuron x circuit_size array; it is the entry at [3 * 1 + 0]. *)
Lemma asymmetric_circuit_not_row_major :
  exists ns' v r r',
    map_search_parameters parameter_defaults (ramp_genome 46)
      (blank_nervous_system parameter_defaults) = Ok ns'
    /\ mget (circuit_weights ns') 1 0 = Ok v
    /\ decoded_value parameter_defaults (- (16)) 16 (ramp_genome 46)
         (21 + (5 * 1 + 0)) r
    /\ ~ v == r
    /\ decoded_value parameter_defaults (- (16)) 16 (ramp_genome 46)
         (21 + (3 * 1 + 0)) r'
    /\ v == r'.
Proof.
  eexists. eexists. eexists. eexists.
  split; [vm_compute; reflexivity|].
  split; [vm_compute; reflexivity|].
  split; [eexists; split; [vm_compute; reflexivity|]; vm_compute; reflexivity|].
  split; [vm_compute; intros H; discriminate H|].
  split; [eexists; split; [vm_compute; reflexivity|]; vm_compute; reflexivity|].
  vm_compute. reflexivity.
Qed.

(** C4 (amended): without symmetry, a genome of [num_parameters] entries
    decodes so that every entry read back is the wrapped and rescaled genome
    entry of its place: sensor weights row-major over ray x interneuron;
    circuit weights in two blocks, first the interneuron x interneuron
    block row-major, then the two motor columns row-major over
    interneuron x 2; then the biases and the time constants in index
    order. *)
Theorem asymmetric_decoding_round_trip (cfg : Config) (x : list Q)
    (ns : NervousSystem) :
  bilateral_symmetry cfg = false ->
  length x = num_parameters cfg ->
  ~ max_search_value cfg == min_search_value cfg ->
  (num_rays cfg <= shape0 (sensor_weights ns))%nat ->
  (num_interneurons cfg <= shape1 (sensor_weights ns))%nat ->
  (num_interneurons cfg <= shape0 (circuit_weights ns))%nat ->
  (circuit_size cfg <= shape1 (circuit_weights ns))%nat ->
  let R := num_rays cfg in
  let I := num_interneurons cfg in
  let cs := circuit_size cfg in
  let n_s := num_sensor_weights cfg in
  let n_c := num_circuit_weights cfg in
  exists ns',
    map_search_parameters cfg x ns = Ok ns'
    /\ (forall i j, (i < R)%nat -> (j < I)%nat ->
          exists v,
            decoded_value cfg (min_weight cfg) (max_weight cfg) x
              (I * i + j) v
            /\ mget (sensor_weights ns') i j = Ok v)
    /\ (forall i j, (i < I)%nat -> (j < I)%nat ->
          exists v,
            decoded_value cfg (min_weight cfg) (max_weight cfg) x
              (n_s + (I * i + j)) v
            /\ mget (circuit_weights ns') i j = Ok v)
    /\ (forall i k, (i < I)%nat -> (k < 2)%nat ->
          exists v,
            decoded_value cfg (min_weight cfg) (max_weight cfg) x
              (n_s + (I * I + 2 * i + k)) v
            /\ mget (circuit_weights ns') i (I + k) = Ok v)
    /\ length (biases ns') = cs
    /\ (forall i, (i < cs)%nat ->
          exists v,
            decoded_value cfg (min_bias cfg) (max_bias cfg) x
              (n_s + n_c + i) v
            /\ biases ns' !! i = Some v)
    /\ length (time_constants ns') = cs
    /\ (forall i, (i < cs)%nat ->
          exists v,
            decoded_value cfg (min_tau cfg) (max_tau cfg) x
              (n_s + n_c + cs + i) v
            /\ time_constants ns' !! i = Some v).
Proof.
  intros Hasym Hlen Hsearch Hsw0 Hsw1 Hcw0 Hcw1 R I cs n_s n_c.
  assert (n_s = I * R)%nat as Hns
    by (unfold n_s, num_sensor_weights; by rewrite Hasym).
  assert (n_c = I * (I + 2))%nat as Hnc
    by (unfold n_c, num_circuit_weights; by rewrite Hasym).
  assert (cs = I + 2)%nat as Hcsd by reflexivity.
  assert (length x = n_s + n_c + cs + cs)%nat as Hlen'.
  { rewrite Hlen. unfold num_parameters. rewrite Hasym.
    fold n_s n_c I. lia. }
  destruct (segment_decodes_intro cfg x 0 n_s (min_weight cfg)
              (max_weight cfg) Hsearch) as (sp & Hsp & Hspl & Hspv); [lia|].
  destruct (segment_decodes_intro cfg x n_s n_c (min_weight cfg)
              (max_weight cfg) Hsearch) as (cp & Hcp & Hcpl & Hcpv); [lia|].
  destruct (segment_decodes_intro cfg x (n_s + n_c) cs (min_bias cfg)
              (max_bias cfg) Hsearch) as (bp & Hbp & Hbpl & Hbpv); [lia|].
  destruct (segment_decodes_intro cfg x (n_s + n_c + cs) cs (min_tau cfg)
              (max_tau cfg) Hsearch) as (tp & Htp & Htpl & Htpv); [lia|].
  destruct (asym_place_sensor_spec cfg sp (sensor_weights ns))
    as (sw' & Hsw' & Hs0 & Hs1 & Hsv); [done|done|fold I R; lia|].
  destruct (asym_place_circuit_spec cfg cp (circuit_weights ns))
    as (cw' & Hcw' & Hc0 & Hc1 & Hcv & Hcm & _); [done|done|fold I; lia|].
  fold R I cs in Hsv, Hcv, Hcm, Hsw0, Hsw1, Hcw0, Hcw1.
  exists {| sensor_weights := sw'; circuit_weights := cw';
            biases := bp; time_constants := tp |}.
  cbn [sensor_weights circuit_weights biases time_constants].
  split.
  { unfold map_search_parameters. rewrite Hasym.
    unfold map_search_parameters_asymmetric. cbv zeta.
    fold n_s n_c cs.
    rewrite Nat.add_0_l in Hsp. rewrite Hsp. cbn [bind].
    rewrite Hsw'. cbn [bind set_sensor_weights circuit_weights].
    rewrite Hcp. cbn [bind]. rewrite Hcw'. cbn [bind].
    rewrite Hbp. cbn [bind].
    rewrite drop_as_slice.
    replace (length x) with (n_s + n_c + cs + cs)%nat by lia.
    rewrite Htp. cbn [bind]. reflexivity. }
  split; [|split; [|split; [|split; [|split; [|split]]]]].
  - intros i j Hi Hj.
    destruct (Hspv (I * i + j)%nat) as (v & Hv & Hdec); [nia|].
    exists v. split; [done|]. rewrite mget_ok by lia.
    f_equal. by apply Hsv.
  - intros i j Hi Hj.
    destruct (Hcpv (I * i + j)%nat) as (v & Hv & Hdec); [nia|].
    exists v. split; [done|]. rewrite mget_ok by lia.
    f_equal. by apply Hcv.
  - intros i k Hi Hk.
    destruct (Hcpv (I * I + 2 * i + k)%nat) as (v & Hv & Hdec); [nia|].
    exists v. split; [done|]. rewrite mget_ok by lia.
    f_equal. by apply Hcm.
  - done.
  - intros i Hi. destruct (Hbpv i Hi) as (v & Hv & Hdec). by exists v.
  - done.
  - intros i Hi. destruct (Hbpv i Hi) as (v & Hv & Hdec).
    destruct (Htpv i Hi) as (v' & Hv' & Hdec'). by exists v'.
Qed.

Lemma asymmetric_decoding_round_trip_witness :
  exists ns',
    map_search_parameters parameter_defaults (ramp_genome 46)
      (blank_nervous_system parameter_defaults) = Ok ns'
    /\ exists v,
         decoded_value parameter_defaults (- (16)) 16 (ramp_genome 46)
           (21 + (3 * 3 + 2 * 2 + 1)) v
         /\ mget (circuit_weights ns') 2 (3 + 1) = Ok v.
Proof.
  destruct (asymmetric_decoding_round_trip parameter_defaults
              (ramp_genome 46) (blank_nervous_system parameter_defaults))
    as (ns' & Hrun & _ & _ & Hm & _);
    [ reflexivity | reflexivity | intros H; discriminate H
    | vm_compute; lia | vm_compute; lia | vm_compute; lia
    | vm_compute; lia | ].
  exists ns'. split; [done|].
  apply (Hm 2%nat 1%nat); vm_compute; lia.
Defined.

(** ** Order and end points of the rescaling *)

(** X1: computed in binary64, for [smin < smax] and [lo <= hi] the
    rescaling keeps the order of its arguments; from the unit search range
    it sends 0 to [lo] exactly and 1 to the rounded sum of [lo] and the
    rounded width [hi - lo], which is [hi] up to rounding. *)
Theorem rescale_parameter_ends_and_order (v v' lo hi smin smax : Q) :
  smin < smax ->
  lo <= hi ->
  v <= v' ->
  round64 lo == lo ->
  (exists r r',
     rescale_parameter v lo hi smin smax = Ok r
     /\ rescale_parameter v' lo hi smin smax = Ok r'
     /\ r <= r')
  /\ exists r0 r1,
       rescale_parameter 0 lo hi 0 1 = Ok r0
       /\ rescale_parameter 1 lo hi 0 1 = Ok r1
       /\ r0 == lo
       /\ r1 == round64 (round64 (hi - lo) + lo).
Proof.
  intros Hs Hlh Hv Hlo. split.
  - by apply rescale_parameter_monotone.
  - destruct (rescale_parameter_unit 0 lo hi Hlo) as (r0 & Hr0 & E0).
    destruct (rescale_parameter_unit 1 lo hi Hlo) as (r1 & Hr1 & E1).
    exists r0, r1. split; [done|]. split; [done|]. split.
    + rewrite E0.
      assert (round64 (hi - lo) * 0 == 0) as -> by ring.
      rewrite round64_0.
      assert (0 + lo == lo) as -> by ring. done.
    + rewrite E1.
      assert (round64 (hi - lo) * 1 == round64 (hi - lo)) as -> by ring.
      by rewrite round64_idem.
Qed.

Lemma rescale_parameter_ends_and_order_witness :
  exists r r',
    rescale_parameter (1 # 4) 1 30 0 1 = Ok r
    /\ rescale_parameter (3 # 4) 1 30 0 1 = Ok r'
    /\ r <= r'.
Proof.
  apply (rescale_parameter_ends_and_order (1 # 4) (3 # 4) 1 30 0 1);
    [reflexivity | discriminate | discriminate | reflexivity].
Defined.

(** ** Configuration *)

Lemma ceil_half_double (h k : nat) : ceil_half (h * 2 * k) = (h * k)%nat.
Proof.
  unfold ceil_half.
  replace (h * 2 * k + 1)%nat with (1 + h * k * 2)%nat by lia.
  rewrite Nat.div_add by lia. cbn. lia.
Qed.

Lemma ceil_half_odd_product (h k : nat) :
  ceil_half ((h * 2 + 1) * k) = (h * k + ceil_half k)%nat.
Proof.
  unfold ceil_half.
  replace ((h * 2 + 1) * k + 1)%nat with (k + 1 + h * k * 2)%nat by lia.
  rewrite Nat.div_add by lia. lia.
Qed.

Lemma sym_sensor_count_closed (R I : nat) :
  sym_sensor_count R I = ceil_half (R * I).
Proof.
  unfold sym_sensor_count.
  destruct (Nat.eqb_spec (R mod 2) 1) as [Hodd|Heven].
  - pose proof (odd_half R Hodd) as HR.
    set (h := (R / 2)%nat) in *. clearbody h. subst R.
    by rewrite ceil_half_odd_product.
  - pose proof (even_half R Heven) as HR.
    set (h := (R / 2)%nat) in *. clearbody h. subst R.
    rewrite ceil_half_double. lia.
Qed.

Lemma sym_circuit_count_closed (I : nat) :
  sym_circuit_count I = (ceil_half (I * I) + I)%nat.
Proof.
  unfold sym_circuit_count, sym_block_count.
  fold (sym_sensor_count I I). rewrite sym_sensor_count_closed.
  destruct (Nat.eqb_spec (I mod 2) 1) as [Hodd|Heven].
  - pose proof (odd_half I Hodd). lia.
  - pose proof (even_half I Heven). lia.
Qed.

(** X5: with bilateral symmetry the constructor counts
    [ceil(rays * interneurons / 2)] sensor weights and
    [ceil(interneurons^2 / 2) + interneurons] circuit weights; against the
    plain encoding of the same topology the genome is never longer and
    never shorter than half. *)
Theorem symmetric_parameter_counts (cs ca : Config) :
  bilateral_symmetry cs = true ->
  bilateral_symmetry ca = false ->
  num_rays cs = num_rays ca ->
  num_interneurons cs = num_interneurons ca ->
  let R := num_rays cs in
  let I := num_interneurons cs in
  num_sensor_weights cs = ceil_half (R * I)
  /\ num_circuit_weights cs = (ceil_half (I * I) + I)%nat
  /\ num_parameters cs
     = (ceil_half (R * I) + ceil_half (I * I) + I + 2 * ceil_half I + 2)%nat
  /\ (num_parameters cs <= num_parameters ca)%nat
  /\ (num_parameters ca <= 2 * num_parameters cs)%nat.
Proof.
  intros Hs Ha HR HI R I.
  pose proof (num_sensor_weights_sym cs Hs) as Hns.
  pose proof (num_circuit_weights_sym cs Hs) as Hnc.
  pose proof (num_parameters_sym cs Hs) as Hnp.
  rewrite sym_sensor_count_closed in Hns.
  rewrite sym_circuit_count_closed in Hnc.
  fold R I in Hns, Hnc, Hnp.
  assert (num_parameters ca = R * I + I * (I + 2) + I + 2 + I + 2)%nat as Hpa.
  { unfold num_parameters, num_sensor_weights, num_circuit_weights.
    rewrite Ha, <- HR, <- HI. fold R I. lia. }
  pose proof (ceil_half_bounds (R * I)).
  pose proof (ceil_half_bounds (I * I)).
  pose proof (ceil_half_bounds I).
  split; [done|]. split; [done|]. split; [lia|]. split; nia.
Qed.

Lemma symmetric_parameter_counts_witness :
  num_parameters symmetric_defaults = 25%nat
  /\ (num_parameters symmetric_defaults
      <= num_parameters parameter_defaults)%nat.
Proof.
  destruct (symmetric_parameter_counts symmetric_defaults parameter_defaults)
    as (_ & _ & Hp & Hle & _); [reflexivity..|].
  split; [exact Hp | exact Hle].
Defined.

(** X6: the starting abscissa of the agent is half the width of the world;
    it is the middle of the world exactly when [world_left] is zero. *)
Theorem initial_agent_x_centred (cfg : Config) :
  initial_agent_x cfg == (world_left cfg + world_right cfg) / 2
  <-> world_left cfg == 0.
Proof.
  unfold initial_agent_x. split; intros H.
  - assert ((world_right cfg - world_left cfg) / 2 * 2
            == (world_left cfg + world_right cfg) / 2 * 2) as H2
      by (by rewrite H).
    field_simplify in H2. lra.
  - rewrite H. field.
Qed.

(** ** Which errors the decoder can raise *)

Lemma only_raises_ok {A : Type} (P : PyError -> Prop) (a : A) :
  only_raises P (Ok a).
Proof. intros e H. discriminate H. Qed.

Lemma only_raises_err {A : Type} (P : PyError -> Prop) (e : PyError) :
  P e -> only_raises P (@Err A e).
Proof. intros He e' H. by injection H as <-. Qed.

Lemma only_raises_bind {A B : Type} (P : PyError -> Prop)
    (c : Res A) (k : A -> Res B) :
  only_raises P c -> (forall a, only_raises P (k a)) ->
  only_raises P (bind c k).
Proof.
  intros Hc Hk e H. destruct c as [a|e']; cbn [bind] in H.
  - by apply (Hk a).
  - injection H as <-. by apply Hc.
Qed.

Lemma only_raises_for_loop {S : Type} (P : PyError -> Prop)
    (body : nat -> S -> Res S) (n lo : nat) (s : S) :
  (forall i t, only_raises P (body i t)) ->
  only_raises P (for_loop lo n body s).
Proof.
  intros Hbody. revert lo s. induction n as [|n IH]; intros lo s.
  - apply only_raises_ok.
  - cbn [for_loop]. apply only_raises_bind; [apply Hbody | intros t; apply IH].
Qed.

Lemma only_raises_for_range {S : Type} (P : PyError -> Prop)
    (body : nat -> S -> Res S) (lo hi : nat) (s : S) :
  (forall i t, only_raises P (body i t)) ->
  only_raises P (for_range lo hi body s).
Proof. apply only_raises_for_loop. Qed.

Lemma only_raises_vget (l : list Q) (i : nat) :
  only_raises (fun e => e = IndexError) (vget l i).
Proof.
  unfold vget. destruct (l !! i);
    [apply only_raises_ok | by apply only_raises_err].
Qed.

Lemma only_raises_vset (l : list Q) (i : nat) (v : Q) :
  only_raises (fun e => e = IndexError) (vset l i v).
Proof.
  unfold vset. destruct (decide _);
    [apply only_raises_ok | by apply only_raises_err].
Qed.

Lemma only_raises_vget_back (l : list Q) (k : nat) :
  only_raises (fun e => e = IndexError) (vget_back l k).
Proof.
  unfold vget_back. destruct (decide _);
    [apply only_raises_vget | by apply only_raises_err].
Qed.

Lemma only_raises_vset_back (l : list Q) (k : nat) (v : Q) :
  only_raises (fun e => e = IndexError) (vset_back l k v).
Proof.
  unfold vset_back. destruct (decide _);
    [apply only_raises_vset | by apply only_raises_err].
Qed.

Lemma only_raises_mset (m : Matrix) (i j : nat) (v : Q) :
  only_raises (fun e => e = IndexError) (mset m i j v).
Proof.
  unfold mset. destruct (in_shape m i j);
    [apply only_raises_ok | by apply only_raises_err].
Qed.

(** The steps of a placement: binds, loops, reads and writes. *)
Ltac raises_index :=
  repeat first
    [ apply only_raises_ok
    | apply only_raises_vget
    | apply only_raises_vset
    | apply only_raises_vget_back
    | apply only_raises_vset_back
    | apply only_raises_mset
    | apply only_raises_for_range; intros ? ?
    | apply only_raises_bind; [|intros ?]
    | match goal with
      | |- only_raises _ (let '(_, _) := ?st in _) => destruct st
      | |- only_raises _ (if ?b then _ else _) => destruct b
      end ].

Lemma only_raises_pair_body (src : list Q) (r1 r2 : nat)
    (c1 c2 : nat -> nat) (j : nat) (st : Matrix * nat) :
  only_raises (fun e => e = IndexError) (pair_body src r1 r2 c1 c2 j st).
Proof. unfold pair_body. raises_index. Qed.

Lemma only_raises_sym_place_sensor (cfg : Config) (src : list Q)
    (m : Matrix) :
  only_raises (fun e => e = IndexError) (sym_place_sensor cfg src m).
Proof.
  rewrite sym_place_sensor_unfold. cbv zeta.
  raises_index; apply only_raises_pair_body.
Qed.

Lemma only_raises_sym_place_circuit (cfg : Config) (src : list Q)
    (m : Matrix) :
  only_raises (fun e => e = IndexError) (sym_place_circuit cfg src m).
Proof.
  rewrite sym_place_circuit_unfold. cbv zeta.
  raises_index; apply only_raises_pair_body.
Qed.

Lemma only_raises_sym_place_vector (cfg : Config) (pars : list Q) :
  only_raises (fun e => e = IndexError) (sym_place_vector cfg pars).
Proof. unfold sym_place_vector. raises_index. Qed.

Lemma only_raises_asym_place_sensor (cfg : Config) (src : list Q)
    (m : Matrix) :
  only_raises (fun e => e = IndexError) (asym_place_sensor cfg src m).
Proof. unfold asym_place_sensor. raises_index. Qed.

Lemma only_raises_asym_place_circuit (cfg : Config) (src : list Q)
    (m : Matrix) :
  only_raises (fun e => e = IndexError) (asym_place_circuit cfg src m).
Proof. unfold asym_place_circuit. raises_index. Qed.

Lemma decode_segment_ok (cfg : Config) (seg : list Q) (lo hi : Q) :
  ~ max_search_value cfg == min_search_value cfg ->
  exists l, decode_segment cfg seg lo hi = Ok l
            /\ length l = length seg
            /\ forall k g, seg !! k = Some g ->
                 exists r, l !! k = Some r
                   /\ rescale_parameter (periodic_boundary_conditions g 1)
                        lo hi (min_search_value cfg) (max_search_value cfg)
                      = Ok r.
Proof.
  intros Hs.
  unfold decode_segment, rescale_parameter_array,
    periodic_boundary_conditions_array.
  rewrite py_div_ok by (by apply search_range_nonzero). cbn [bind].
  eexists. split; [reflexivity|]. split; [by rewrite !length_fmap|].
  intros k g Hg. rewrite !list_lookup_fmap, Hg. cbn.
  eexists. split; [reflexivity|].
  unfold rescale_parameter.
  rewrite py_div_ok by (by apply search_range_nonzero). reflexivity.
Qed.

Lemma decode_segment_degenerate (cfg : Config) (seg : list Q) (lo hi : Q) :
  max_search_value cfg == min_search_value cfg ->
  decode_segment cfg seg lo hi = Err ZeroDivisionError.
Proof.
  intros Hs. unfold decode_segment, rescale_parameter_array, py_div.
  assert (round64 (max_search_value cfg - min_search_value cfg) == 0) as H0
    by (apply round64_zero_iff; lra).
  apply Qeq_bool_iff in H0. by rewrite H0.
Qed.

Lemma map_search_parameters_errors_index (cfg : Config) (x : list Q)
    (ns : NervousSystem) :
  ~ max_search_value cfg == min_search_value cfg ->
  only_raises (fun e => e = IndexError) (map_search_parameters cfg x ns).
Proof.
  intros Hs.
  assert (forall seg lo hi,
            only_raises (fun e => e = IndexError)
              (decode_segment cfg seg lo hi)) as Hdec.
  { intros seg lo hi.
    destruct (decode_segment_ok cfg seg lo hi Hs) as (l & -> & _).
    apply only_raises_ok. }
  unfold map_search_parameters, map_search_parameters_symmetric,
    map_search_parameters_asymmetric.
  destruct (bilateral_symmetry cfg); cbv zeta;
    repeat first
      [ apply only_raises_ok
      | apply Hdec
      | apply only_raises_sym_place_sensor
      | apply only_raises_sym_place_circuit
      | apply only_raises_sym_place_vector
      | apply only_raises_asym_place_sensor
      | apply only_raises_asym_place_circuit
      | apply only_raises_bind; [|intros ?] ].
Qed.

(** X7: [map_search_parameters] fails with [ZeroDivisionError] whenever the
    search range is a single point, whatever the genome and the arrays; for
    any other search range the only error it can raise is [IndexError]. *)
Theorem map_search_parameters_errors (cfg : Config) (x : list Q)
    (ns : NervousSystem) :
  (max_search_value cfg == min_search_value cfg ->
   map_search_parameters cfg x ns = Err ZeroDivisionError)
  /\ (~ max_search_value cfg == min_search_value cfg ->
      only_raises (fun e => e = IndexError)
        (map_search_parameters cfg x ns)).
Proof.
  split; intros Hs.
  - unfold map_search_parameters, map_search_parameters_symmetric,
      map_search_parameters_asymmetric.
    destruct (bilateral_symmetry cfg); cbv zeta;
      by rewrite decode_segment_degenerate.
  - by apply map_search_parameters_errors_index.
Qed.

Lemma map_search_parameters_errors_witness :
  only_raises (fun e => e = IndexError)
    (map_search_parameters parameter_defaults (ramp_genome 10)
       (blank_nervous_system parameter_defaults)).
Proof.
  apply (map_search_parameters_errors parameter_defaults (ramp_genome 10)
           (blank_nervous_system parameter_defaults)).
  intros H. discriminate H.
Defined.

(** ** Genomes of the wrong length *)

Lemma for_loop_ok_body {S : Type} (body : nat -> S -> Res S) (n lo : nat)
    (s s' : S) :
  for_loop lo n body s = Ok s' ->
  forall i, (lo <= i < lo + n)%nat -> exists t t', body i t = Ok t'.
Proof.
  revert lo s. induction n as [|n IH]; intros lo s Hrun i Hi; [lia|].
  cbn [for_loop] in Hrun. apply bind_ok in Hrun as (t & Ht & Hrun).
  destruct (decide (i = lo)) as [->|Hne]; [by exists s, t|].
  apply (IH (Datatypes.S lo) t Hrun). lia.
Qed.

Lemma for_range_ok_body {S : Type} (body : nat -> S -> Res S) (lo hi : nat)
    (s s' : S) :
  for_range lo hi body s = Ok s' ->
  forall i, (lo <= i < hi)%nat -> exists t t', body i t = Ok t'.
Proof.
  unfold for_range. intros Hrun i Hi.
  apply (for_loop_ok_body body (hi - lo) lo s s' Hrun). lia.
Qed.

Lemma vget_ok_lt (l : list Q) (i : nat) (v : Q) :
  vget l i = Ok v -> (i < length l)%nat.
Proof.
  unfold vget. destruct (l !! i) eqn:E; [|discriminate].
  intros _. by apply lookup_lt_Some in E.
Qed.

Lemma not_ok_raises {A : Type} (P : PyError -> Prop) (c : Res A) :
  only_raises P c -> (forall a, c <> Ok a) -> exists e, c = Err e /\ P e.
Proof.
  intros Hr Hn. destruct c as [a|e]; [by destruct (Hn a)|].
  exists e. split; [done|]. by apply Hr.
Qed.

Section DecodeAnySlice.
Variable cfg : Config.
Variable x : list Q.
Hypothesis Hsearch : ~ max_search_value cfg == min_search_value cfg.

Lemma decode_slice_gen (a b : nat) (lo hi : Q) :
  exists l,
    decode_segment cfg (slice x a b) lo hi = Ok l
    /\ length l = Nat.min (b - a) (length x - a)
    /\ forall k, (k < length l)%nat ->
         exists r, l !! k = Some r /\ decoded_value cfg lo hi x (a + k) r.
Proof.
  destruct (decode_segment_ok cfg (slice x a b) lo hi Hsearch)
    as (l & Hl & Hlen & Hval).
  assert (length (slice x a b) = Nat.min (b - a) (length x - a)) as Hsl
    by (unfold slice; by rewrite length_take, length_drop).
  exists l. split; [done|]. split; [congruence|].
  intros k Hk. rewrite Hlen, Hsl in Hk.
  destruct (lookup_lt_is_Some_2 x (a + k)) as [g Hg]; [lia|].
  destruct (Hval k g) as (r & Hr & Hres).
  { rewrite slice_lookup by lia. done. }
  exists r. split; [done|]. by exists g.
Qed.

Lemma decode_drop_gen (a : nat) (lo hi : Q) :
  exists l,
    decode_segment cfg (drop a x) lo hi = Ok l
    /\ length l = (length x - a)%nat
    /\ forall k, (k < length l)%nat ->
         exists r, l !! k = Some r /\ decoded_value cfg lo hi x (a + k) r.
Proof.
  destruct (decode_segment_ok cfg (drop a x) lo hi Hsearch)
    as (l & Hl & Hlen & Hval).
  rewrite length_drop in Hlen.
  exists l. split; [done|]. split; [done|].
  intros k Hk.
  destruct (lookup_lt_is_Some_2 x (a + k)) as [g Hg]; [lia|].
  destruct (Hval k g) as (r & Hr & Hres); [by rewrite lookup_drop|].
  exists r. split; [done|]. by exists g.
Qed.

End DecodeAnySlice.

(** *** Without symmetry *)

Section AsymPlacementFull.
Variable cfg : Config.
Variable src : list Q.
Variable m : Matrix.

Let R := num_rays cfg.
Let I := num_interneurons cfg.
Let cs := circuit_size cfg.

Lemma asym_place_sensor_full :
  (R <= shape0 m)%nat -> (I <= shape1 m)%nat ->
  (I * R <= length src)%nat ->
  exists m',
    asym_place_sensor cfg src m = Ok m'
    /\ shape0 m' = shape0 m /\ shape1 m' = shape1 m
    /\ (forall i j v, (i < R)%nat -> (j < I)%nat ->
          src !! (I * i + j)%nat = Some v -> cell m' i j = v)
    /\ (forall a b, ~ ((a < R)%nat /\ (b < I)%nat) ->
          cell m' a b = cell m a b).
Proof.
  intros HR HI Hsrc. rewrite asym_place_sensor_unfold. cbv zeta. fold R I.
  destruct (grid_loop_spec src R I (fun j => j)
              (fun i j => (I * i + j)%nat) m)
    as (m' & -> & H0 & H1 & Hv & Hf);
    [ lia | intros; lia | intros; lia | intros; nia | ].
  exists m'. do 4 (split; [done|]).
  intros a b Hab. apply Hf. intros i j Hi Hj. pair_ne.
Qed.

Lemma asym_place_circuit_full :
  (I <= shape0 m)%nat -> (cs <= shape1 m)%nat ->
  (I * (I + 2) <= length src)%nat ->
  exists m',
    asym_place_circuit cfg src m = Ok m'
    /\ shape0 m' = shape0 m /\ shape1 m' = shape1 m
    /\ (forall i j v, (i < I)%nat -> (j < I)%nat ->
          src !! (I * i + j)%nat = Some v -> cell m' i j = v)
    /\ (forall i k v, (i < I)%nat -> (k < 2)%nat ->
          src !! (I * I + 2 * i + k)%nat = Some v ->
          cell m' i (I + k) = v)
    /\ (forall a b, ~ ((a < I)%nat /\ (b < cs)%nat) ->
          cell m' a b = cell m a b).
Proof.
  intros HI Hcs Hsrc. rewrite asym_place_circuit_unfold. cbv zeta. fold I.
  assert (cs = I + 2)%nat as Hcsd by reflexivity.
  destruct (grid_loop_spec src I I (fun j => j)
              (fun i j => (I * i + j)%nat) m)
    as (m1 & -> & H10 & H11 & H1v & H1f);
    [ lia | intros; lia | intros; lia | intros; nia | ].
  cbn [bind].
  destruct (grid_loop_spec src I 2 (fun j => (I + j)%nat)
              (fun i j => (I * I + 2 * i + j)%nat) m1)
    as (m2 & -> & H20 & H21 & H2v & H2f);
    [ lia | intros; lia | intros; lia | intros; nia | ].
  exists m2. split; [done|]. split; [congruence|]. split; [congruence|].
  split; [|split].
  - intros i j v Hi Hj Hv. rewrite H2f.
    + by apply H1v.
    + intros a b Ha Hb. pair_ne.
  - intros i k v Hi Hk Hv. by apply H2v.
  - intros a b Hab. rewrite H2f, H1f; [done| |].
    + intros i j Hi Hj. pair_ne.
    + intros i j Hi Hj. pair_ne.
Qed.

Lemma asym_place_circuit_ok_length (m' : Matrix) :
  asym_place_circuit cfg src m = Ok m' ->
  (1 <= I)%nat -> (I * (I + 2) <= length src)%nat.
Proof.
  rewrite asym_place_circuit_unfold. cbv zeta. fold I. intros Hrun HI.
  apply bind_ok in Hrun as (m1 & _ & Hrun).
  destruct (for_range_ok_body _ _ _ _ _ Hrun (I - 1)%nat) as (t & t' & Hrow);
    [lia|].
  destruct (for_range_ok_body _ _ _ _ _ Hrow 1%nat) as (u & u' & Hcell);
    [lia|].
  unfold single_body in Hcell.
  apply bind_ok in Hcell as (v & Hv & _).
  apply vget_ok_lt in Hv. nia.
Qed.

End AsymPlacementFull.

Section AsymLength.
Variable cfg : Config.
Variable x : list Q.
Variable ns : NervousSystem.

Let R := num_rays cfg.
Let I := num_interneurons cfg.
Let cs := circuit_size cfg.
Let n_s := num_sensor_weights cfg.
Let n_c := num_circuit_weights cfg.

Hypothesis Hasym : bilateral_symmetry cfg = false.
Hypothesis Hsearch : ~ max_search_value cfg == min_search_value cfg.
Hypothesis Hsw0 : (R <= shape0 (sensor_weights ns))%nat.
Hypothesis Hsw1 : (I <= shape1 (sensor_weights ns))%nat.
Hypothesis Hcw0 : (I <= shape0 (circuit_weights ns))%nat.
Hypothesis Hcw1 : (cs <= shape1 (circuit_weights ns))%nat.

Lemma asym_counts : n_s = (I * R)%nat /\ n_c = (I * (I + 2))%nat.
Proof.
  unfold n_s, n_c, num_sensor_weights, num_circuit_weights.
  by rewrite Hasym.
Qed.

Lemma asym_decode_long :
  (n_s + n_c <= length x)%nat ->
  exists ns',
    map_search_parameters cfg x ns = Ok ns'
    /\ (shape0 (sensor_weights ns') = shape0 (sensor_weights ns)
        /\ shape1 (sensor_weights ns') = shape1 (sensor_weights ns)
        /\ shape0 (circuit_weights ns') = shape0 (circuit_weights ns)
        /\ shape1 (circuit_weights ns') = shape1 (circuit_weights ns))
    /\ (forall i j, (i < R)%nat -> (j < I)%nat ->
          decoded_value cfg (min_weight cfg) (max_weight cfg) x
            (I * i + j) (cell (sensor_weights ns') i j))
    /\ (forall i j, (i < I)%nat -> (j < I)%nat ->
          decoded_value cfg (min_weight cfg) (max_weight cfg) x
            (n_s + (I * i + j)) (cell (circuit_weights ns') i j))
    /\ (forall i k, (i < I)%nat -> (k < 2)%nat ->
          decoded_value cfg (min_weight cfg) (max_weight cfg) x
            (n_s + (I * I + 2 * i + k))
            (cell (circuit_weights ns') i (I + k)))
    /\ (forall a b, ~ ((a < R)%nat /\ (b < I)%nat) ->
          cell (sensor_weights ns') a b = cell (sensor_weights ns) a b)
    /\ (forall a b, ~ ((a < I)%nat /\ (b < cs)%nat) ->
          cell (circuit_weights ns') a b = cell (circuit_weights ns) a b)
    /\ (length (biases ns') = Nat.min cs (length x - (n_s + n_c))
        /\ forall i, (i < length (biases ns'))%nat ->
             exists v, biases ns' !! i = Some v
               /\ decoded_value cfg (min_bias cfg) (max_bias cfg) x
                    (n_s + n_c + i) v)
    /\ (length (time_constants ns') = (length x - (n_s + n_c + cs))%nat
        /\ forall i, (i < length (time_constants ns'))%nat ->
             exists v, time_constants ns' !! i = Some v
               /\ decoded_value cfg (min_tau cfg) (max_tau cfg) x
                    (n_s + n_c + cs + i) v).
Proof.
  intros Hlen. destruct asym_counts as [Hns Hnc].
  assert (cs = I + 2)%nat as Hcsd by reflexivity.
  destruct (segment_decodes_intro cfg x 0 n_s (min_weight cfg)
              (max_weight cfg) Hsearch) as (sp & Hsp & Hspl & Hspv); [lia|].
  destruct (segment_decodes_intro cfg x n_s n_c (min_weight cfg)
              (max_weight cfg) Hsearch) as (cp & Hcp & Hcpl & Hcpv); [lia|].
  destruct (decode_slice_gen cfg x Hsearch (n_s + n_c) (n_s + n_c + cs)
              (min_bias cfg) (max_bias cfg)) as (bp & Hbp & Hbpl & Hbpv).
  destruct (decode_drop_gen cfg x Hsearch (n_s + n_c + cs)
              (min_tau cfg) (max_tau cfg)) as (tp & Htp & Htpl & Htpv).
  destruct (asym_place_sensor_full cfg sp (sensor_weights ns))
    as (sw' & Hsw' & Hs0 & Hs1 & Hsv & Hsf); [done|done|fold I R; lia|].
  destruct (asym_place_circuit_full cfg cp (circuit_weights ns))
    as (cw' & Hcw' & Hc0 & Hc1 & Hcv & Hcm & Hcf); [done|done|fold I; lia|].
  fold R I cs in Hsv, Hsf, Hcv, Hcm, Hcf.
  exists {| sensor_weights := sw'; circuit_weights := cw';
            biases := bp; time_constants := tp |}.
  cbn [sensor_weights circuit_weights biases time_constants].
  split.
  { unfold map_search_parameters. rewrite Hasym.
    unfold map_search_parameters_asymmetric. cbv zeta.
    fold n_s n_c cs.
    rewrite Nat.add_0_l in Hsp. rewrite Hsp. cbn [bind].
    rewrite Hsw'. cbn [bind set_sensor_weights circuit_weights].
    rewrite Hcp. cbn [bind]. rewrite Hcw'. cbn [bind].
    rewrite Hbp. cbn [bind]. rewrite Htp. cbn [bind]. reflexivity. }
  split; [done|].
  split; [|split; [|split; [|split; [done|split; [done|split]]]]].
  - intros i j Hi Hj.
    destruct (Hspv (I * i + j)%nat) as (v & Hv & Hdec); [nia|].
    by rewrite (Hsv i j v Hi Hj Hv).
  - intros i j Hi Hj.
    destruct (Hcpv (I * i + j)%nat) as (v & Hv & Hdec); [nia|].
    by rewrite (Hcv i j v Hi Hj Hv).
  - intros i k Hi Hk.
    destruct (Hcpv (I * I + 2 * i + k)%nat) as (v & Hv & Hdec); [nia|].
    by rewrite (Hcm i k v Hi Hk Hv).
  - split; [rewrite Hbpl; f_equal; lia|]. done.
  - split; [done|]. done.
Qed.

Lemma asym_decode_ok_length (ns' : NervousSystem) :
  map_search_parameters cfg x ns = Ok ns' -> (n_s + n_c <= length x)%nat.
Proof.
  destruct asym_counts as [Hns Hnc].
  unfold map_search_parameters. rewrite Hasym.
  unfold map_search_parameters_asymmetric. cbv zeta. fold n_s n_c.
  intros Hrun.
  apply bind_ok in Hrun as (sp & Hsp & Hrun).
  apply bind_ok in Hrun as (sw' & Hsw' & Hrun).
  apply bind_ok in Hrun as (cp & Hcp & Hrun).
  apply bind_ok in Hrun as (cw' & Hcw' & _).
  destruct (decide (I = 0)%nat) as [HI0|HI0]; [nia|].
  apply asym_place_circuit_ok_length in Hcw'; [|fold I; lia].
  fold I in Hcw'.
  destruct (decode_slice_gen cfg x Hsearch n_s (n_s + n_c)
              (min_weight cfg) (max_weight cfg)) as (cp' & Hcp' & Hlen & _).
  rewrite Hcp in Hcp'. injection Hcp' as <-.
  rewrite Hlen in Hcw'. nia.
Qed.

End AsymLength.

(** X8: without symmetry (distinct search bounds, weight arrays large
    enough), [map_search_parameters] returns normally exactly when the
    genome has at least [num_sensor_weights + num_circuit_weights] entries,
    and raises [IndexError] otherwise.  What follows the weights is not
    checked: the bias array gets the next at most [circuit_size] entries and
    the time-constant array whatever is left, so a genome of another length
    than [num_parameters] yields arrays of the wrong length without any
    error. *)
Theorem asymmetric_genome_length (cfg : Config) (x : list Q)
    (ns : NervousSystem) :
  bilateral_symmetry cfg = false ->
  ~ max_search_value cfg == min_search_value cfg ->
  (num_rays cfg <= shape0 (sensor_weights ns))%nat ->
  (num_interneurons cfg <= shape1 (sensor_weights ns))%nat ->
  (num_interneurons cfg <= shape0 (circuit_weights ns))%nat ->
  (circuit_size cfg <= shape1 (circuit_weights ns))%nat ->
  let n_w := (num_sensor_weights cfg + num_circuit_weights cfg)%nat in
  ((exists ns', map_search_parameters cfg x ns = Ok ns')
   <-> (n_w <= length x)%nat)
  /\ ((length x < n_w)%nat ->
      map_search_parameters cfg x ns = Err IndexError)
  /\ (forall ns', map_search_parameters cfg x ns = Ok ns' ->
        length (biases ns')
        = Nat.min (circuit_size cfg) (length x - n_w)
        /\ length (time_constants ns')
           = (length x - (n_w + circuit_size cfg))%nat).
Proof.
  intros Hasym Hsearch Hsw0 Hsw1 Hcw0 Hcw1 n_w.
  assert ((exists ns', map_search_parameters cfg x ns = Ok ns')
          <-> (n_w <= length x)%nat) as Hiff.
  { split.
    - intros [ns' Hrun].
      eapply asym_decode_ok_length; eassumption.
    - intros Hlen.
      destruct (asym_decode_long cfg x ns Hasym Hsearch Hsw0 Hsw1 Hcw0 Hcw1
                  Hlen) as (ns' & Hrun & _).
      by exists ns'. }
  split; [done|]. split.
  - intros Hshort.
    destruct (not_ok_raises (fun e => e = IndexError)
                (map_search_parameters cfg x ns)) as (e & He & ->); [| |done].
    + by apply map_search_parameters_errors_index.
    + intros ns' Hrun. assert (n_w <= length x)%nat; [|lia].
      apply Hiff. by exists ns'.
  - intros ns' Hrun.
    assert (n_w <= length x)%nat as Hlen by (apply Hiff; by exists ns').
    destruct (asym_decode_long cfg x ns Hasym Hsearch Hsw0 Hsw1 Hcw0 Hcw1
                Hlen)
      as (ns2 & Hrun2 & _ & _ & _ & _ & _ & _ & (Hb & _) & (Ht & _)).
    rewrite Hrun in Hrun2. injection Hrun2 as <-. done.
Qed.

Lemma asymmetric_genome_length_witness :
  map_search_parameters parameter_defaults (ramp_genome 35)
    (blank_nervous_system parameter_defaults) = Err IndexError
  /\ exists ns',
       map_search_parameters parameter_defaults (ramp_genome 40)
         (blank_nervous_system parameter_defaults) = Ok ns'.
Proof.
  split.
  - apply (asymmetric_genome_length parameter_defaults (ramp_genome 35)
             (blank_nervous_system parameter_defaults));
      [ reflexivity | intros H; discriminate H
      | vm_compute; lia | vm_compute; lia | vm_compute; lia
      | vm_compute; lia | vm_compute; lia ].
  - apply (asymmetric_genome_length parameter_defaults (ramp_genome 40)
             (blank_nervous_system parameter_defaults));
      [ reflexivity | intros H; discriminate H
      | vm_compute; lia | vm_compute; lia | vm_compute; lia
      | vm_compute; lia | vm_compute; lia ].
Defined.

(** *** With bilateral symmetry *)

Section SymVectorAnyLength.
Variable cfg : Config.
Variable pars : list Q.

Let I := num_interneurons cfg.
Let cs := circuit_size cfg.

Let vec_inv (i : nat) (arr : list Q) : Prop :=
  length arr = cs
  /\ forall i', (i' < i)%nat ->
       arr !! i' = pars !! i' /\ arr !! (I - i' - 1)%nat = pars !! i'.

Lemma sym_place_vector_gen :
  (ceil_half I <= length pars)%nat ->
  (1 <= length pars)%nat ->
  exists arr,
    sym_place_vector cfg pars = Ok arr
    /\ length arr = cs
    /\ (forall i, (i < ceil_half I)%nat ->
          arr !! i = pars !! i /\ arr !! (I - i - 1)%nat = pars !! i)
    /\ arr !! (cs - 2)%nat = pars !! (length pars - 1)%nat
    /\ arr !! (cs - 1)%nat = pars !! (length pars - 1)%nat.
Proof.
  intros Hlen Hne.
  unfold sym_place_vector. fold I cs.
  pose proof (ceil_half_bounds I) as HcI.
  assert (cs = I + 2)%nat as Hcsd by reflexivity.
  edestruct (for_range_inv vec_inv) as (arr & -> & Harr & Hval).
  - lia.
  - split; [apply length_replicate | intros i' Hi'; lia].
  - intros i arr Hi [Harr Hval].
    destruct (vget_lt pars i) as (v & Hv & ->); [lia|]. cbn [bind].
    rewrite vset_lt by lia. cbn [bind].
    rewrite vset_lt by (rewrite length_insert; lia).
    eexists. split; [reflexivity|]. split.
    + by rewrite !length_insert.
    + intros i' Hi'.
      destruct (decide (i' = i)) as [->|Hneq].
      * rewrite Hv. split.
        -- destruct (decide (i = I - i - 1)%nat) as [Heq|Hneq].
           ++ rewrite <- Heq. apply list_lookup_insert_eq.
              rewrite length_insert. lia.
           ++ rewrite list_lookup_insert_ne by lia.
              apply list_lookup_insert_eq. lia.
        -- apply list_lookup_insert_eq. rewrite length_insert. lia.
      * destruct (Hval i') as [H1 H2]; [lia|].
        rewrite !list_lookup_insert_ne by lia. done.
  - cbn [bind].
    unfold vget_back, vset_back.
    rewrite decide_True by lia.
    destruct (vget_lt pars (length pars - 1)) as (v & Hv & ->); [lia|].
    cbn [bind].
    rewrite decide_True by lia. rewrite vset_lt by lia. cbn [bind].
    rewrite decide_True by (rewrite length_insert; lia).
    rewrite vset_lt by (rewrite length_insert; lia).
    rewrite !length_insert, Harr, Hv.
    eexists. split; [reflexivity|]. split; [by rewrite !length_insert|].
    split; [|split].
    + intros i Hi. destruct (Hval i Hi) as [H1 H2].
      rewrite !list_lookup_insert_ne by lia. done.
    + rewrite list_lookup_insert_ne by lia.
      apply list_lookup_insert_eq. lia.
    + apply list_lookup_insert_eq. rewrite length_insert. lia.
Qed.

Lemma sym_place_vector_ok_length (arr : list Q) :
  sym_place_vector cfg pars = Ok arr ->
  (ceil_half I <= length pars)%nat /\ (1 <= length pars)%nat.
Proof.
  unfold sym_place_vector. fold I. intros Hrun.
  apply bind_ok in Hrun as (a0 & Hloop & Hrun).
  apply bind_ok in Hrun as (v & Hback & _).
  split.
  - destruct (decide (ceil_half I = 0)%nat) as [->|Hpos]; [lia|].
    destruct (for_range_ok_body _ _ _ _ _ Hloop (ceil_half I - 1)%nat)
      as (t & t' & Hbody); [lia|].
    apply bind_ok in Hbody as (u & Hu & _).
    apply vget_ok_lt in Hu. lia.
  - unfold vget_back in Hback.
    destruct (decide (1 <= 1 <= length pars)%nat); [lia|discriminate].
Qed.

End SymVectorAnyLength.

Section SymLength.
Variable cfg : Config.
Variable x : list Q.
Variable ns : NervousSystem.

Let R := num_rays cfg.
Let I := num_interneurons cfg.
Let cs := circuit_size cfg.
Let n_s := num_sensor_weights cfg.
Let n_c := num_circuit_weights cfg.
Let n_v := (ceil_half I + 1)%nat.

Hypothesis Hsym : bilateral_symmetry cfg = true.
Hypothesis Hsearch : ~ max_search_value cfg == min_search_value cfg.
Hypothesis Hsw0 : (R <= shape0 (sensor_weights ns))%nat.
Hypothesis Hsw1 : (I <= shape1 (sensor_weights ns))%nat.
Hypothesis Hcw0 : (I <= shape0 (circuit_weights ns))%nat.
Hypothesis Hcw1 : (cs <= shape1 (circuit_weights ns))%nat.
Hypothesis HI : (1 <= I)%nat.

Lemma sym_decode_long :
  (num_parameters cfg - 1 <= length x)%nat ->
  exists ns' v,
    map_search_parameters cfg x ns = Ok ns'
    /\ decoded_value cfg (min_tau cfg) (max_tau cfg) x (length x - 1) v
    /\ time_constants ns' !! (cs - 2)%nat = Some v
    /\ time_constants ns' !! (cs - 1)%nat = Some v.
Proof.
  intros Hlen.
  pose proof (num_parameters_sym cfg Hsym) as Hnp.
  fold I n_s n_c n_v in Hnp. rewrite Hnp in Hlen.
  pose proof (ceil_half_bounds I) as HcI.
  assert (1 <= ceil_half I)%nat as Hc1 by lia.
  destruct (segment_decodes_intro cfg x 0 n_s (min_weight cfg)
              (max_weight cfg) Hsearch) as (sp & Hsp & Hspl & _); [lia|].
  destruct (segment_decodes_intro cfg x n_s n_c (min_weight cfg)
              (max_weight cfg) Hsearch) as (cp & Hcp & Hcpl & _); [lia|].
  destruct (segment_decodes_intro cfg x (n_s + n_c) n_v (min_bias cfg)
              (max_bias cfg) Hsearch) as (bp & Hbp & Hbpl & _);
    [unfold n_v in *; lia|].
  destruct (decode_drop_gen cfg x Hsearch (n_s + n_c + n_v)
              (min_tau cfg) (max_tau cfg)) as (tp & Htp & Htpl & Htpv).
  destruct (sym_place_sensor_spec cfg sp (sensor_weights ns))
    as (sw' & Hsw' & _); [done|done| |].
  { rewrite Hspl. fold R I.
    unfold n_s. by rewrite (num_sensor_weights_sym cfg Hsym). }
  destruct (sym_place_circuit_spec cfg cp (circuit_weights ns))
    as (cw' & Hcw' & _); [done|done| |].
  { rewrite Hcpl. fold I.
    unfold n_c. by rewrite (num_circuit_weights_sym cfg Hsym). }
  destruct (sym_place_vector_spec cfg bp) as (b' & Hb' & _).
  { rewrite Hbpl. done. }
  destruct (sym_place_vector_gen cfg tp)
    as (t' & Ht' & _ & _ & Htm2 & Htm1).
  { rewrite Htpl. fold I. unfold n_v in *. lia. }
  { rewrite Htpl. unfold n_v in *. lia. }
  destruct (Htpv (length tp - 1)%nat) as (v & Hv & Hdec);
    [rewrite Htpl; unfold n_v in *; lia|].
  exists {| sensor_weights := sw'; circuit_weights := cw';
            biases := b'; time_constants := t' |}, v.
  cbn [time_constants]. fold cs in Htm2, Htm1.
  split.
  { unfold map_search_parameters. rewrite Hsym.
    unfold map_search_parameters_symmetric. cbv zeta.
    rewrite (ceil_half_circuit_size cfg). fold I n_s n_c n_v.
    rewrite Nat.add_0_l in Hsp. rewrite Hsp. cbn [bind].
    rewrite Hsw'. cbn [bind fst set_sensor_weights circuit_weights].
    rewrite Hcp. cbn [bind]. rewrite Hcw'. cbn [bind].
    rewrite Hbp. cbn [bind]. rewrite Hb'. cbn [bind].
    rewrite Htp. cbn [bind]. rewrite Ht'. cbn [bind]. reflexivity. }
  split; [|split; congruence].
  replace (length x - 1)%nat
    with (n_s + n_c + n_v + (length tp - 1))%nat; [done|].
  rewrite Htpl. unfold n_v in *. lia.
Qed.

Lemma sym_decode_ok_length (ns' : NervousSystem) :
  map_search_parameters cfg x ns = Ok ns' ->
  (num_parameters cfg - 1 <= length x)%nat.
Proof.
  pose proof (num_parameters_sym cfg Hsym) as Hnp.
  fold I n_s n_c n_v in Hnp. rewrite Hnp.
  pose proof (ceil_half_bounds I) as HcI.
  unfold map_search_parameters. rewrite Hsym.
  unfold map_search_parameters_symmetric. cbv zeta.
  rewrite (ceil_half_circuit_size cfg). fold I n_s n_c n_v.
  intros Hrun.
  apply bind_ok in Hrun as (sp & _ & Hrun).
  apply bind_ok in Hrun as (r1 & _ & Hrun).
  apply bind_ok in Hrun as (cp & _ & Hrun).
  apply bind_ok in Hrun as (r2 & _ & Hrun).
  apply bind_ok in Hrun as (bp & _ & Hrun).
  apply bind_ok in Hrun as (b' & _ & Hrun).
  apply bind_ok in Hrun as (tp & Htp & Hrun).
  apply bind_ok in Hrun as (t' & Ht' & _).
  apply sym_place_vector_ok_length in Ht' as [Hc H1]. fold I in Hc.
  destruct (decode_drop_gen cfg x Hsearch (n_s + n_c + n_v)
              (min_tau cfg) (max_tau cfg)) as (tp' & Htp' & Hlen & _).
  rewrite Htp in Htp'. injection Htp' as <-.
  rewrite Hlen in Hc, H1. unfold n_v in *. lia.
Qed.

End SymLength.

(** X9: with bilateral symmetry and at least one interneuron (distinct
    search bounds, weight arrays large enough), [map_search_parameters]
    returns normally exactly when the genome has at least
    [num_parameters - 1] entries, and raises [IndexError] otherwise: a
    genome one entry short, or too long, is decoded without any error.
    Whatever the length, both motor time constants are decoded from the
    last entry of the genome. *)
Theorem symmetric_genome_length (cfg : Config) (x : list Q)
    (ns : NervousSystem) :
  bilateral_symmetry cfg = true ->
  ~ max_search_value cfg == min_search_value cfg ->
  (num_rays cfg <= shape0 (sensor_weights ns))%nat ->
  (num_interneurons cfg <= shape1 (sensor_weights ns))%nat ->
  (num_interneurons cfg <= shape0 (circuit_weights ns))%nat ->
  (circuit_size cfg <= shape1 (circuit_weights ns))%nat ->
  (1 <= num_interneurons cfg)%nat ->
  ((exists ns', map_search_parameters cfg x ns = Ok ns')
   <-> (num_parameters cfg - 1 <= length x)%nat)
  /\ ((length x < num_parameters cfg - 1)%nat ->
      map_search_parameters cfg x ns = Err IndexError)
  /\ (forall ns', map_search_parameters cfg x ns = Ok ns' ->
        exists v,
          decoded_value cfg (min_tau cfg) (max_tau cfg) x (length x - 1) v
          /\ time_constants ns' !! (circuit_size cfg - 2)%nat = Some v
          /\ time_constants ns' !! (circuit_size cfg - 1)%nat = Some v).
Proof.
  intros Hsym Hsearch Hsw0 Hsw1 Hcw0 Hcw1 HI.
  assert ((exists ns', map_search_parameters cfg x ns = Ok ns')
          <-> (num_parameters cfg - 1 <= length x)%nat) as Hiff.
  { split.
    - intros [ns' Hrun]. eapply sym_decode_ok_length; eassumption.
    - intros Hlen.
      destruct (sym_decode_long cfg x ns Hsym Hsearch Hsw0 Hsw1 Hcw0 Hcw1
                  HI Hlen) as (ns' & v & Hrun & _).
      by exists ns'. }
  split; [done|]. split.
  - intros Hshort.
    destruct (not_ok_raises (fun e => e = IndexError)
                (map_search_parameters cfg x ns)) as (e & He & ->); [| |done].
    + by apply map_search_parameters_errors_index.
    + intros ns' Hrun.
      assert (num_parameters cfg - 1 <= length x)%nat; [|lia].
      apply Hiff. by exists ns'.
  - intros ns' Hrun.
    assert (num_parameters cfg - 1 <= length x)%nat as Hlen
      by (apply Hiff; by exists ns').
    destruct (sym_decode_long cfg x ns Hsym Hsearch Hsw0 Hsw1 Hcw0 Hcw1
                HI Hlen) as (ns2 & v & Hrun2 & Hdec & H2 & H1).
    rewrite Hrun in Hrun2. injection Hrun2 as <-. by exists v.
Qed.

Lemma symmetric_genome_length_witness :
  (exists ns',
     map_search_parameters symmetric_defaults (ramp_genome 24)
       (blank_nervous_system symmetric_defaults) = Ok ns')
  /\ map_search_parameters symmetric_defaults (ramp_genome 23)
       (blank_nervous_system symmetric_defaults) = Err IndexError.
Proof.
  split.
  - apply (symmetric_genome_length symmetric_defaults (ramp_genome 24)
             (blank_nervous_system symmetric_defaults));
      [ reflexivity | intros H; discriminate H
      | vm_compute; lia | vm_compute; lia | vm_compute; lia
      | vm_compute; lia | vm_compute; lia | vm_compute; lia ].
  - apply (symmetric_genome_length symmetric_defaults (ramp_genome 23)
             (blank_nervous_system symmetric_defaults));
      [ reflexivity | intros H; discriminate H
      | vm_compute; lia | vm_compute; lia | vm_compute; lia
      | vm_compute; lia | vm_compute; lia | vm_compute; lia ].
Defined.

(** ** Decoded parameters stay within their bounds *)

Lemma round64_eq (x y : Q) : x == y -> round64 x = round64 y.
Proof.
  intros H. unfold round64. apply Qred_complete.
  destruct (Qlt_le_dec 0 x) as [Hpos|Hle].
  - destruct (Qcompare_spec x 0) as [?|?|_]; [lra..|].
    destruct (Qcompare_spec y 0) as [?|?|_]; [lra..|].
    by apply round_pos_comp.
  - destruct (Qlt_le_dec x 0) as [Hneg|Hge].
    + destruct (Qcompare_spec x 0) as [?|_|?]; [lra| |lra].
      destruct (Qcompare_spec y 0) as [?|_|?]; [lra| |lra].
      rewrite (round_pos_comp (- x) (- y)); [reflexivity|lra|by rewrite H].
    + destruct (Qcompare_spec x 0) as [_|?|?]; [|lra..].
      destruct (Qcompare_spec y 0) as [_|?|?]; [|lra..]. reflexivity.
Qed.

Lemma rescale_parameter_search_ext (v lo hi smin smax smin' smax' : Q) :
  smin == smin' -> smax == smax' ->
  rescale_parameter v lo hi smin smax
  = rescale_parameter v lo hi smin' smax'.
Proof.
  intros Hmin Hmax. unfold rescale_parameter.
  rewrite (round64_eq (smax - smin) (smax' - smin'))
    by (by rewrite Hmin, Hmax).
  destruct (py_div _ _) as [q|e]; [|reflexivity]. cbn [bind].
  f_equal. apply round64_eq.
  rewrite (round64_eq (round64 q * smin) (round64 q * smin'))
    by (by rewrite Hmin).
  reflexivity.
Qed.

Lemma decoded_value_range (cfg : Config) (lo hi : Q) (x : list Q) (k : nat)
    (r : Q) :
  min_search_value cfg == 0 ->
  max_search_value cfg == 1 ->
  lo <= hi ->
  round64 lo == lo ->
  decoded_value cfg lo hi x k r ->
  lo <= r /\ r <= rescaled_top lo hi.
Proof.
  intros Hs0 Hs1 Hlh Hlo (g & _ & Hr).
  rewrite (rescale_parameter_search_ext _ lo hi _ _ 0 1 Hs0 Hs1) in Hr.
  destruct (periodic_boundary_conditions_range g 1) as [Hw0 Hw1];
    [reflexivity | reflexivity |].
  destruct (rescale_parameter_unit_range
              (periodic_boundary_conditions g 1) lo hi Hlo Hlh Hw0 Hw1)
    as (r' & Hr' & Hl & Hu).
  rewrite Hr in Hr'. injection Hr' as <-. done.
Qed.

Lemma segment_value (cfg : Config) (x : list Q) (a n : nat) (lo hi : Q)
    (seg : list Q) (k : nat) (v : Q) :
  segment_decodes cfg x a n lo hi seg ->
  seg !! k = Some v ->
  decoded_value cfg lo hi x (a + k) v.
Proof.
  intros (_ & Hlen & Hval) Hv.
  destruct (Hval k) as (r & Hr & Hdec).
  - apply lookup_lt_Some in Hv. lia.
  - congruence.
Qed.

Lemma mirror_cells_covered (m : Matrix) (src : list Q) (N n : nat) :
  (forall a b v, (a < N / 2)%nat -> (b < n)%nat ->
     src !! (a * n + b)%nat = Some v ->
     cell m a b = v /\ cell m (N - a - 1) (n - b - 1) = v) ->
  ((N mod 2 = 1)%nat ->
   forall b v, (b < ceil_half n)%nat ->
     src !! (N / 2 * n + b)%nat = Some v ->
     cell m (N / 2) b = v /\ cell m (N / 2) (n - b - 1) = v) ->
  (N / 2 * n + (if (N mod 2 =? 1)%nat then ceil_half n else 0)
   <= length src)%nat ->
  forall i j, (i < N)%nat -> (j < n)%nat ->
    exists k, src !! k = Some (cell m i j).
Proof.
  intros HA HB Hlen i j Hi Hj.
  pose proof (half_le N) as HhN.
  pose proof (ceil_half_bounds n) as Hcn.
  destruct (decide (i < N / 2)%nat) as [Hlo|Hnlo].
  - destruct (lookup_lt_is_Some_2 src (i * n + j)) as [v Hv]; [nia|].
    destruct (HA i j v Hlo Hj Hv) as [<- _]. eauto.
  - destruct (decide (N - i - 1 < N / 2)%nat) as [Hhi|Hnhi].
    + destruct (lookup_lt_is_Some_2 src ((N - i - 1) * n + (n - j - 1)))
        as [v Hv]; [nia|].
      destruct (HA (N - i - 1)%nat (n - j - 1)%nat v Hhi ltac:(lia) Hv)
        as [_ H2].
      replace (N - (N - i - 1) - 1)%nat with i in H2 by lia.
      replace (n - (n - j - 1) - 1)%nat with j in H2 by lia.
      rewrite <- H2 in Hv. eauto.
    + destruct (Nat.eqb_spec (N mod 2) 1) as [Hodd|Heven];
        [|pose proof (even_half N Heven); lia].
      pose proof (odd_half N Hodd) as HN.
      assert (i = N / 2)%nat as -> by lia.
      destruct (decide (j < ceil_half n)%nat) as [Hj1|Hj2].
      * destruct (lookup_lt_is_Some_2 src (N / 2 * n + j)) as [v Hv]; [lia|].
        destruct (HB Hodd j v Hj1 Hv) as [<- _]. eauto.
      * destruct (lookup_lt_is_Some_2 src (N / 2 * n + (n - j - 1)))
          as [v Hv]; [lia|].
        destruct (HB Hodd (n - j - 1)%nat v ltac:(lia) Hv) as [_ H2].
        replace (n - (n - j - 1) - 1)%nat with j in H2 by lia.
        rewrite <- H2 in Hv. eauto.
Qed.

Lemma motor_cells_covered (m : Matrix) (src : list Q) (I base : nat) :
  (forall a k v, (a < I / 2)%nat -> (k < 2)%nat ->
     src !! (base + a * 2 + k)%nat = Some v ->
     cell m a (I + k) = v /\ cell m (I - a - 1) (I + 2 - k - 1) = v) ->
  ((I mod 2 = 1)%nat ->
   forall v, src !! (base + I / 2 * 2)%nat = Some v ->
     cell m (I / 2) I = v /\ cell m (I / 2) (I + 2 - 1) = v) ->
  (base + I / 2 * 2 + (if (I mod 2 =? 1)%nat then 1 else 0)
   <= length src)%nat ->
  forall i k, (i < I)%nat -> (k < 2)%nat ->
    exists idx, src !! idx = Some (cell m i (I + k)).
Proof.
  intros HC HD Hlen i k Hi Hk.
  pose proof (half_le I) as HhI.
  destruct (decide (i < I / 2)%nat) as [Hlo|Hnlo].
  - destruct (lookup_lt_is_Some_2 src (base + i * 2 + k)) as [v Hv]; [lia|].
    destruct (HC i k v Hlo Hk Hv) as [<- _]. eauto.
  - destruct (decide (I - i - 1 < I / 2)%nat) as [Hhi|Hnhi].
    + destruct (lookup_lt_is_Some_2 src (base + (I - i - 1) * 2 + (1 - k)))
        as [v Hv]; [lia|].
      destruct (HC (I - i - 1)%nat (1 - k)%nat v Hhi ltac:(lia) Hv)
        as [_ H2].
      replace (I - (I - i - 1) - 1)%nat with i in H2 by lia.
      replace (I + 2 - (1 - k) - 1)%nat with (I + k)%nat in H2 by lia.
      rewrite <- H2 in Hv. eauto.
    + destruct (Nat.eqb_spec (I mod 2) 1) as [Hodd|Heven];
        [|pose proof (even_half I Heven); lia].
      pose proof (odd_half I Hodd) as HIo.
      assert (i = I / 2)%nat as -> by lia.
      destruct (lookup_lt_is_Some_2 src (base + I / 2 * 2)) as [v Hv]; [lia|].
      destruct (HD Hodd v Hv) as [H1 H2].
      assert (k = 0 \/ k = 1)%nat as [-> | ->] by lia.
      * rewrite Nat.add_0_r. rewrite <- H1 in Hv. eauto.
      * replace (I + 1)%nat with (I + 2 - 1)%nat by lia.
        rewrite <- H2 in Hv. eauto.
Qed.

Lemma vector_cells_covered (arr pars : list Q) (I : nat) :
  length arr = (I + 2)%nat ->
  (ceil_half I + 1 <= length pars)%nat ->
  (forall i, (i < ceil_half I)%nat ->
     arr !! i = pars !! i /\ arr !! (I - i - 1)%nat = pars !! i) ->
  arr !! I = pars !! ceil_half I ->
  arr !! (I + 1)%nat = pars !! ceil_half I ->
  forall i v, arr !! i = Some v -> exists k, pars !! k = Some v.
Proof.
  intros Hlen Hpl Hval Hm2 Hm1 i v Hv.
  pose proof (ceil_half_bounds I) as HcI.
  assert (i < I + 2)%nat as Hi
    by (rewrite <- Hlen; by apply lookup_lt_Some in Hv).
  destruct (decide (i < ceil_half I)%nat) as [Hlo|Hnlo].
  - destruct (Hval i Hlo) as [H1 _]. exists i. congruence.
  - destruct (decide (i < I)%nat) as [HiI|HiI].
    + destruct (Hval (I - i - 1)%nat ltac:(lia)) as [_ H2].
      replace (I - (I - i - 1) - 1)%nat with i in H2 by lia.
      exists (I - i - 1)%nat. congruence.
    + exists (ceil_half I).
      assert (i = I \/ i = I + 1)%nat as [-> | ->] by lia; congruence.
Qed.

Section DecodedRange.
Variable cfg : Config.
Variable x : list Q.
Variable ns : NervousSystem.

Let R := num_rays cfg.
Let I := num_interneurons cfg.
Let cs := circuit_size cfg.

Hypothesis Hlen : length x = num_parameters cfg.
Hypothesis Hs0 : min_search_value cfg == 0.
Hypothesis Hs1 : max_search_value cfg == 1.
Hypothesis Hsw0 : (R <= shape0 (sensor_weights ns))%nat.
Hypothesis Hsw1 : (I <= shape1 (sensor_weights ns))%nat.
Hypothesis Hcw0 : (I <= shape0 (circuit_weights ns))%nat.
Hypothesis Hcw1 : (cs <= shape1 (circuit_weights ns))%nat.

Lemma search_bounds_distinct :
  ~ max_search_value cfg == min_search_value cfg.
Proof. lra. Qed.

(** Every written entry is the decoded value of some genome entry. *)
Lemma decoded_cells_come_from_genome :
  exists ns',
    map_search_parameters cfg x ns = Ok ns'
    /\ (forall i j, (i < R)%nat -> (j < I)%nat ->
          exists k, decoded_value cfg (min_weight cfg) (max_weight cfg) x k
                      (cell (sensor_weights ns') i j))
    /\ (forall i j, (i < I)%nat -> (j < cs)%nat ->
          exists k, decoded_value cfg (min_weight cfg) (max_weight cfg) x k
                      (cell (circuit_weights ns') i j))
    /\ (forall i v, biases ns' !! i = Some v ->
          exists k, decoded_value cfg (min_bias cfg) (max_bias cfg) x k v)
    /\ (forall i v, time_constants ns' !! i = Some v ->
          exists k, decoded_value cfg (min_tau cfg) (max_tau cfg) x k v).
Proof.
  pose proof search_bounds_distinct as Hsearch.
  assert (cs = I + 2)%nat as Hcsd by reflexivity.
  destruct (bilateral_symmetry cfg) eqn:Hsym.
  - destruct (sym_decode_cells cfg x ns Hsym Hlen Hsearch Hsw0 Hsw1 Hcw0 Hcw1)
      as (sp & cp & bp & tp & ns'
          & (Hsp & Hcp & Hbp & Htp) & (_ & _ & _ & _ & Hrun)
          & (_ & _ & _ & _ & Hbl & Htl)
          & (HsA & HsB) & (HcA & HcB & HcC & HcD)
          & (Hbv & Hbm2 & Hbm1) & (Htv & Htm2 & Htm1)).
    fold R I cs in HsA, HsB, HcA, HcB, HcC, HcD, Hbv, Hbm2, Hbm1,
      Htv, Htm2, Htm1, Hbl, Htl.
    pose proof (half_le I) as HhI.
    pose proof (ceil_half_bounds I) as HcI.
    pose proof Hsp as (_ & Hspl & _). pose proof Hcp as (_ & Hcpl & _).
    pose proof Hbp as (_ & Hbpl & _). pose proof Htp as (_ & Htpl & _).
    rewrite (num_sensor_weights_sym cfg Hsym) in Hspl.
    rewrite (num_circuit_weights_sym cfg Hsym) in Hcpl.
    fold R I in Hspl, Hcpl, Hbpl, Htpl.
    unfold sym_sensor_count in Hspl.
    unfold sym_circuit_count in Hcpl.
    exists ns'. split; [done|]. split; [|split; [|split]].
    + intros i j Hi Hj.
      destruct (mirror_cells_covered (sensor_weights ns') sp R I HsA HsB
                  ltac:(lia) i j Hi Hj) as [k Hk].
      eexists. by apply (segment_value _ _ _ _ _ _ _ _ _ Hsp Hk).
    + intros i j Hi Hj.
      destruct (decide (j < I)%nat) as [HjI|HjI].
      * destruct (mirror_cells_covered (circuit_weights ns') cp I I HcA HcB)
          with (i := i) (j := j) as [k Hk]; [|done|done|].
        { unfold sym_block_count in Hcpl.
          destruct (I mod 2 =? 1)%nat; lia. }
        eexists. by apply (segment_value _ _ _ _ _ _ _ _ _ Hcp Hk).
      * destruct (motor_cells_covered (circuit_weights ns') cp I
                    (sym_block_count I))
          with (i := i) (k := (j - I)%nat) as [k Hk]; [| | |done|lia|].
        { intros a k v Ha Hk Hv. rewrite <- Hcsd. by apply HcC. }
        { intros Hodd v Hv. rewrite <- Hcsd. by apply HcD. }
        { lia. }
        replace (I + (j - I))%nat with j in Hk by lia.
        eexists. by apply (segment_value _ _ _ _ _ _ _ _ _ Hcp Hk).
    + intros i v Hv.
      destruct (vector_cells_covered (biases ns') bp I) with (i := i) (v := v)
        as [k Hk]; [lia|lia|done| | |done|].
      { by replace I with (cs - 2)%nat at 1 by lia. }
      { by replace (I + 1)%nat with (cs - 1)%nat by lia. }
      eexists. by apply (segment_value _ _ _ _ _ _ _ _ _ Hbp Hk).
    + intros i v Hv.
      destruct (vector_cells_covered (time_constants ns') tp I)
        with (i := i) (v := v)
        as [k Hk]; [lia|lia|done| | |done|].
      { by replace I with (cs - 2)%nat at 1 by lia. }
      { by replace (I + 1)%nat with (cs - 1)%nat by lia. }
      eexists. by apply (segment_value _ _ _ _ _ _ _ _ _ Htp Hk).
  - assert (num_sensor_weights cfg + num_circuit_weights cfg
            <= length x)%nat as Hlong.
    { rewrite Hlen. unfold num_parameters. rewrite Hsym. lia. }
    destruct (asym_decode_long cfg x ns Hsym Hsearch Hsw0 Hsw1 Hcw0 Hcw1
                Hlong)
      as (ns' & Hrun & _ & Hsv & Hcv & Hcm & _ & _ & (_ & Hb) & (_ & Ht)).
    fold R I cs in Hsv, Hcv, Hcm.
    exists ns'. split; [done|]. split; [|split; [|split]].
    + intros i j Hi Hj. eexists. by apply Hsv.
    + intros i j Hi Hj.
      destruct (decide (j < I)%nat) as [HjI|HjI].
      * eexists. by apply Hcv.
      * replace j with (I + (j - I))%nat by lia.
        eexists. apply Hcm; lia.
    + intros i v Hv.
      destruct (Hb i) as (v' & Hv' & Hdec);
        [by apply lookup_lt_Some in Hv|].
      eexists. rewrite Hv in Hv'. injection Hv' as <-. done.
    + intros i v Hv.
      destruct (Ht i) as (v' & Hv' & Hdec);
        [by apply lookup_lt_Some in Hv|].
      eexists. rewrite Hv in Hv'. injection Hv' as <-. done.
Qed.

End DecodedRange.

(** X10: computed in binary64, in both modes, with the unit search range
    and lower bounds that are floats, a genome of [num_parameters]
    arbitrary values decodes into weights, biases and time constants that
    lie between the lower bound of their kind and the image of its upper
    bound ([rescaled_top]); for whole bounds up to [2^52], as the default
    ones, that image is the upper bound itself. *)
Theorem decoded_parameters_in_range (cfg : Config) (x : list Q)
    (ns : NervousSystem) :
  length x = num_parameters cfg ->
  min_search_value cfg == 0 ->
  max_search_value cfg == 1 ->
  min_weight cfg <= max_weight cfg ->
  min_bias cfg <= max_bias cfg ->
  min_tau cfg <= max_tau cfg ->
  round64 (min_weight cfg) == min_weight cfg ->
  round64 (min_bias cfg) == min_bias cfg ->
  round64 (min_tau cfg) == min_tau cfg ->
  (num_rays cfg <= shape0 (sensor_weights ns))%nat ->
  (num_interneurons cfg <= shape1 (sensor_weights ns))%nat ->
  (num_interneurons cfg <= shape0 (circuit_weights ns))%nat ->
  (circuit_size cfg <= shape1 (circuit_weights ns))%nat ->
  (exists ns',
     map_search_parameters cfg x ns = Ok ns'
     /\ (forall i j,
           (i < num_rays cfg)%nat -> (j < num_interneurons cfg)%nat ->
           min_weight cfg <= cell (sensor_weights ns') i j
           /\ cell (sensor_weights ns') i j
              <= rescaled_top (min_weight cfg) (max_weight cfg))
     /\ (forall i j,
           (i < num_interneurons cfg)%nat -> (j < circuit_size cfg)%nat ->
           min_weight cfg <= cell (circuit_weights ns') i j
           /\ cell (circuit_weights ns') i j
              <= rescaled_top (min_weight cfg) (max_weight cfg))
     /\ (forall i v, biases ns' !! i = Some v ->
           min_bias cfg <= v
           /\ v <= rescaled_top (min_bias cfg) (max_bias cfg))
     /\ (forall i v, time_constants ns' !! i = Some v ->
           min_tau cfg <= v
           /\ v <= rescaled_top (min_tau cfg) (max_tau cfg)))
  /\ forall zl zh : Z,
       (Z.abs zl <= 2 ^ 52)%Z -> (Z.abs zh <= 2 ^ 52)%Z -> (zl <= zh)%Z ->
       rescaled_top (inject_Z zl) (inject_Z zh) == inject_Z zh.
Proof.
  intros Hlen Hs0 Hs1 Hw Hb Ht Hrw Hrb Hrt Hsw0 Hsw1 Hcw0 Hcw1. split.
  - destruct (decoded_cells_come_from_genome cfg x ns Hlen Hs0 Hs1
                Hsw0 Hsw1 Hcw0 Hcw1)
      as (ns' & Hrun & Hs & Hc & Hbv & Htv).
    exists ns'. split; [done|]. split; [|split; [|split]].
    + intros i j Hi Hj. destruct (Hs i j Hi Hj) as [k Hk].
      by apply (decoded_value_range cfg _ _ x k).
    + intros i j Hi Hj. destruct (Hc i j Hi Hj) as [k Hk].
      by apply (decoded_value_range cfg _ _ x k).
    + intros i v Hv. destruct (Hbv i v Hv) as [k Hk].
      by apply (decoded_value_range cfg _ _ x k).
    + intros i v Hv. destruct (Htv i v Hv) as [k Hk].
      by apply (decoded_value_range cfg _ _ x k).
  - intros zl zh Hl Hh Hle.
    by destruct (rescale_parameter_whole_bounds zl zh Hl Hh Hle).
Qed.

Lemma decoded_parameters_in_range_witness :
  exists ns',
    map_search_parameters symmetric_defaults (ramp_genome 25)
      (blank_nervous_system symmetric_defaults) = Ok ns'
    /\ forall i v, time_constants ns' !! i = Some v ->
         1 <= v /\ v <= rescaled_top 1 30.
Proof.
  destruct (decoded_parameters_in_range symmetric_defaults (ramp_genome 25)
              (blank_nervous_system symmetric_defaults))
    as ((ns' & Hrun & _ & _ & _ & Ht) & _);
    [ reflexivity | reflexivity | reflexivity | discriminate
    | discriminate | discriminate
    | reflexivity | reflexivity | reflexivity
    | vm_compute; lia | vm_compute; lia | vm_compute; lia
    | vm_compute; lia | ].
  exists ns'. split; [exact Hrun | exact Ht].
Defined.

(** ** What the decoder leaves untouched *)

Section SymFrame.
Variable cfg : Config.
Variable x : list Q.
Variable ns : NervousSystem.

Let R := num_rays cfg.
Let I := num_interneurons cfg.
Let cs := circuit_size cfg.
Let n_s := num_sensor_weights cfg.
Let n_c := num_circuit_weights cfg.
Let n_v := (ceil_half I + 1)%nat.

Hypothesis Hsym : bilateral_symmetry cfg = true.
Hypothesis Hsearch : ~ max_search_value cfg == min_search_value cfg.
Hypothesis Hsw0 : (R <= shape0 (sensor_weights ns))%nat.
Hypothesis Hsw1 : (I <= shape1 (sensor_weights ns))%nat.
Hypothesis Hcw0 : (I <= shape0 (circuit_weights ns))%nat.
Hypothesis Hcw1 : (cs <= shape1 (circuit_weights ns))%nat.
Hypothesis HI : (1 <= I)%nat.

Lemma sym_decode_frame (ns' : NervousSystem) :
  map_search_parameters cfg x ns = Ok ns' ->
  (shape0 (sensor_weights ns') = shape0 (sensor_weights ns)
   /\ shape1 (sensor_weights ns') = shape1 (sensor_weights ns)
   /\ shape0 (circuit_weights ns') = shape0 (circuit_weights ns)
   /\ shape1 (circuit_weights ns') = shape1 (circuit_weights ns))
  /\ (forall a b, ~ ((a < R)%nat /\ (b < I)%nat) ->
        cell (sensor_weights ns') a b = cell (sensor_weights ns) a b)
  /\ (forall a b, ~ ((a < I)%nat /\ (b < cs)%nat) ->
        cell (circuit_weights ns') a b = cell (circuit_weights ns) a b)
  /\ length (biases ns') = cs
  /\ length (time_constants ns') = cs.
Proof.
  intros Hrun.
  assert (num_parameters cfg - 1 <= length x)%nat as Hlen
    by (eapply sym_decode_ok_length; eassumption).
  pose proof (num_parameters_sym cfg Hsym) as Hnp.
  fold I n_s n_c n_v in Hnp. rewrite Hnp in Hlen.
  pose proof (ceil_half_bounds I) as HcI.
  assert (1 <= ceil_half I)%nat as Hc1 by lia.
  revert Hrun.
  unfold map_search_parameters. rewrite Hsym.
  unfold map_search_parameters_symmetric. cbv zeta.
  rewrite (ceil_half_circuit_size cfg). fold I n_s n_c n_v.
  intros Hrun.
  apply bind_ok in Hrun as (sp & Hsp & Hrun).
  apply bind_ok in Hrun as (r1 & Hr1 & Hrun).
  apply bind_ok in Hrun as (cp & Hcp & Hrun).
  apply bind_ok in Hrun as (r2 & Hr2 & Hrun).
  apply bind_ok in Hrun as (bp & _ & Hrun).
  apply bind_ok in Hrun as (b' & Hb' & Hrun).
  apply bind_ok in Hrun as (tp & _ & Hrun).
  apply bind_ok in Hrun as (t' & Ht' & Hrun).
  injection Hrun as <-.
  cbn [set_time_constants set_biases set_circuit_weights set_sensor_weights
       sensor_weights circuit_weights biases time_constants] in *.
  destruct (segment_decodes_intro cfg x 0 n_s (min_weight cfg)
              (max_weight cfg) Hsearch) as (sp' & Hsp' & Hspl & _); [lia|].
  rewrite Nat.add_0_l in Hsp'. rewrite Hsp in Hsp'. injection Hsp' as <-.
  destruct (segment_decodes_intro cfg x n_s n_c (min_weight cfg)
              (max_weight cfg) Hsearch) as (cp' & Hcp' & Hcpl & _); [lia|].
  rewrite Hcp in Hcp'. injection Hcp' as <-.
  destruct (sym_place_sensor_spec cfg sp (sensor_weights ns))
    as (sw' & Hsw' & Hs0 & Hs1 & _ & _ & Hsf); [done|done| |].
  { rewrite Hspl. fold R I.
    unfold n_s. by rewrite (num_sensor_weights_sym cfg Hsym). }
  rewrite Hr1 in Hsw'. injection Hsw' as ->.
  destruct (sym_place_circuit_spec cfg cp (circuit_weights ns))
    as (cw' & Hcw' & Hc0 & Hc1' & _ & _ & _ & _ & Hcf); [done|done| |].
  { rewrite Hcpl. fold I.
    unfold n_c. by rewrite (num_circuit_weights_sym cfg Hsym). }
  rewrite Hr2 in Hcw'. injection Hcw' as ->.
  cbn [fst].
  assert (forall pars arr, sym_place_vector cfg pars = Ok arr ->
            length arr = cs) as Hvec.
  { intros pars arr Harr.
    pose proof Harr as Hl.
    apply sym_place_vector_ok_length in Hl as [Hl1 Hl2].
    destruct (sym_place_vector_gen cfg pars Hl1 Hl2)
      as (arr' & Harr' & Hl & _).
    rewrite Harr in Harr'. injection Harr' as <-. exact Hl. }
  split; [done|]. split; [done|]. split; [done|].
  split; [by apply (Hvec bp) | by apply (Hvec tp)].
Qed.

End SymFrame.

(** X11: whenever [map_search_parameters] returns, both weight arrays keep
    their shapes, the sensor weights outside the [num_rays] by
    [num_interneurons] block are unchanged, and so are the circuit weights
    outside the first [num_interneurons] rows and [circuit_size] columns:
    the outgoing weights of the two motor units (rows [num_interneurons]
    and [num_interneurons + 1]) are never written.  With bilateral symmetry
    the bias and time-constant arrays are rebuilt with exactly
    [circuit_size] entries. *)
Theorem decoder_frame (cfg : Config) (x : list Q) (ns ns' : NervousSystem) :
  ~ max_search_value cfg == min_search_value cfg ->
  (num_rays cfg <= shape0 (sensor_weights ns))%nat ->
  (num_interneurons cfg <= shape1 (sensor_weights ns))%nat ->
  (num_interneurons cfg <= shape0 (circuit_weights ns))%nat ->
  (circuit_size cfg <= shape1 (circuit_weights ns))%nat ->
  (bilateral_symmetry cfg = true -> (1 <= num_interneurons cfg)%nat) ->
  map_search_parameters cfg x ns = Ok ns' ->
  (shape0 (sensor_weights ns') = shape0 (sensor_weights ns)
   /\ shape1 (sensor_weights ns') = shape1 (sensor_weights ns)
   /\ shape0 (circuit_weights ns') = shape0 (circuit_weights ns)
   /\ shape1 (circuit_weights ns') = shape1 (circuit_weights ns))
  /\ (forall a b,
        ~ ((a < num_rays cfg)%nat /\ (b < num_interneurons cfg)%nat) ->
        cell (sensor_weights ns') a b = cell (sensor_weights ns) a b)
  /\ (forall a b,
        ~ ((a < num_interneurons cfg)%nat /\ (b < circuit_size cfg)%nat) ->
        cell (circuit_weights ns') a b = cell (circuit_weights ns) a b)
  /\ (forall b k, (k < 2)%nat ->
        cell (circuit_weights ns') (num_interneurons cfg + k) b
        = cell (circuit_weights ns) (num_interneurons cfg + k) b)
  /\ (bilateral_symmetry cfg = true ->
      length (biases ns') = circuit_size cfg
      /\ length (time_constants ns') = circuit_size cfg).
Proof.
  intros Hsearch Hsw0 Hsw1 Hcw0 Hcw1 HI Hrun.
  destruct (bilateral_symmetry cfg) eqn:Hsym.
  - destruct (sym_decode_frame cfg x ns Hsym Hsearch Hsw0 Hsw1 Hcw0 Hcw1
                (HI eq_refl) ns' Hrun) as (Hsh & Hsf & Hcf & Hbl & Htl).
    split; [done|]. split; [done|]. split; [done|].
    split; [|done].
    intros b k Hk. apply Hcf. lia.
  - assert (num_sensor_weights cfg + num_circuit_weights cfg
            <= length x)%nat as Hlong
      by (eapply asym_decode_ok_length; eassumption).
    destruct (asym_decode_long cfg x ns Hsym Hsearch Hsw0 Hsw1 Hcw0 Hcw1
                Hlong)
      as (ns2 & Hrun2 & Hsh & _ & _ & _ & Hsf & Hcf & _).
    rewrite Hrun in Hrun2. injection Hrun2 as <-.
    split; [done|]. split; [done|]. split; [done|].
    split; [|discriminate].
    intros b k Hk. apply Hcf. lia.
Qed.

Lemma decoder_frame_witness :
  exists ns',
    map_search_parameters symmetric_defaults (ramp_genome 25)
      (blank_nervous_system symmetric_defaults) = Ok ns'
    /\ forall b k, (k < 2)%nat ->
         cell (circuit_weights ns') (3 + k) b
         = cell (circuit_weights (blank_nervous_system symmetric_defaults))
             (3 + k) b.
Proof.
  destruct (map_search_parameters symmetric_defaults (ramp_genome 25)
              (blank_nervous_system symmetric_defaults)) as [ns'|e] eqn:Hrun;
    [|vm_compute in Hrun; discriminate Hrun].
  exists ns'. split; [reflexivity|].
  destruct (decoder_frame symmetric_defaults (ramp_genome 25)
              (blank_nervous_system symmetric_defaults) ns')
    as (_ & _ & _ & Hm & _);
    [ discriminate | vm_compute; lia | vm_compute; lia | vm_compute; lia
    | vm_compute; lia | intros _; vm_compute; lia | exact Hrun | ].
  exact Hm.
Defined.

(** ** Which cells the fitness reduction reads, and what it returns *)

Lemma for_loop_ext {S : Type} (body body' : nat -> S -> Res S) (n lo : nat)
    (s : S) :
  (forall i t, (lo <= i < lo + n)%nat -> body i t = body' i t) ->
  for_loop lo n body s = for_loop lo n body' s.
Proof.
  revert lo s. induction n as [|n IH]; intros lo s Hext; [reflexivity|].
  cbn [for_loop]. rewrite (Hext lo s) by lia.
  destruct (body' lo s) as [t|e]; [|reflexivity]. cbn [bind].
  apply IH. intros i u Hi. apply Hext. lia.
Qed.

Lemma for_range_ext {S : Type} (body body' : nat -> S -> Res S) (lo hi : nat)
    (s : S) :
  (forall i t, (lo <= i < hi)%nat -> body i t = body' i t) ->
  for_range lo hi body s = for_range lo hi body' s.
Proof.
  intros Hext. unfold for_range. apply for_loop_ext.
  intros i t Hi. apply Hext. lia.
Qed.

Lemma mget_ext (m m' : Matrix) (i j : nat) :
  shape0 m = shape0 m' -> shape1 m = shape1 m' ->
  cell m i j = cell m' i j ->
  mget m i j = mget m' i j.
Proof.
  intros H0 H1 Hc. unfold mget, in_shape. by rewrite H0, H1, Hc.
Qed.

Lemma mget_ok_inv (m : Matrix) (i j : nat) (v : Q) :
  mget m i j = Ok v -> (i < shape0 m)%nat /\ (j < shape1 m)%nat.
Proof.
  unfold mget, in_shape. intros H.
  destruct (Nat.ltb_spec i (shape0 m)); [|discriminate H].
  destruct (Nat.ltb_spec j (shape1 m)); [lia|discriminate H].
Qed.

Lemma py_div_zero (a : Q) (r : Q) : py_div a (inject_Z 0) = Ok r -> False.
Proof. unfold py_div. cbn. discriminate. Qed.

(** X12: [eval_fitness] reads neither the diagonal nor the two corner
    cells [[0, n-1]] and [[n-1, 0]]: two matrices of the same shape that
    agree on every off-diagonal cell whose row or column is an interior
    index give the same result, error cases included. *)
Theorem eval_fitness_ignores_diagonal_and_corners (m m' : Matrix) :
  shape0 m = shape0 m' ->
  shape1 m = shape1 m' ->
  (forall i j, i <> j ->
     (1 <= i < shape0 m - 1)%nat \/ (1 <= j < shape0 m - 1)%nat ->
     cell m i j = cell m' i j) ->
  eval_fitness m = eval_fitness m'.
Proof.
  intros H0 H1 Hcell. unfold eval_fitness. rewrite <- H0, <- H1.
  f_equal. apply for_range_ext. intros i [col_avg row_avg] Hi.
  f_equal. apply for_range_ext. intros j st Hj.
  destruct st as [[[[ca ra] col_sum] row_sum] num_sums].
  destruct (Nat.eqb_spec i j) as [Heq|Hne]; [reflexivity|].
  rewrite (mget_ext m m' j i H0 H1) by (apply Hcell; [congruence|lia]).
  rewrite (mget_ext m m' i j H0 H1) by (apply Hcell; [congruence|lia]).
  reflexivity.
Qed.

Lemma eval_fitness_ignores_diagonal_and_corners_witness :
  eval_fitness (off_diagonal_matrix 4 (1 # 2))
  = eval_fitness {| shape0 := 4; shape1 := 4;
                    cell := fun i j =>
                      if (i =? j)%nat then 7
                      else if (i + j =? 3)%nat && ((i =? 0)%nat || (j =? 0)%nat)
                      then 9 else 1 # 2 |}.
Proof.
  apply eval_fitness_ignores_diagonal_and_corners;
    [reflexivity | reflexivity |].
  intros i j Hne Hin. cbn [shape0 off_diagonal_matrix cell] in *.
  destruct (Nat.eqb_spec i j) as [|_]; [contradiction|].
  destruct (Nat.eqb_spec (i + j) 3) as [Hs|]; [|reflexivity].
  destruct (Nat.eqb_spec i 0) as [|_]; [lia|].
  destruct (Nat.eqb_spec j 0) as [|_]; [lia|]. reflexivity.
Defined.

(** *** The result stays in the unit interval *)

Lemma Qsum_bounds (f : nat -> Q) (a len : nat) (lo hi : Q) :
  (forall k, (a <= k < a + len)%nat -> lo <= f k /\ f k <= hi) ->
  inject_Z (Z.of_nat len) * lo <= Qsum (f <$> seq a len)
  /\ Qsum (f <$> seq a len) <= inject_Z (Z.of_nat len) * hi.
Proof.
  induction len as [|len IH]; intros Hf.
  - change (inject_Z (Z.of_nat 0)) with 0.
    change (Qsum (f <$> seq a 0)) with 0. split; lra.
  - destruct IH as [IHl IHh]; [intros k Hk; apply Hf; lia|].
    destruct (Hf (a + len)%nat) as [Hl Hh]; [lia|].
    rewrite Qsum_seq_succ, inject_nat_succ. split; nra.
Qed.

Lemma segment_mean_bounds (f : nat -> Q) (a b : nat) (lo hi : Q) :
  (a < b)%nat ->
  (forall k, (a <= k < b)%nat -> lo <= f k /\ f k <= hi) ->
  lo <= segment_mean f a b /\ segment_mean f a b <= hi.
Proof.
  intros Hab Hf. unfold segment_mean.
  destruct (Qsum_bounds f a (b - a) lo hi) as [Hl Hh];
    [intros k Hk; apply Hf; lia|].
  pose proof (inject_nat_pos (b - a) ltac:(lia)) as Hpos.
  split.
  - apply Qle_shift_div_l; [done|]. lra.
  - apply Qle_shift_div_r; [done|]. lra.
Qed.

Lemma mean_of_scores_bounds (f : nat -> Q) (k : nat) (lo hi : Q) :
  (1 <= k)%nat ->
  (forall i, (1 <= i < 1 + k)%nat -> 2 * lo <= f i /\ f i <= 2 * hi) ->
  lo <= Qsum (f <$> seq 1 k) / inject_Z (Z.of_nat k) / 2
  /\ Qsum (f <$> seq 1 k) / inject_Z (Z.of_nat k) / 2 <= hi.
Proof.
  intros Hk Hf.
  destruct (Qsum_bounds f 1 k (2 * lo) (2 * hi) Hf) as [Hl Hh].
  pose proof (inject_nat_pos k Hk) as Hpos.
  split.
  - apply Qle_shift_div_l; [lra|]. apply Qle_shift_div_l; [done|]. lra.
  - apply Qle_shift_div_r; [lra|]. apply Qle_shift_div_r; [done|]. lra.
Qed.

Lemma fitness_formula_bounds (m : Matrix) (n : nat) (lo hi : Q) :
  (3 <= n)%nat ->
  shape0 m = n ->
  shape1 m = n ->
  (forall i j, (i < n)%nat -> (j < n)%nat -> i <> j ->
     lo <= cell m i j /\ cell m i j <= hi) ->
  lo <= fitness_formula m /\ fitness_formula m <= hi.
Proof.
  intros Hn Hs0 Hs1 Hcell. unfold fitness_formula.
  rewrite Hs0. cbv zeta.
  assert (forall i, (1 <= i < 1 + (n - 2))%nat ->
            2 * lo <= column_score m i /\ column_score m i <= 2 * hi)
    as Hcol.
  { intros i Hi. unfold column_score. rewrite Hs1.
    destruct (segment_mean_bounds (fun j => cell m j i) 0 i lo hi)
      as [? ?]; [lia|intros k Hk; apply Hcell; lia|].
    destruct (segment_mean_bounds (fun j => cell m j i) (i + 1) n lo hi)
      as [? ?]; [lia|intros k Hk; apply Hcell; lia|].
    split; lra. }
  assert (forall i, (1 <= i < 1 + (n - 2))%nat ->
            2 * lo <= row_score m i /\ row_score m i <= 2 * hi)
    as Hrow.
  { intros i Hi. unfold row_score. rewrite Hs1.
    destruct (segment_mean_bounds (fun j => cell m i j) 0 i lo hi)
      as [? ?]; [lia|intros k Hk; apply Hcell; lia|].
    destruct (segment_mean_bounds (fun j => cell m i j) (i + 1) n lo hi)
      as [? ?]; [lia|intros k Hk; apply Hcell; lia|].
    split; lra. }
  destruct (mean_of_scores_bounds (column_score m) (n - 2) lo hi
              ltac:(lia) Hcol) as [Hc1 Hc2].
  destruct (mean_of_scores_bounds (row_score m) (n - 2) lo hi
              ltac:(lia) Hrow) as [Hr1 Hr2].
  split.
  - by apply Q.min_glb.
  - eapply Qle_trans; [apply Q.le_min_l|done].
Qed.

(** X13: on a square matrix with at least three rows whose off-diagonal
    entries lie in [[0, 1]], [eval_fitness] returns a value in
    [[0, 1]]. *)
Theorem eval_fitness_within_entries (m : Matrix) (n : nat) :
  (3 <= n)%nat ->
  shape0 m = n ->
  shape1 m = n ->
  (forall i j, (i < n)%nat -> (j < n)%nat -> i <> j ->
     0 <= cell m i j /\ cell m i j <= 1) ->
  exists v, eval_fitness m = Ok v /\ 0 <= v /\ v <= 1.
Proof.
  intros Hn Hs0 Hs1 Hcell.
  destruct (eval_fitness_closed_form m n Hn Hs0 Hs1) as (v & Hv & Ev).
  destruct (fitness_formula_bounds m n 0 1 Hn Hs0 Hs1 Hcell) as [Hl Hh].
  exists v. split; [done|]. rewrite Ev. by split.
Qed.

Lemma eval_fitness_within_entries_witness :
  exists v,
    eval_fitness {| shape0 := 4; shape1 := 4;
                    cell := fun i j =>
                      if (i <? j)%nat then 1 else 1 # 4 |} = Ok v
    /\ 0 <= v /\ v <= 1.
Proof.
  apply (eval_fitness_within_entries _ 4);
    [lia | reflexivity | reflexivity |].
  intros i j _ _ _. cbn [cell].
  destruct (i <? j)%nat; split; discriminate.
Defined.

(** *** Matrices that are not square *)

Lemma eval_fitness_inner_count (m : Matrix) (i hi : nat)
    (st0 st : Q * Q * Q * Q * Z) :
  for_range 0 hi (fun j st =>
      let '(col_avg, row_avg, col_sum, row_sum, num_sums) := st in
      if (i =? j)%nat then
        c <- py_div col_sum (inject_Z num_sums) ;;
        let col_avg := col_avg + c in
        r <- py_div row_sum (inject_Z num_sums) ;;
        let row_avg := row_avg + r in
        Ok (col_avg, row_avg, 0, 0, 0%Z)
      else
        let num_sums := (num_sums + 1)%Z in
        c <- mget m j i ;;
        let col_sum := col_sum + c in
        r <- mget m i j ;;
        let row_sum := row_sum + r in
        Ok (col_avg, row_avg, col_sum, row_sum, num_sums)) st0 = Ok st ->
  (i < hi)%nat ->
  snd st = Z.of_nat (hi - i - 1).
Proof.
  intros Hrun Hi. unfold for_range in Hrun.
  apply (for_loop_inv_ok
           (fun j (st : Q * Q * Q * Q * Z) =>
              (i < j)%nat -> snd st = Z.of_nat (j - i - 1))) in Hrun.
  - by rewrite Nat.add_0_l, Nat.sub_0_r in Hrun.
  - lia.
  - intros j [[[[ca ra] cs] rs] k] t' Hj HP Hbody Hij.
    destruct (Nat.eqb_spec i j) as [->|Hne].
    + apply bind_ok in Hbody as (c & _ & Hbody).
      apply bind_ok in Hbody as (r & _ & Hbody).
      injection Hbody as <-. cbn [snd]. lia.
    + apply bind_ok in Hbody as (c & _ & Hbody).
      apply bind_ok in Hbody as (r & _ & Hbody).
      injection Hbody as <-. cbn [snd] in *. rewrite HP by lia. lia.
  - lia.
Qed.

(** X14: with at least three rows, [eval_fitness] returns a value only on
    a square matrix; on every other shape it raises (an index out of
    range, or a mean over an empty segment). *)
Theorem eval_fitness_needs_square (m : Matrix) (v : Q) :
  (3 <= shape0 m)%nat ->
  eval_fitness m = Ok v ->
  shape1 m = shape0 m.
Proof.
  intros Hn Hrun. unfold eval_fitness in Hrun.
  apply bind_ok in Hrun as (acc & Hout & _).
  destruct (decide (shape1 m = shape0 m)) as [|Hne]; [done|exfalso].
  destruct (decide (shape0 m < shape1 m)%nat) as [Hwide|Hnarrow].
  - destruct (for_range_ok_body _ _ _ _ _ Hout 1%nat ltac:(lia))
      as ([ca ra] & t' & Hbody).
    apply bind_ok in Hbody as (st & Hin & _).
    destruct (for_range_ok_body _ _ _ _ _ Hin (shape0 m) ltac:(lia))
      as ([[[[ca' ra'] cs] rs] k] & u' & Hj).
    destruct (Nat.eqb_spec 1 (shape0 m)) as [|_]; [lia|].
    apply bind_ok in Hj as (c & Hc & _).
    apply mget_ok_inv in Hc. lia.
  - destruct (for_range_ok_body _ _ _ _ _ Hout (shape0 m - 2)%nat
                ltac:(lia)) as ([ca ra] & t' & Hbody).
    apply bind_ok in Hbody as (st & Hin & Hrest).
    destruct (decide (shape1 m = 0)%nat) as [Hz|Hnz].
    + rewrite Hz in Hin. cbn in Hin. injection Hin as <-.
      apply bind_ok in Hrest as (c & Hc & _).
      by apply py_div_zero in Hc.
    + destruct (decide (shape1 m <= shape0 m - 2)%nat) as [Hle|Hgt].
      * destruct (for_range_ok_body _ _ _ _ _ Hin 0%nat ltac:(lia))
          as ([[[[ca' ra'] cs] rs] k] & u' & Hj).
        destruct (Nat.eqb_spec (shape0 m - 2) 0) as [|_]; [lia|].
        apply bind_ok in Hj as (c & Hc & _).
        apply mget_ok_inv in Hc. lia.
      * pose proof (eval_fitness_inner_count m _ _ _ _ Hin ltac:(lia))
          as Hk.
        destruct st as [[[[ca' ra'] cs] rs] k]. cbn [snd] in Hk.
        replace (shape1 m - (shape0 m - 2) - 1)%nat with 0%nat in Hk by lia.
        subst k.
        apply bind_ok in Hrest as (c & Hc & _).
        by apply py_div_zero in Hc.
Qed.

Lemma eval_fitness_needs_square_witness :
  exists v,
    eval_fitness (off_diagonal_matrix 4 (1 # 2)) = Ok v
    /\ shape1 (off_diagonal_matrix 4 (1 # 2))
       = shape0 (off_diagonal_matrix 4 (1 # 2)).
Proof.
  destruct (eval_fitness (off_diagonal_matrix 4 (1 # 2))) as [v|e] eqn:Hrun;
    [|vm_compute in Hrun; discriminate Hrun].
  exists v. split; [reflexivity|].
  apply (eval_fitness_needs_square _ v); [vm_compute; lia | exact Hrun].
Defined.

(** ** The two drops of a trial *)

Section TrialLoops.
Context {Agent Ball Ctrl : Type}.
Context `{SA : SensorAgent Agent Ball Ctrl} `{CI : Circle Ball}.

Variable cfg : Config.

Let top (a : Agent) : Q := agent_ypos a - agent_radius_of a.



Lemma trial_run_more_fuel (fuel fuel' : nat) (p c : Q) (record : bool)
    (w w' : World Agent Ball) :
  (fuel <= fuel')%nat ->
  trial_run fuel cfg p c record w = Ok w' ->
  trial_run fuel' cfg p c record w = Ok w'.
Proof.
  intros Hle Hrun. unfold trial_run in *.
  apply bind_ok in Hrun as (w0 & -> & Hrun). cbn [bind].
  apply bind_ok in Hrun as (w1 & Hd1 & Hd2).
  rewrite (drop_presented_more_fuel cfg record fuel fuel' w0 w1 Hle Hd1).
  cbn [bind].
  by apply (drop_comparison_more_fuel cfg record fuel fuel').
Qed.

Lemma trial_more_fuel (fuel fuel' : nat) (p c : Q) (record validation : bool)
    (w : World Agent Ball) (r : TrialResult * World Agent Ball) :
  (fuel <= fuel')%nat ->
  trial fuel cfg p c record validation w = Ok r ->
  trial fuel' cfg p c record validation w = Ok r.
Proof.
  intros Hle Hrun. unfold trial in *.
  apply bind_ok in Hrun as (w' & Hw' & Hrun).
  by rewrite (trial_run_more_fuel fuel fuel' p c record w w' Hle Hw').
Qed.

End TrialLoops.



(** X16: if every step of the ball lowers its leading edge by at least
    [delta > 0] and neither a step nor the clipping moves the top of the
    agent, then both drops end: for every pair of diameters and every
    starting state there is a number of steps from which [trial] returns,
    always with the same result (for a nonzero [max_distance]).  With
    [record] the agent must also never carry more rays than it has when
    its sensors are initialised, for which the first snapshot makes the
    lists; otherwise the recording raises [KeyError]. *)
Theorem trial_terminates {Agent Ball Ctrl : Type}
    `{SA : SensorAgent Agent Ball Ctrl} `{CI : Circle Ball}
    (cfg : Config) (delta presented comparison : Q)
    (record validation : bool) (slots : nat) (w : World Agent Ball) :
  0 < delta ->
  (forall b : Ball,
     ball_leading_edge_y b + delta
     <= ball_leading_edge_y (ball_step (step_size cfg) b)) ->
  (forall (b : Ball) (frozen : bool) (a : Agent),
     agent_ypos (agent_one_obj_step (step_size cfg) b frozen a)
     - agent_radius_of (agent_one_obj_step (step_size cfg) b frozen a)
     == agent_ypos a - agent_radius_of a) ->
  (forall a : Agent,
     agent_ypos (agent_clip_position (world_left cfg) (world_right cfg) a)
     - agent_radius_of
         (agent_clip_position (world_left cfg) (world_right cfg) a)
     == agent_ypos a - agent_radius_of a) ->
  (record = true ->
   (forall (b : Ball) (a : Agent),
      length (agent_rays (agent_initialize_ray_sensors b a)) = slots)
   /\ (forall (b : Ball) (frozen : bool) (a : Agent),
         (length (agent_rays (agent_one_obj_step (step_size cfg) b frozen a))
          <= slots)%nat)
   /\ (forall a : Agent,
         (length (agent_rays
                    (agent_clip_position (world_left cfg) (world_right cfg)
                       a))
          <= length (agent_rays a))%nat)) ->
  ~ max_distance cfg == 0 ->
  exists steps r w',
    forall fuel, (steps <= fuel)%nat ->
      trial fuel cfg presented comparison record validation w = Ok (r, w').
Proof.
  intros Hdelta Hfall Hstep Hclip Hrays Hmax.
  destruct (trial_returns cfg delta record slots Hdelta Hfall Hstep Hclip
              Hrays presented comparison validation w Hmax)
    as (steps & r & w' & Hrun).
  exists steps, r, w'. intros fuel Hle.
  by apply (trial_more_fuel cfg steps fuel).
Qed.

Lemma trial_terminates_witness :
  exists steps r (w' : World ToyAgent ToyBall),
    forall fuel, (steps <= fuel)%nat ->
      trial (SA := toy_agent) (CI := steady_circle)
        fuel parameter_defaults 50 20 true true toy_world = Ok (r, w').
Proof.
  apply (trial_terminates (SA := toy_agent) (CI := steady_circle)
           parameter_defaults 30 50 20 true true 1).
  - reflexivity.
  - intros b. cbn. rewrite Qred_correct.
    assert ((1 # 10) * 300 == 30) as -> by reflexivity. lra.
  - intros b frozen a. reflexivity.
  - intros a. reflexivity.
  - intros _. split; [|split]; intros; cbn; lia.
  - discriminate.
Defined.

(** ** Recording *)

Section Recording.
Context {Agent Ball Ctrl : Type}.
Context `{SA : SensorAgent Agent Ball Ctrl} `{CI : Circle Ball}.

Variable cfg : Config.

(** The records of a recorded trial: one time stamp per snapshot, the
    first one zero, each next one the rounded sum of the previous one and
    the step; no snapshot has more rays than the first. *)
Let kept (r : Records) : Prop :=
  length (time_records r) = length (object_records r)
  /\ time_records r !! 0%nat = Some 0
  /\ (forall k t, time_records r !! k = Some t -> round64 t == t)
  /\ (forall k t t',
        time_records r !! k = Some t ->
        time_records r !! Datatypes.S k = Some t' ->
        t' = round64 (t + step_size cfg))
  /\ exists first,
       object_records r !! 0%nat = Some first
       /\ forall k snap, object_records r !! k = Some snap ->
            (length (snap_rays snap) <= length (snap_rays first))%nat.

Lemma record_data_start (a : Agent) (b : Ball) (r : Records) :
  exists r',
    _record_data cfg a b true r = Ok r'
    /\ kept r'
    /\ exists snap,
         object_records r' = [snap]
         /\ snap_rays snap = rays_at_start (agent_rays a).
Proof.
  cbn [_record_data]. eexists. split; [reflexivity|]. split.
  - unfold kept. cbn [time_records object_records length].
    split; [done|]. split; [done|]. split; [|split].
    + intros [|k] t Hk; [|done]. injection Hk as <-. reflexivity.
    + intros [|k] t t' _ Hk'; done.
    + eexists. split; [reflexivity|].
      intros [|k] snap Hk; [|done]. by injection Hk as <-.
  - eexists. split; reflexivity.
Qed.

Lemma record_data_append (a : Agent) (b : Ball) (r : Records) :
  kept r ->
  _record_data cfg a b false r = Err KeyError
  \/ exists r',
       _record_data cfg a b false r = Ok r'
       /\ kept r'
       /\ object_records r' !! 0%nat = object_records r !! 0%nat.
Proof.
  intros (Hlen & Hzero & Hrep & Hnext & first & Hfirst & Hrays).
  assert (1 <= length (time_records r))%nat as Hne
    by (apply lookup_lt_Some in Hzero; lia).
  unfold _record_data, vget_back, vget.
  rewrite decide_True by lia.
  destruct (lookup_lt_is_Some_2 (time_records r)
              (length (time_records r) - 1)) as [u Hu]; [lia|].
  rewrite Hu. cbn [bind]. unfold ray_slots.
  destruct (object_records r) as [|s0 ss] eqn:Eobj; [done|].
  injection Hfirst as <-. cbn [length] in Hlen.
  destruct (decide (length (agent_rays a) <= length (snap_rays s0))%nat)
    as [Hfit|Hover]; [right|by left].
  eexists. split; [reflexivity|].
  cbn [time_records object_records]. split; [|done].
  unfold kept. cbn [time_records object_records].
  split; [rewrite !length_app; cbn [length]; lia|].
  split; [by rewrite lookup_app_l by lia|]. split; [|split].
  - intros k t Hk.
    destruct (decide (k < length (time_records r))%nat) as [Hlt|Hge].
    + rewrite lookup_app_l in Hk by done. by apply (Hrep k).
    + rewrite lookup_app_r in Hk by lia.
      destruct (k - length (time_records r))%nat; [|done].
      injection Hk as <-. apply round64_idem.
  - intros k t t' Hk Hk'.
    destruct (decide (Datatypes.S k < length (time_records r))%nat)
      as [Hlt|Hge].
    + rewrite lookup_app_l in Hk, Hk' by lia. by apply (Hnext k).
    + assert (Datatypes.S k = length (time_records r)) as Hk1.
      { apply lookup_lt_Some in Hk'. rewrite length_app in Hk'.
        cbn [length] in Hk'. lia. }
      rewrite lookup_app_l in Hk by lia.
      rewrite lookup_app_r in Hk' by lia.
      replace (Datatypes.S k - length (time_records r))%nat with 0%nat
        in Hk' by lia.
      injection Hk' as <-.
      replace (length (time_records r) - 1)%nat with k in Hu by lia.
      congruence.
  - exists s0. split; [done|].
    intros k snap Hk.
    destruct (decide (k < length (s0 :: ss))%nat) as [Hlt|Hge].
    + rewrite lookup_app_l in Hk by done. by apply (Hrays k).
    + rewrite lookup_app_r in Hk by (cbn [length] in *; lia).
      destruct (k - length (s0 :: ss))%nat; [|done].
      injection Hk as <-. cbn [snap_rays]. by rewrite length_fmap.
Qed.

Lemma drop_presented_recorded (fuel : nat) :
  forall w1 w2 : World Agent Ball,
    world_view w1 = world_view w2 ->
    kept (records w1) ->
    drop_presented fuel cfg true w1 = Err KeyError
    \/ (res_map world_view (drop_presented fuel cfg true w1)
        = res_map world_view (drop_presented fuel cfg false w2)
        /\ forall w1', drop_presented fuel cfg true w1 = Ok w1' ->
             kept (records w1')
             /\ object_records (records w1') !! 0%nat
                = object_records (records w1) !! 0%nat).
Proof.
  induction fuel as [|fuel IH]; intros w1 w2 Hview Hkept;
    injection Hview as Ha Hb; cbn [drop_presented];
    rewrite <- Ha, <- Hb;
    destruct (Qltb _ _) eqn:E.
  - right. split; [reflexivity|]. discriminate.
  - right. split; [cbn [res_map]; unfold world_view; by rewrite Ha, Hb|].
    by intros w1' [= <-].
  - set (b := ball_step (step_size cfg) (ball w1)).
    set (a := agent_one_obj_step (step_size cfg) b true (agent w1)).
    destruct (record_data_append a b (records w1) Hkept)
      as [->|(r' & -> & Hkept' & Hfirst)]; [by left|].
    cbn [bind].
    destruct (IH {| agent := a; ball := b; records := r' |}
                 {| agent := a; ball := b; records := records w2 |})
      as [Herr|[Hsame Hrec]]; [reflexivity|done|by left|].
    right. split; [done|].
    intros w1' Hrun. destruct (Hrec w1' Hrun) as [Hc Hf].
    split; [done|]. by rewrite Hf.
  - right. split; [cbn [res_map]; unfold world_view; by rewrite Ha, Hb|].
    by intros w1' [= <-].
Qed.

Lemma drop_comparison_recorded (fuel : nat) :
  forall w1 w2 : World Agent Ball,
    world_view w1 = world_view w2 ->
    kept (records w1) ->
    drop_comparison fuel cfg true w1 = Err KeyError
    \/ (res_map world_view (drop_comparison fuel cfg true w1)
        = res_map world_view (drop_comparison fuel cfg false w2)
        /\ forall w1', drop_comparison fuel cfg true w1 = Ok w1' ->
             kept (records w1')
             /\ object_records (records w1') !! 0%nat
                = object_records (records w1) !! 0%nat).
Proof.
  induction fuel as [|fuel IH]; intros w1 w2 Hview Hkept;
    injection Hview as Ha Hb; cbn [drop_comparison];
    rewrite <- Ha, <- Hb;
    destruct (Qltb _ _) eqn:E.
  - right. split; [reflexivity|]. discriminate.
  - right. split; [cbn [res_map]; unfold world_view; by rewrite Ha, Hb|].
    by intros w1' [= <-].
  - set (b := ball_step (step_size cfg) (ball w1)).
    set (a := agent_clip_position (world_left cfg) (world_right cfg)
                (agent_one_obj_step (step_size cfg) b false (agent w1))).
    destruct (record_data_append a b (records w1) Hkept)
      as [->|(r' & -> & Hkept' & Hfirst)]; [by left|].
    cbn [bind].
    destruct (IH {| agent := a; ball := b; records := r' |}
                 {| agent := a; ball := b; records := records w2 |})
      as [Herr|[Hsame Hrec]]; [reflexivity|done|by left|].
    right. split; [done|].
    intros w1' Hrun. destruct (Hrec w1' Hrun) as [Hc Hf].
    split; [done|]. by rewrite Hf.
  - right. split; [cbn [res_map]; unfold world_view; by rewrite Ha, Hb|].
    by intros w1' [= <-].
Qed.

Lemma drop_presented_silent (fuel : nat) :
  forall w w' : World Agent Ball,
    drop_presented fuel cfg false w = Ok w' -> records w' = records w.
Proof.
  induction fuel as [|fuel IH]; intros w w' Hrun;
    cbn [drop_presented] in Hrun;
    destruct (Qltb _ _) eqn:E; try discriminate Hrun.
  - by injection Hrun as <-.
  - cbn [bind] in Hrun. by apply IH in Hrun.
  - by injection Hrun as <-.
Qed.

Lemma drop_comparison_silent (fuel : nat) :
  forall w w' : World Agent Ball,
    drop_comparison fuel cfg false w = Ok w' -> records w' = records w.
Proof.
  induction fuel as [|fuel IH]; intros w w' Hrun;
    cbn [drop_comparison] in Hrun;
    destruct (Qltb _ _) eqn:E; try discriminate Hrun.
  - by injection Hrun as <-.
  - cbn [bind] in Hrun. by apply IH in Hrun.
  - by injection Hrun as <-.
Qed.

(** Both properties of a recorded run at once. *)
Lemma trial_run_recorded (fuel : nat) (p c : Q) (w : World Agent Ball) :
  (trial_run fuel cfg p c true w = Err KeyError
   \/ res_map world_view (trial_run fuel cfg p c true w)
      = res_map world_view (trial_run fuel cfg p c false w))
  /\ forall w', trial_run fuel cfg p c true w = Ok w' ->
       kept (records w')
       /\ exists w0 snap,
            trial_setup cfg p true w = Ok w0
            /\ object_records (records w') !! 0%nat = Some snap
            /\ snap_rays snap = rays_at_start (agent_rays (agent w0)).
Proof.
  unfold trial_run, trial_setup.
  set (a0 := agent_initialize_ray_sensors _ _).
  set (b0 := ball_set_size _ _).
  destruct (record_data_start a0 b0 (records w))
    as (r0 & Hr0 & Hkept0 & snap & Hsnap & Hrays).
  rewrite Hr0. cbn [bind].
  set (w0 := {| agent := a0; ball := b0; records := r0 |}).
  set (v0 := {| agent := a0; ball := b0; records := records w |}).
  destruct (drop_presented_recorded fuel w0 v0 eq_refl Hkept0)
    as [Herr|[Hsame1 Hrec1]].
  { rewrite Herr. cbn [bind]. split; [by left|]. discriminate. }
  destruct (drop_presented fuel cfg true w0) as [w1|e1] eqn:Hd1;
    destruct (drop_presented fuel cfg false v0) as [v1|e1'] eqn:Hd1';
    cbn [res_map] in Hsame1; try discriminate Hsame1; cbn [bind].
  - injection Hsame1 as Ha Hb.
    destruct (Hrec1 w1 eq_refl) as [Hkept1 Hfirst1].
    destruct (drop_comparison_recorded fuel (trial_resetup cfg c w1)
                (trial_resetup cfg c v1)) as [Herr|[Hsame2 Hrec2]].
    { unfold world_view, trial_resetup. cbn [agent ball].
      by rewrite Ha, Hb. }
    { done. }
    { rewrite Herr. split; [by left|]. discriminate. }
    split; [by right|]. intros w' Hrun.
    destruct (Hrec2 w' Hrun) as [Hkept2 Hfirst2].
    split; [done|]. exists w0, snap. split; [done|].
    split; [|done].
    rewrite Hfirst2. cbn [trial_resetup records]. rewrite Hfirst1.
    cbn [w0 records]. by rewrite Hsnap.
  - injection Hsame1 as ->. split; [by right|]. discriminate.
Qed.

End Recording.

(** X17: recording does not disturb a trial, it can only interrupt it.
    With [record] the trial either raises [KeyError] (the agent came to
    carry more rays than the first snapshot has lists for) or does what it
    does without [record]: the same outcome with the agent and the ball in
    the same state, or the same error.  Without [record] the stored
    records are left as they were. *)
Theorem trial_recording_is_transparent {Agent Ball Ctrl : Type}
    `{SA : SensorAgent Agent Ball Ctrl} `{CI : Circle Ball}
    (fuel : nat) (cfg : Config) (presented comparison : Q)
    (validation : bool) (w : World Agent Ball) :
  (trial fuel cfg presented comparison true validation w = Err KeyError
   \/ res_map (fun r => (fst r, world_view (snd r)))
        (trial fuel cfg presented comparison true validation w)
      = res_map (fun r => (fst r, world_view (snd r)))
          (trial fuel cfg presented comparison false validation w))
  /\ forall r w',
       trial fuel cfg presented comparison false validation w = Ok (r, w') ->
       records w' = records w.
Proof.
  split.
  - destruct (trial_run_recorded cfg fuel presented comparison w)
      as [[Herr|Hsame] _].
    { left. unfold trial. by rewrite Herr. }
    right. unfold trial.
    destruct (trial_run fuel cfg presented comparison true w) as [w1|e1];
      destruct (trial_run fuel cfg presented comparison false w) as [w2|e2];
      cbn [res_map] in Hsame; try discriminate Hsame; cbn [bind].
    + injection Hsame as Ha Hb. rewrite Ha, Hb.
      destruct validation.
      * destruct (validation_outcome presented comparison (agent w2)
                    (ball w2)).
        cbn [res_map fst snd]. unfold world_view. by rewrite Ha, Hb.
      * destruct (fitness_outcome cfg presented comparison (agent w2)
                    (ball w2)); cbn [bind res_map fst snd]; [|done].
        unfold world_view. by rewrite Ha, Hb.
    + by injection Hsame as ->.
  - intros r w' Hrun. unfold trial in Hrun.
    apply bind_ok in Hrun as (w2 & Hw2 & Hrun).
    assert (w2 = w') as ->.
    { destruct validation.
      - destruct (validation_outcome presented comparison (agent w2)
                    (ball w2)).
        by injection Hrun as _ ->.
      - apply bind_ok in Hrun as (v & _ & Hrun). by injection Hrun as _ ->. }
    unfold trial_run, trial_setup in Hw2. cbn [bind] in Hw2.
    apply bind_ok in Hw2 as (w1 & Hd1 & Hd2).
    apply drop_presented_silent in Hd1.
    apply drop_comparison_silent in Hd2.
    cbn [trial_resetup records] in *. congruence.
Qed.

Lemma trial_recording_is_transparent_witness :
  exists r (w' : World ToyAgent ToyBall),
    trial 20 parameter_defaults 50 20 false true toy_world = Ok (r, w')
    /\ records w' = records toy_world.
Proof.
  destruct (trial 20 parameter_defaults 50 20 false true toy_world)
    as [[r w']|e] eqn:Hrun; [|vm_compute in Hrun; discriminate Hrun].
  exists r, w'. split; [reflexivity|].
  exact (proj2 (trial_recording_is_transparent 20 parameter_defaults 50 20
                  true toy_world) r w' Hrun).
Defined.

(** X18: a recorded trial that returns leaves one time stamp per
    snapshot, at least one.  The first stamp is zero, whatever was recorded
    before, and each next stamp is the binary64 sum of the previous one and
    [step_size]: the clock is not reset between the two drops, and it
    never runs backwards for a [step_size] that is not negative.  No
    snapshot has more rays than the first, whose rays are stored with
    their end point transposed ([y2] under [x2], [x2] under [y2]). *)
Theorem trial_records_clock {Agent Ball Ctrl : Type}
    `{SA : SensorAgent Agent Ball Ctrl} `{CI : Circle Ball}
    (fuel : nat) (cfg : Config) (presented comparison : Q)
    (w w' : World Agent Ball) :
  trial_run fuel cfg presented comparison true w = Ok w' ->
  length (time_records (records w')) = length (object_records (records w'))
  /\ time_records (records w') !! 0%nat = Some 0
  /\ (forall k t t',
        time_records (records w') !! k = Some t ->
        time_records (records w') !! Datatypes.S k = Some t' ->
        t' = round64 (t + step_size cfg)
        /\ (0 <= step_size cfg -> t <= t'))
  /\ exists w0 snap,
       trial_setup cfg presented true w = Ok w0
       /\ object_records (records w') !! 0%nat = Some snap
       /\ snap_rays snap = rays_at_start (agent_rays (agent w0))
       /\ forall k later,
            object_records (records w') !! k = Some later ->
            (length (snap_rays later) <= length (snap_rays snap))%nat.
Proof.
  intros Hrun.
  destruct (trial_run_recorded cfg fuel presented comparison w) as [_ Hrec].
  destruct (Hrec w' Hrun)
    as ((Hlen & Hzero & Hrep & Hnext & first & Hfirst & Hrays)
        & w0 & snap & Hsetup & Hsnap & Htr).
  split; [done|]. split; [done|]. split.
  - intros k t t' Hk Hk'. pose proof (Hnext k t t' Hk Hk') as ->.
    split; [done|]. intros Hstep.
    apply Qle_trans with (round64 t); [rewrite (Hrep k t Hk); lra|].
    apply round64_le. lra.
  - exists w0, snap. split; [done|]. split; [done|]. split; [done|].
    rewrite Hfirst in Hsnap. injection Hsnap as <-. done.
Qed.

Lemma trial_records_clock_witness :
  exists w' : World ToyAgent ToyBall,
    trial_run 20 parameter_defaults 50 20 true toy_world = Ok w'
    /\ length (time_records (records w'))
       = length (object_records (records w')).
Proof.
  destruct (trial_run 20 parameter_defaults 50 20 true toy_world)
    as [w'|e] eqn:Hrun; [|vm_compute in Hrun; discriminate Hrun].
  exists w'. split; [reflexivity|].
  exact (proj1 (trial_records_clock 20 parameter_defaults 50 20
                  toy_world w' Hrun)).
Defined.

(** ** The sweep as a whole ([run_trials]) *)

Lemma eval_fitness_few_rows (m : Matrix) :
  (shape0 m <= 1)%nat -> exists v, eval_fitness m = Ok v /\ v == 0.
Proof.
  intros Hn. unfold eval_fitness.
  rewrite for_range_empty by lia. cbn [bind].
  destruct (shape0 m) as [|[|k]] eqn:E; [| |lia].
  - eexists. split; [reflexivity|]. vm_compute. reflexivity.
  - eexists. split; [reflexivity|]. vm_compute. reflexivity.
Qed.

Lemma eval_fitness_two_rows (m : Matrix) :
  shape0 m = 2%nat -> eval_fitness m = Err ZeroDivisionError.
Proof.
  intros Hn. unfold eval_fitness.
  rewrite for_range_empty by lia. cbn [bind]. by rewrite Hn.
Qed.

Section SweepAsAWhole.
Context {Agent Ball Ctrl : Type}.
Context `{SA : SensorAgent Agent Ball Ctrl} `{CI : Circle Ball}.

Variable fuel : nat.
Variable cfg : Config.

Lemma trial_fitness_value_range (p c : Q) (record : bool)
    (w w' : World Agent Ball) (v : Q) :
  0 < max_distance cfg ->
  trial fuel cfg p c record false w = Ok (FitnessValue v, w') ->
  0 <= v /\ v <= 1.
Proof.
  intros Hmax Hrun. unfold trial in Hrun.
  apply bind_ok in Hrun as (w2 & _ & Hrun).
  apply bind_ok in Hrun as (v' & Hv' & Hrun). injection Hrun as <- _.
  destruct (fitness_outcome_spec cfg p c (agent w2) (ball w2) Hmax)
    as (v2 & Hv2 & H0 & H1 & _).
  rewrite Hv' in Hv2. injection Hv2 as <-. done.
Qed.

Lemma run_trials_grid (w w' : World Agent Ball) (f : Q) :
  run_trials fuel cfg w = Ok (f, w') ->
  exists m n,
    build_result_matrix fuel cfg w = Ok (m, w')
    /\ eval_fitness m = Ok f
    /\ ~ circle_difference cfg == 0
    /\ py_int (circle_max_diameter cfg / circle_difference cfg)
       = Z.of_nat n
    /\ shape0 m = n /\ shape1 m = n
    /\ (forall a b, (a < n)%nat -> (b < n)%nat -> a <> b ->
          exists w0 w1 : World Agent Ball,
            trial fuel cfg (grid_diameter cfg a) (grid_diameter cfg b)
              false false w0
            = Ok (FitnessValue (cell m a b), w1)).
Proof.
  intros Hrun. unfold run_trials in Hrun.
  apply bind_ok in Hrun as ([m w1] & Hm & Hrun). cbn [fst snd] in Hrun.
  apply bind_ok in Hrun as (f' & Hf & Hrun). injection Hrun as <- <-.
  pose proof Hm as Hinv.
  apply build_result_matrix_inv in Hinv
    as (d & n & Hd & Hpos & Hn & Hs0 & Hs1 & Hcells & _).
  unfold py_div in Hd.
  destruct (Qeq_bool (circle_difference cfg) 0) eqn:E; [discriminate|].
  injection Hd as <-.
  exists m, n. do 2 (split; [done|]). split.
  { intros Hz. apply Qeq_bool_iff in Hz. congruence. }
  split; [lia|]. done.
Qed.

End SweepAsAWhole.

Lemma run_trials_value_range {Agent Ball Ctrl : Type}
    `{SA : SensorAgent Agent Ball Ctrl} `{CI : Circle Ball}
    (fuel : nat) (cfg : Config) (w w' : World Agent Ball) (f : Q) :
  0 < max_distance cfg ->
  run_trials fuel cfg w = Ok (f, w') ->
  0 <= f /\ f <= 1.
Proof.
  intros Hmax Hrun.
  apply run_trials_grid in Hrun
    as (m & n & _ & Hf & _ & _ & Hs0 & Hs1 & Hcells).
  destruct (decide (3 <= n)%nat) as [Hn|Hn].
  - destruct (eval_fitness_closed_form m n Hn Hs0 Hs1) as (v & Hv & Ev).
    rewrite Hf in Hv. injection Hv as <-. rewrite Ev.
    apply (fitness_formula_bounds m n 0 1 Hn Hs0 Hs1).
    intros i j Hi Hj Hne.
    destruct (Hcells i j Hi Hj Hne) as (w0 & w1 & Htrial).
    eapply trial_fitness_value_range; eassumption.
  - destruct (decide (n = 2%nat)) as [->|Hn2].
    + rewrite (eval_fitness_two_rows m Hs0) in Hf. discriminate Hf.
    + destruct (eval_fitness_few_rows m) as (v & Hv & Ev); [lia|].
      rewrite Hf in Hv. injection Hv as <-. rewrite Ev. split; lra.
Qed.

(** X19: for a positive [max_distance], whatever the collaborators do, the
    fitness [run_trials] returns lies in [[0, 1]]; it is the reduction of a
    square matrix of [int(circle_max_diameter / circle_difference)] rows
    whose off-diagonal cells are values of continuous trials. *)
Theorem run_trials_unit_interval {Agent Ball Ctrl : Type}
    `{SA : SensorAgent Agent Ball Ctrl} `{CI : Circle Ball}
    (fuel : nat) (cfg : Config) (w w' : World Agent Ball) (f : Q) :
  0 < max_distance cfg ->
  run_trials fuel cfg w = Ok (f, w') ->
  (0 <= f /\ f <= 1)
  /\ exists m,
       eval_fitness m = Ok f
       /\ Z.of_nat (shape0 m)
          = py_int (circle_max_diameter cfg / circle_difference cfg)
       /\ shape1 m = shape0 m
       /\ forall a b, (a < shape0 m)%nat -> (b < shape0 m)%nat -> a <> b ->
            0 <= cell m a b /\ cell m a b <= 1.
Proof.
  intros Hmax Hrun. split.
  - by apply (run_trials_value_range fuel cfg w w').
  - apply run_trials_grid in Hrun
      as (m & n & _ & Hf & _ & Hpy & Hs0 & Hs1 & Hcells).
    exists m. split; [done|]. split; [by rewrite Hs0|].
    split; [congruence|]. rewrite Hs0.
    intros a b Ha Hb Hne.
    destruct (Hcells a b Ha Hb Hne) as (w0 & w1 & Htrial).
    eapply trial_fitness_value_range; eassumption.
Qed.

Lemma run_trials_unit_interval_witness :
  exists (f : Q) (w' : World ToyAgent ToyBall),
    run_trials 20 parameter_defaults toy_world = Ok (f, w')
    /\ 0 <= f /\ f <= 1.
Proof.
  destruct (run_trials 20 parameter_defaults toy_world)
    as [[f w']|e] eqn:Hrun; [|vm_compute in Hrun; discriminate Hrun].
  exists f, w'. split; [reflexivity|].
  exact (proj1 (run_trials_unit_interval 20 parameter_defaults toy_world
                  w' f ltac:(reflexivity) Hrun)).
Defined.



(** ** The entry points *)

Section TrialResults.
Context {Agent Ball Ctrl : Type}.
Context `{SA : SensorAgent Agent Ball Ctrl} `{CI : Circle Ball}.

Lemma trial_ok_run (fuel : nat) (cfg : Config) (p c : Q)
    (record validation : bool) (w w' : World Agent Ball) (r : TrialResult) :
  trial fuel cfg p c record validation w = Ok (r, w') ->
  trial_run fuel cfg p c record w = Ok w'.
Proof.
  intros Hrun. unfold trial in Hrun.
  apply bind_ok in Hrun as (w2 & Hw2 & Hrun).
  destruct validation.
  - destruct (validation_outcome p c (agent w2) (ball w2)).
    by injection Hrun as _ <-.
  - apply bind_ok in Hrun as (v & _ & Hrun). by injection Hrun as _ <-.
Qed.

Lemma validation_outcome_bits (p c : Q) (a : Agent) (b : Ball) :
  (0 <= fst (validation_outcome p c a b) <= 1)%Z
  /\ (0 <= snd (validation_outcome p c a b) <= 1)%Z.
Proof.
  unfold validation_outcome.
  destruct (Qltb c p); destruct (_ || _)%bool; cbn [fst snd]; lia.
Qed.

Lemma trial_validation_bits (fuel : nat) (cfg : Config) (p c : Q)
    (record : bool) (w w' : World Agent Ball) (r : TrialResult) :
  trial fuel cfg p c record true w = Ok (r, w') ->
  exists success caught,
    r = ValidationPair success caught
    /\ (0 <= success <= 1)%Z /\ (0 <= caught <= 1)%Z.
Proof.
  intros Hrun. pose proof (trial_ok_run _ _ _ _ _ _ _ _ _ Hrun) as Hw.
  rewrite (trial_validation_result fuel cfg p c record w w' Hw) in Hrun.
  injection Hrun as <-.
  destruct (validation_outcome_bits p c (agent w') (ball w')) as [Hs Hc].
  by eexists _, _.
Qed.

Lemma trial_fitness_is_value (fuel : nat) (cfg : Config) (p c : Q)
    (record : bool) (w w' : World Agent Ball) (r : TrialResult) :
  trial fuel cfg p c record false w = Ok (r, w') ->
  exists v, r = FitnessValue v.
Proof.
  intros Hrun. unfold trial in Hrun.
  apply bind_ok in Hrun as (w2 & _ & Hrun).
  apply bind_ok in Hrun as (v & _ & Hrun). injection Hrun as <- _.
  by exists v.
Qed.

End TrialResults.

Section EntryPoints.
Context {Agent Ball Ctrl : Type}.
Context `{SA : SensorAgent Agent Ball Ctrl} `{CI : Circle Ball}.
Context `{NO : NervousSystemOwner Agent}.

Variable fuel : nat.
Variable cfg : Config.
Variable x : list Q.

Lemma install_parameters_err (w : World Agent Ball) (e : PyError) :
  map_search_parameters cfg x (agent_nervous_system (agent w)) = Err e ->
  install_parameters cfg x w = Err e.
Proof. intros H. unfold install_parameters. by rewrite H. Qed.

Lemma install_parameters_ok (w w1 : World Agent Ball) :
  install_parameters cfg x w = Ok w1 ->
  exists ns,
    map_search_parameters cfg x (agent_nervous_system (agent w)) = Ok ns
    /\ agent w1 = agent_with_nervous_system ns (agent w)
    /\ ball w1 = ball w /\ records w1 = records w.
Proof.
  unfold install_parameters. intros H.
  apply bind_ok in H as (ns & Hns & H). injection H as <-.
  by exists ns.
Qed.


End EntryPoints.

(** X21: [__call__] returns the opposite of the fitness of [run_trials],
    a cost in [[-1, 0]] for a positive [max_distance]; a genome that
    cannot be decoded raises the decoder's error before any trial is
    run. *)
Theorem call_cost_range {Agent Ball Ctrl : Type}
    `{SA : SensorAgent Agent Ball Ctrl} `{CI : Circle Ball}
    `{NO : NervousSystemOwner Agent}
    (fuel : nat) (cfg : Config) (x : list Q) (w : World Agent Ball) :
  (forall e,
     map_search_parameters cfg x (agent_nervous_system (agent w)) = Err e ->
     __call__ fuel cfg x w = Err e)
  /\ (0 < max_distance cfg ->
      forall cost w', __call__ fuel cfg x w = Ok (cost, w') ->
        -1 <= cost /\ cost <= 0
        /\ exists w1 f,
             install_parameters cfg x w = Ok w1
             /\ run_trials fuel cfg w1 = Ok (f, w')
             /\ cost = - f).
Proof.
  split.
  - intros e He. unfold __call__.
    by rewrite (install_parameters_err cfg x w e He).
  - intros Hmax cost w' Hrun. unfold __call__ in Hrun.
    apply bind_ok in Hrun as (w1 & Hw1 & Hrun).
    apply bind_ok in Hrun as ([f w2] & Hf & Hrun).
    cbn [fst snd] in Hrun. injection Hrun as <- <-.
    destruct (run_trials_value_range fuel cfg w1 w2 f Hmax Hf) as [H0 H1].
    split; [lra|]. split; [lra|]. by exists w1, f.
Qed.

Lemma call_cost_range_witness :
  exists cost (w' : World ToyAgent ToyBall),
    __call__ (NO := toy_owner parameter_defaults)
      20 parameter_defaults (ramp_genome 46) toy_world = Ok (cost, w')
    /\ -1 <= cost /\ cost <= 0.
Proof.
  destruct (__call__ (NO := toy_owner parameter_defaults)
              20 parameter_defaults (ramp_genome 46) toy_world)
    as [[cost w']|e] eqn:Hrun; [|vm_compute in Hrun; discriminate Hrun].
  exists cost, w'. split; [reflexivity|].
  destruct (proj2 (call_cost_range (NO := toy_owner parameter_defaults)
                     20 parameter_defaults (ramp_genome 46) toy_world)
              ltac:(reflexivity) cost w' Hrun) as (H0 & H1 & _).
  split; [exact H0 | exact H1].
Defined.

(** X22: [run_test_trial] runs one recorded trial in continuous mode: it
    returns a value, in [[0, 1]] for a positive [max_distance], and leaves
    one time stamp per snapshot, at least one. *)
Theorem run_test_trial_recorded {Agent Ball Ctrl : Type}
    `{SA : SensorAgent Agent Ball Ctrl} `{CI : Circle Ball}
    `{NO : NervousSystemOwner Agent}
    (fuel : nat) (cfg : Config) (x : list Q) (ball_size comparison : Q)
    (w w' : World Agent Ball) (r : TrialResult) :
  0 < max_distance cfg ->
  run_test_trial fuel cfg x ball_size comparison w = Ok (r, w') ->
  (exists v, r = FitnessValue v /\ 0 <= v /\ v <= 1)
  /\ (1 <= length (time_records (records w')))%nat
  /\ length (time_records (records w'))
     = length (object_records (records w')).
Proof.
  intros Hmax Hrun. unfold run_test_trial in Hrun.
  apply bind_ok in Hrun as (w1 & _ & Hrun).
  split.
  - destruct (trial_fitness_is_value _ _ _ _ _ _ _ _ Hrun) as [v ->].
    exists v. split; [done|].
    eapply trial_fitness_value_range; eassumption.
  - apply trial_ok_run in Hrun.
    destruct (trial_run_recorded cfg fuel ball_size comparison w1)
      as [_ Hrec].
    destruct (Hrec w' Hrun) as ((Hlen & Hzero & _) & _).
    apply lookup_lt_Some in Hzero. split; [lia|done].
Qed.

Lemma run_test_trial_recorded_witness :
  exists r (w' : World ToyAgent ToyBall),
    run_test_trial (NO := toy_owner parameter_defaults)
      20 parameter_defaults (ramp_genome 46) 50 20 toy_world = Ok (r, w')
    /\ (1 <= length (time_records (records w')))%nat.
Proof.
  destruct (run_test_trial (NO := toy_owner parameter_defaults)
              20 parameter_defaults (ramp_genome 46) 50 20 toy_world)
    as [[r w']|e] eqn:Hrun; [|vm_compute in Hrun; discriminate Hrun].
  exists r, w'. split; [reflexivity|].
  exact (proj1 (proj2 (run_test_trial_recorded
                         (NO := toy_owner parameter_defaults)
                         20 parameter_defaults (ramp_genome 46) 50 20
                         toy_world w' r ltac:(reflexivity) Hrun))).
Defined.



(** ** The ordered validation sweep *)

Lemma np_linspace_length (start stop : Q) (num : nat) :
  length (np_linspace start stop num) = num.
Proof.
  destruct num as [|[|n]]; [reflexivity..|].
  unfold np_linspace. by rewrite length_fmap, length_seq.
Qed.

Lemma np_linspace_lookup (start stop : Q) (num k : nat) :
  (2 <= num)%nat -> (k < num)%nat ->
  np_linspace start stop num !! k
  = Some (if (k =? num - 1)%nat then stop
          else inject_Z (Z.of_nat k)
               * ((stop - start) / inject_Z (Z.of_nat (num - 1)))
               + start).
Proof.
  intros Hn Hk. destruct num as [|[|n]]; [lia..|].
  unfold np_linspace. rewrite list_lookup_fmap.
  rewrite lookup_seq_lt by done. reflexivity.
Qed.

Lemma np_linspace_within (start stop : Q) (num k : nat) (v : Q) :
  start <= stop ->
  np_linspace start stop num !! k = Some v ->
  start <= v /\ v <= stop.
Proof.
  intros Hle Hv.
  assert (k < num)%nat as Hk.
  { apply lookup_lt_Some in Hv. by rewrite np_linspace_length in Hv. }
  destruct (decide (num = 1%nat)) as [->|Hn1].
  - destruct k; [|lia]. injection Hv as <-. split; lra.
  - rewrite np_linspace_lookup in Hv by lia. injection Hv as <-.
    destruct (Nat.eqb_spec k (num - 1)) as [_|Hne]; [split; lra|].
    pose proof (inject_nat_pos (num - 1) ltac:(lia)) as Hpos.
    assert (0 <= inject_Z (Z.of_nat k)) as Hk0
      by (change 0 with (inject_Z 0); rewrite <- Zle_Qle; lia).
    assert (inject_Z (Z.of_nat k) <= inject_Z (Z.of_nat (num - 1))) as Hk1
      by (rewrite <- Zle_Qle; lia).
    set (d := inject_Z (Z.of_nat (num - 1))) in *.
    set (q := inject_Z (Z.of_nat k)) in *.
    assert (0 <= (stop - start) / d) as Hstep
      by (apply Qle_shift_div_l; [done|]; lra).
    assert (q * ((stop - start) / d) <= stop - start) as Hup.
    { assert (q * ((stop - start) / d) <= d * ((stop - start) / d))
        as H1 by nra.
      assert (d * ((stop - start) / d) == stop - start) as H2
        by (field; lra).
      lra. }
    split; nra.
Qed.

Lemma Zsum_snoc (l : list Z) (z : Z) : Zsum (l ++ [z]) = (Zsum l + z)%Z.
Proof.
  induction l as [|u l IH]; cbn [app Zsum foldr]; [lia|].
  fold (Zsum (l ++ [z])). fold (Zsum l). lia.
Qed.

Lemma Zsum_bits (l : list Z) :
  Forall (fun z => (0 <= z <= 1)%Z) l ->
  (0 <= Zsum l <= Z.of_nat (length l))%Z.
Proof.
  induction 1 as [|z l Hz _ IH]; cbn [Zsum foldr length]; [lia|].
  fold (Zsum l). lia.
Qed.

Lemma for_range_inv_ok {S : Type} (P : nat -> S -> Prop)
    (body : nat -> S -> Res S) (hi : nat) (s s' : S) :
  P 0%nat s ->
  (forall i t t', (i < hi)%nat -> P i t -> body i t = Ok t' ->
     P (Datatypes.S i) t') ->
  for_range 0 hi body s = Ok s' ->
  P hi s'.
Proof.
  intros H0 Hstep Hrun. unfold for_range in Hrun.
  rewrite Nat.sub_0_r in Hrun.
  apply (for_loop_inv_ok P) in Hrun; [done|done|].
  intros i t t' Hi. apply Hstep. lia.
Qed.

Section OrderedSweep.
Context {Agent Ball Ctrl : Type}.
Context `{SA : SensorAgent Agent Ball Ctrl} `{CI : Circle Ball}.

Variable fuel : nat.
Variable cfg : Config.
Variable num_sizes num_trials : nat.
Variable original_set comparison_set : list Q.

(** [caught] is what a validation trial of sizes number [i] and [j]
    reports. *)
Let catch_of (i j : nat) (caught : Z) : Prop :=
  (0 <= caught <= 1)%Z
  /\ exists p q (w0 w1 : World Agent Ball) s,
       original_set !! i = Some p /\ comparison_set !! j = Some q
       /\ trial fuel cfg p q false true w0
          = Ok (ValidationPair s caught, w1).

Let cell_ok (m : Matrix) (i j : nat) : Prop :=
  exists l,
    length l = num_trials
    /\ Forall (catch_of i j) l
    /\ cell m j i == inject_Z (Zsum l) / inject_Z (Z.of_nat num_trials).

Let visited (i j a b : nat) : Prop :=
  (a < num_sizes)%nat /\ (b < num_sizes)%nat
  /\ (a < i \/ (a = i /\ b < j))%nat.

Let sweep_inv (i j : nat) (st : Matrix * World Agent Ball) : Prop :=
  shape0 (fst st) = num_sizes /\ shape1 (fst st) = num_sizes
  /\ forall a b, visited i j a b -> cell_ok (fst st) a b.

Lemma ordered_repeats (i j : nat) (w : World Agent Ball)
    (acc : Q * World Agent Ball) :
  for_range 0 num_trials (fun k acc =>
      let '(trial_catches, w) := acc in
      p <- vget original_set i ;;
      c <- vget comparison_set j ;;
      r <- trial fuel cfg p c false true w ;;
      match fst r with
      | ValidationPair _ catch =>
          Ok (trial_catches + inject_Z catch, snd r)
      | FitnessValue _ => Err ValueError
      end) (0, w) = Ok acc ->
  exists l,
    length l = num_trials
    /\ Forall (catch_of i j) l
    /\ fst acc == inject_Z (Zsum l).
Proof.
  intros Hloop.
  apply (for_range_inv_ok
           (fun k (acc : Q * World Agent Ball) =>
              exists l, length l = k /\ Forall (catch_of i j) l
                        /\ fst acc == inject_Z (Zsum l))) in Hloop.
  - done.
  - exists []. split; [done|]. split; [constructor|reflexivity].
  - intros k [t u] t' Hk (l & Hlen & Hall & Ht) Hbody. cbn [fst] in Ht.
    apply bind_ok in Hbody as (p & Hp & Hbody).
    apply bind_ok in Hbody as (q & Hq & Hbody).
    apply bind_ok in Hbody as ([r u'] & Htrial & Hbody).
    pose proof Htrial as Hbits.
    apply trial_validation_bits in Hbits as (s & caught & -> & _ & Hc).
    cbn [fst snd] in Hbody. injection Hbody as <-. cbn [fst].
    exists (l ++ [caught]). split; [rewrite length_app; cbn; lia|]. split.
    + apply Forall_app. split; [done|]. constructor; [|constructor].
      split; [done|]. exists p, q, u, u', s.
      unfold vget in Hp, Hq.
      destruct (original_set !! i) as [p'|] eqn:Ep; [|discriminate].
      destruct (comparison_set !! j) as [q'|] eqn:Eq; [|discriminate].
      injection Hp as ->. injection Hq as ->. done.
    + by rewrite Zsum_snoc, inject_Z_plus, Ht.
Qed.

Lemma ordered_sweep (m0 : Matrix) (w : World Agent Ball)
    (st : Matrix * World Agent Ball) :
  shape0 m0 = num_sizes -> shape1 m0 = num_sizes ->
  for_range 0 num_sizes (fun i st =>
      for_range 0 num_sizes (fun j st =>
        let '(m, w) := st in
        acc <- for_range 0 num_trials (fun k acc =>
            let '(trial_catches, w) := acc in
            p <- vget original_set i ;;
            c <- vget comparison_set j ;;
            r <- trial fuel cfg p c false true w ;;
            match fst r with
            | ValidationPair _ catch =>
                Ok (trial_catches + inject_Z catch, snd r)
            | FitnessValue _ => Err ValueError
            end) (0, w) ;;
        q <- py_div (fst acc) (inject_Z (Z.of_nat num_trials)) ;;
        m <- mset m j i q ;;
        Ok (m, snd acc)) st)
    (m0, w) = Ok st ->
  shape0 (fst st) = num_sizes /\ shape1 (fst st) = num_sizes
  /\ ((1 <= num_sizes)%nat -> (1 <= num_trials)%nat)
  /\ forall a b, (a < num_sizes)%nat -> (b < num_sizes)%nat ->
       cell_ok (fst st) a b.
Proof.
  intros Hs0 Hs1 Hloop.
  assert ((1 <= num_sizes)%nat -> (1 <= num_trials)%nat) as Htrials.
  { intros Hn.
    destruct (for_range_ok_body _ _ _ _ _ Hloop 0%nat ltac:(lia))
      as (t & t' & Hrow).
    destruct (for_range_ok_body _ _ _ _ _ Hrow 0%nat ltac:(lia))
      as ([m1 w1] & u' & Hbody).
    apply bind_ok in Hbody as (acc & _ & Hbody).
    apply bind_ok in Hbody as (q & Hq & _).
    destruct num_trials; [|lia]. by apply py_div_zero in Hq. }
  apply (for_range_inv_ok (fun i st => sweep_inv i 0 st)) in Hloop.
  - destruct Hloop as (H0 & H1 & Hv).
    split; [done|]. split; [done|]. split; [done|].
    intros a b Ha Hb. apply Hv. unfold visited. lia.
  - split; [done|]. split; [done|].
    intros a b (_ & _ & [? | [_ ?]]); lia.
  - intros i t t' Hi Hinv Hrow.
    apply (for_range_inv_ok (fun j st => sweep_inv i j st)) in Hrow.
    + destruct Hrow as (H0 & H1 & Hv).
      split; [done|]. split; [done|].
      intros a b (Ha & Hb & Hab). apply Hv. unfold visited. lia.
    + done.
    + clear Hinv. intros j [m1 w1] u' Hj (H0 & H1 & Hv) Hbody.
      cbn [fst] in *.
      apply bind_ok in Hbody as (acc & Hacc & Hbody).
      apply bind_ok in Hbody as (q & Hq & Hbody).
      apply bind_ok in Hbody as (m2 & Hset & Hbody).
      injection Hbody as <-.
      apply ordered_repeats in Hacc as (l & Hlen & Hall & Hsum).
      apply mset_inv in Hset as (_ & _ & H0' & H1' & Hji & Hother).
      unfold py_div in Hq.
      destruct (Qeq_bool (inject_Z (Z.of_nat num_trials)) 0);
        [discriminate|].
      injection Hq as <-.
      unfold sweep_inv. cbn [fst].
      split; [congruence|]. split; [congruence|].
      intros a b (Ha & Hb & Hab).
      destruct (decide ((a, b) = (i, j))) as [[= -> ->]|Hne].
      * exists l. split; [done|]. split; [done|].
        by rewrite Hji, Hsum.
      * destruct (Hv a b) as (l' & Hlen' & Hall' & Hcell').
        { unfold visited. split; [done|]. split; [done|].
          destruct Hab as [?|[-> ?]]; [by left|].
          right. split; [done|].
          assert (b <> j) by congruence. lia. }
        exists l'. split; [done|]. split; [done|].
        rewrite Hother; [done|]. intros [= -> ->]. done.
Qed.

End OrderedSweep.

(** X24: [ordered_validation_run] returns a square array of [num_sizes]
    rows whose cell [[j, i]] is the share of catches over [num_trials]
    validation trials presenting size [i] and comparing with size [j], a
    value in [[0, 1]]: the presented size indexes the column.  With
    [num_trials = 0] and at least one size the division raises
    [ZeroDivisionError]. *)
Theorem ordered_validation_run_cells {Agent Ball Ctrl : Type}
    `{SA : SensorAgent Agent Ball Ctrl} `{CI : Circle Ball}
    `{NO : NervousSystemOwner Agent}
    (fuel : nat) (cfg : Config) (x : list Q) (num_sizes num_trials : nat)
    (w : World Agent Ball) :
  (forall w1, install_parameters cfg x w = Ok w1 ->
     (1 <= num_sizes)%nat -> num_trials = 0%nat ->
     ordered_validation_run fuel cfg x num_sizes num_trials w
     = Err ZeroDivisionError)
  /\ (forall m o c w',
        ordered_validation_run fuel cfg x num_sizes num_trials w
        = Ok (m, o, c, w') ->
        shape0 m = num_sizes /\ shape1 m = num_sizes
        /\ ((1 <= num_sizes)%nat -> (1 <= num_trials)%nat)
        /\ forall i j, (i < num_sizes)%nat -> (j < num_sizes)%nat ->
             (0 <= cell m j i /\ cell m j i <= 1)
             /\ exists p q l,
                  o !! i = Some p /\ c !! j = Some q
                  /\ length l = num_trials
                  /\ Forall (fun caught =>
                       exists (w0 w1 : World Agent Ball) s,
                         trial fuel cfg p q false true w0
                         = Ok (ValidationPair s caught, w1)) l
                  /\ cell m j i
                     == inject_Z (Zsum l) / inject_Z (Z.of_nat num_trials)).
Proof.
  split.
  - intros w1 Hw1 Hn ->. unfold ordered_validation_run. rewrite Hw1.
    cbn [bind]. unfold np_zeros2.
    destruct (Z.ltb_spec (Z.of_nat num_sizes) 0) as [|_]; [lia|].
    cbn [orb bind]. destruct num_sizes as [|n]; [lia|].
    unfold for_range. rewrite !Nat.sub_0_r. reflexivity.
  - intros m o c w' Hrun. unfold ordered_validation_run in Hrun.
    apply bind_ok in Hrun as (w1 & _ & Hrun).
    apply bind_ok in Hrun as (m0 & Hm0 & Hrun).
    apply bind_ok in Hrun as (st & Hloop & Hrun).
    injection Hrun as <- <- <- _.
    unfold np_zeros2 in Hm0.
    destruct (Z.ltb_spec (Z.of_nat num_sizes) 0) as [|_]; [lia|].
    cbn [orb] in Hm0. injection Hm0 as <-.
    apply ordered_sweep in Hloop as (H0 & H1 & Hpos & Hcells);
      [|cbn; lia..].
    split; [done|]. split; [done|]. split; [done|].
    intros i j Hi Hj.
    destruct (Hcells i j Hi Hj) as (l & Hlen & Hall & Hcell).
    set (s := np_linspace (circle_min_diameter cfg)
                (circle_max_diameter cfg) num_sizes) in *.
    destruct (lookup_lt_is_Some_2 s i) as [p Hp];
      [unfold s; by rewrite np_linspace_length|].
    destruct (lookup_lt_is_Some_2 s j) as [q Hq];
      [unfold s; by rewrite np_linspace_length|].
    pose proof (inject_nat_pos num_trials (Hpos ltac:(lia))) as Hnt.
    assert (Forall (fun z => (0 <= z <= 1)%Z) l) as Hbits
      by (eapply Forall_impl; [exact Hall|]; by intros z [Hz _]).
    apply Zsum_bits in Hbits. rewrite Hlen in Hbits.
    assert (0 <= inject_Z (Zsum l)) as Hs0
      by (change 0 with (inject_Z 0); rewrite <- Zle_Qle; lia).
    assert (inject_Z (Zsum l) <= inject_Z (Z.of_nat num_trials)) as Hs1
      by (rewrite <- Zle_Qle; lia).
    split.
    + rewrite Hcell. split.
      * apply Qle_shift_div_l; [done|]. lra.
      * apply Qle_shift_div_r; [done|]. lra.
    + exists p, q, l. split; [done|]. split; [done|]. split; [done|].
      split; [|done].
      eapply Forall_impl; [exact Hall|].
      intros z (_ & p' & q' & w0 & w2 & s' & Hp' & Hq' & Htrial).
      rewrite Hp in Hp'. rewrite Hq in Hq'.
      injection Hp' as <-. injection Hq' as <-. by exists w0, w2, s'.
Qed.

Lemma ordered_validation_run_cells_witness :
  ordered_validation_run (NO := toy_owner parameter_defaults)
    20 parameter_defaults (ramp_genome 46) 3 0 toy_world
  = Err ZeroDivisionError.
Proof.
  eapply (proj1 (ordered_validation_run_cells
                   (NO := toy_owner parameter_defaults)
                   20 parameter_defaults (ramp_genome 46) 3 0 toy_world)).
  - vm_compute. reflexivity.
  - lia.
  - reflexivity.
Defined.

(** X25: the sizes [ordered_validation_run] tries are [num_sizes] values
    from [circle_min_diameter] to [circle_max_diameter], both included
    when there are at least two, and none outside that range; the two
    returned sets are the same. *)
Theorem ordered_validation_run_sizes {Agent Ball Ctrl : Type}
    `{SA : SensorAgent Agent Ball Ctrl} `{CI : Circle Ball}
    `{NO : NervousSystemOwner Agent}
    (fuel : nat) (cfg : Config) (x : list Q) (num_sizes num_trials : nat)
    (w w' : World Agent Ball) (m : Matrix) (o c : list Q) :
  circle_min_diameter cfg <= circle_max_diameter cfg ->
  ordered_validation_run fuel cfg x num_sizes num_trials w
  = Ok (m, o, c, w') ->
  c = o
  /\ length o = num_sizes
  /\ (forall k v, o !! k = Some v ->
        circle_min_diameter cfg <= v /\ v <= circle_max_diameter cfg)
  /\ ((2 <= num_sizes)%nat ->
      (exists v, o !! 0%nat = Some v /\ v == circle_min_diameter cfg)
      /\ o !! (num_sizes - 1)%nat = Some (circle_max_diameter cfg)).
Proof.
  intros Hle Hrun. unfold ordered_validation_run in Hrun.
  apply bind_ok in Hrun as (w1 & _ & Hrun).
  apply bind_ok in Hrun as (m0 & _ & Hrun).
  apply bind_ok in Hrun as (st & _ & Hrun).
  injection Hrun as _ <- <- _.
  split; [done|]. split; [apply np_linspace_length|]. split.
  - intros k v Hv. by apply (np_linspace_within _ _ num_sizes k).
  - intros Hn. split.
    + rewrite np_linspace_lookup by lia.
      destruct (Nat.eqb_spec 0 (num_sizes - 1)) as [|_]; [lia|].
      eexists. split; [reflexivity|].
      change (inject_Z (Z.of_nat 0)) with 0. ring.
    + rewrite np_linspace_lookup by lia. by rewrite Nat.eqb_refl.
Qed.

Lemma ordered_validation_run_sizes_witness :
  exists (m : Matrix) (o c : list Q) (w' : World ToyAgent ToyBall),
    ordered_validation_run (NO := toy_owner parameter_defaults)
      20 parameter_defaults (ramp_genome 46) 3 1 toy_world
    = Ok (m, o, c, w')
    /\ length o = 3%nat.
Proof.
  destruct (ordered_validation_run (NO := toy_owner parameter_defaults)
              20 parameter_defaults (ramp_genome 46) 3 1 toy_world)
    as [[[[m o] c] w']|e] eqn:Hrun; [|vm_compute in Hrun; discriminate Hrun].
  exists m, o, c, w'. split; [reflexivity|].
  exact (proj1 (proj2 (ordered_validation_run_sizes
                         (NO := toy_owner parameter_defaults)
                         20 parameter_defaults (ramp_genome 46) 3 1
                         toy_world w' m o c ltac:(discriminate) Hrun))).
Defined.

(** ** The normalising distance *)

(** X26: nothing guards [max_distance].  When it is zero, a trial whose
    drops end raises [ZeroDivisionError] in continuous mode, while the
    validation mode, which does not read it, still returns its pair.  When
    it is negative the continuous value leaves the open interval
    [(0, 1)]: at least 1 for a smaller comparison ball, at most 0
    otherwise. *)
Theorem trial_max_distance_unguarded {Agent Ball Ctrl : Type}
    `{SA : SensorAgent Agent Ball Ctrl} `{CI : Circle Ball}
    (fuel : nat) (cfg : Config) (presented comparison : Q) (record : bool)
    (w w' : World Agent Ball) :
  trial_run fuel cfg presented comparison record w = Ok w' ->
  (max_distance cfg == 0 ->
   trial fuel cfg presented comparison record false w
   = Err ZeroDivisionError
   /\ exists success caught,
        trial fuel cfg presented comparison record true w
        = Ok (ValidationPair success caught, w'))
  /\ (max_distance cfg < 0 ->
      exists v,
        trial fuel cfg presented comparison record false w
        = Ok (FitnessValue v, w')
        /\ (comparison < presented -> 1 <= v)
        /\ (~ comparison < presented -> v <= 0)).
Proof.
  intros Hrun. split.
  - intros Hz. split.
    + unfold trial. rewrite Hrun. cbn [bind].
      unfold fitness_outcome, py_div.
      apply Qeq_bool_iff in Hz. by rewrite Hz.
    + rewrite (trial_validation_result fuel cfg presented comparison record
                 w w' Hrun). by eexists _, _.
  - intros Hneg. unfold trial. rewrite Hrun. cbn [bind].
    unfold fitness_outcome. rewrite py_div_ok by lra. cbn [bind].
    set (d := Qabs (ball_center_xpos (ball w') - agent_xpos (agent w'))
              / max_distance cfg).
    assert (d <= 0) as Hd.
    { unfold d.
      pose proof (Qabs_nonneg
                    (ball_center_xpos (ball w') - agent_xpos (agent w')))
        as Habs.
      set (n := Qabs _) in *.
      assert (n / max_distance cfg == - (n / - max_distance cfg)) as ->
        by (field; lra).
      assert (0 <= n / - max_distance cfg)
        by (apply Qle_shift_div_l; lra).
      lra. }
    destruct (Qltb 1 d) eqn:Hcl; [apply Qltb_lt in Hcl; lra|].
    eexists. split; [reflexivity|].
    destruct (Qltb comparison presented) eqn:Hpc;
      [apply Qltb_lt in Hpc | apply Qltb_ge in Hpc]; split; intros; lra.
Qed.

Lemma trial_max_distance_unguarded_witness :
  trial 20
    {| world_left := 0; world_right := 400; world_bottom := 300;
       bilateral_symmetry := false; agent_radius := 15; num_rays := 7;
       num_interneurons := 3; max_distance := 0;
       circle_min_diameter := 20; circle_max_diameter := 50;
       circle_difference := 5; step_size := 1 # 10;
       min_weight := -16; max_weight := 16;
       min_bias := -16; max_bias := 16;
       min_tau := 1; max_tau := 30;
       min_search_value := 0; max_search_value := 1 |}
    50 20 false false toy_world
  = Err ZeroDivisionError.
Proof.
  match goal with
  | |- trial ?f ?c ?p ?q ?r false ?w = _ =>
      destruct (trial_run f c p q r w) as [w'|e] eqn:Hrun;
        [|vm_compute in Hrun; discriminate Hrun];
      exact (proj1 (proj1 (trial_max_distance_unguarded f c p q r w w' Hrun)
                      ltac:(reflexivity)))
  end.
Defined.

(** ** The calls of a trial *)

Section TrialCalls.
Context {Agent Ball Ctrl : Type}.
Context `{SA : SensorAgent Agent Ball Ctrl} `{CI : Circle Ball}.

Variable cfg : Config.

Let LWorld : Type := World (Agent * list AgentCall) (Ball * list BallCall).

Lemma repeat_snoc {A : Type} (l : list A) (x : A) (k : nat) :
  (l ++ [x]) ++ repeat x k = l ++ repeat x (Datatypes.S k).
Proof. by rewrite <- app_assoc. Qed.

Lemma free_steps_snoc (l : list AgentCall) (k : nat) :
  ((l ++ [CallOneObjStep false]) ++ [CallClipPosition]) ++ free_steps k
  = l ++ free_steps (Datatypes.S k).
Proof. unfold free_steps. cbn [repeat concat]. by rewrite <- !app_assoc. Qed.

(** The first loop: a step of the ball and a frozen step of the agent per
    iteration; on the plain collaborators it does the same. *)
Lemma drop_presented_calls (fuel : nat) (record : bool) :
  forall w w' : LWorld,
    drop_presented (SA := logged_agent) (CI := logged_circle)
      fuel cfg record w = Ok w' ->
    drop_presented fuel cfg record (unlogged w) = Ok (unlogged w')
    /\ exists k,
         snd (agent w') = snd (agent w) ++ repeat (CallOneObjStep true) k
         /\ snd (ball w') = snd (ball w) ++ repeat CallBallStep k.
Proof.
  induction fuel as [|fuel IH]; intros w w' Hrun;
    cbn [drop_presented] in *;
    cbn [agent_ypos agent_radius_of ball_leading_edge_y logged_agent
         logged_circle unlogged agent ball] in *;
    destruct (Qltb _ _) eqn:E; try discriminate Hrun.
  - injection Hrun as <-. split; [done|].
    exists 0%nat. cbn [repeat]. by rewrite !app_nil_r.
  - apply bind_ok in Hrun as (r & Hr & Hrun).
    apply IH in Hrun as (Hplain & k & Ha & Hb).
    cbn [agent ball records unlogged fst snd ball_step agent_one_obj_step
         logged_agent logged_circle] in *.
    split.
    + destruct record.
      * cbn [_record_data agent_xpos agent_ypos agent_radius_of agent_rays
             ball_center_xpos ball_center_ypos ball_size logged_agent
             logged_circle fst] in Hr.
        cbn [_record_data records]. rewrite Hr. cbn [bind]. exact Hplain.
      * injection Hr as <-. cbn [bind]. exact Hplain.
    + exists (Datatypes.S k). rewrite Ha, Hb. by rewrite !repeat_snoc.
  - injection Hrun as <-. split; [done|].
    exists 0%nat. cbn [repeat]. by rewrite !app_nil_r.
Qed.

(** The second loop: a step of the ball, a free step of the agent and a
    clipping per iteration. *)
Lemma drop_comparison_calls (fuel : nat) (record : bool) :
  forall w w' : LWorld,
    drop_comparison (SA := logged_agent) (CI := logged_circle)
      fuel cfg record w = Ok w' ->
    drop_comparison fuel cfg record (unlogged w) = Ok (unlogged w')
    /\ exists k,
         snd (agent w') = snd (agent w) ++ free_steps k
         /\ snd (ball w') = snd (ball w) ++ repeat CallBallStep k.
Proof.
  induction fuel as [|fuel IH]; intros w w' Hrun;
    cbn [drop_comparison] in *;
    cbn [agent_ypos agent_radius_of ball_leading_edge_y logged_agent
         logged_circle unlogged agent ball] in *;
    destruct (Qltb _ _) eqn:E; try discriminate Hrun.
  - injection Hrun as <-. split; [done|].
    exists 0%nat. cbn [repeat free_steps concat]. by rewrite !app_nil_r.
  - apply bind_ok in Hrun as (r & Hr & Hrun).
    apply IH in Hrun as (Hplain & k & Ha & Hb).
    cbn [agent ball records unlogged fst snd ball_step agent_one_obj_step
         agent_clip_position logged_agent logged_circle] in *.
    split.
    + destruct record.
      * cbn [_record_data agent_xpos agent_ypos agent_radius_of agent_rays
             ball_center_xpos ball_center_ypos ball_size logged_agent
             logged_circle fst] in Hr.
        cbn [_record_data records]. rewrite Hr. cbn [bind]. exact Hplain.
      * injection Hr as <-. cbn [bind]. exact Hplain.
    + exists (Datatypes.S k). rewrite Ha, Hb.
      by rewrite free_steps_snoc, repeat_snoc.
  - injection Hrun as <-. split; [done|].
    exists 0%nat. cbn [repeat free_steps concat]. by rewrite !app_nil_r.
Qed.

Lemma trial_run_calls (fuel : nat) (p c : Q) (record : bool)
    (w w' : LWorld) :
  trial_run (SA := logged_agent) (CI := logged_circle)
    fuel cfg p c record w = Ok w' ->
  trial_run fuel cfg p c record (unlogged w) = Ok (unlogged w')
  /\ exists k1 k2,
       snd (agent w') = snd (agent w) ++ agent_calls k1 k2
       /\ snd (ball w') = snd (ball w) ++ ball_calls p c k1 k2.
Proof.
  intros Hrun. unfold trial_run in *.
  apply bind_ok in Hrun as (w0 & Hsetup & Hrun).
  apply bind_ok in Hrun as (w1 & Hd1 & Hd2).
  apply drop_presented_calls in Hd1 as (Hp1 & k1 & Ha1 & Hb1).
  apply drop_comparison_calls in Hd2 as (Hp2 & k2 & Ha2 & Hb2).
  assert (trial_setup cfg p record (unlogged w) = Ok (unlogged w0)
          /\ snd (agent w0)
             = snd (agent w)
               ++ [CallSetPosition; CallResetRays; CallInitialize;
                   CallSetVelocityX; CallInitializeRaySensors]
          /\ snd (ball w0)
             = snd (ball w)
               ++ [CallBallSetPosition; CallBallSetSize (p / 2)])
    as (Hs & Ha0 & Hb0).
  { unfold trial_setup in *.
    cbn [agent ball records unlogged fst snd logged_agent logged_circle
         agent_set_position agent_reset_rays nervous_system_initialize
         agent_set_velocity_x agent_initialize_ray_sensors
         agent_radius_of agent_max_ray_length
         ball_set_position ball_set_size] in *.
    apply bind_ok in Hsetup as (r & Hr & Hsetup). injection Hsetup as <-.
    cbn [agent ball records unlogged fst snd]. split.
    - destruct record.
      + cbn [_record_data agent_xpos agent_ypos agent_radius_of agent_rays
             ball_center_xpos ball_center_ypos ball_size logged_agent
             logged_circle fst] in Hr.
        cbn [_record_data]. injection Hr as <-. reflexivity.
      + injection Hr as <-. reflexivity.
    - by rewrite <- !app_assoc. }
  split.
  - rewrite Hs. cbn [bind]. rewrite Hp1. cbn [bind].
    exact Hp2.
  - exists k1, k2. unfold agent_calls, ball_calls.
    rewrite Ha2, Hb2.
    cbn [trial_resetup agent ball fst snd logged_agent logged_circle
         agent_reset_rays ball_set_position ball_set_size].
    rewrite Ha1, Hb1, Ha0, Hb0. by rewrite <- !app_assoc.
Qed.

(** The outcome is read through observers, which the notes leave alone. *)
Lemma validation_outcome_unlogged (p c : Q)
    (a : Agent * list AgentCall) (b : Ball * list BallCall) :
  validation_outcome (SA := logged_agent) (CI := logged_circle) p c a b
  = validation_outcome p c (fst a) (fst b).
Proof. reflexivity. Qed.

Lemma fitness_outcome_unlogged (p c : Q)
    (a : Agent * list AgentCall) (b : Ball * list BallCall) :
  fitness_outcome (SA := logged_agent) (CI := logged_circle) cfg p c a b
  = fitness_outcome cfg p c (fst a) (fst b).
Proof. reflexivity. Qed.

End TrialCalls.

(** C9: run on collaborators that note their calls, whatever these do, a
    trial that returns has called on the agent, in this order:
    [set_position], [reset_rays], the controller's [initialize],
    the assignment of [velocity_x], [initialize_ray_sensors]; then one
    frozen [one_obj_step] per iteration of the first loop; then
    [reset_rays] alone; then a free [one_obj_step] and a [clip_position]
    per iteration of the second loop.  The ball gets a position and the
    presented size, its steps, then a position and the comparison size, and
    its steps.  The controller is thus initialised once, in the set-up, and
    between the two drops the agent only has its rays reset; the noted run
    does what the plain run does.  With a [reset_rays] that leaves the
    controller alone, the state the second drop starts from is the one the
    first drop ended in. *)
Theorem trial_initialises_controller_once {Agent Ball Ctrl : Type}
    `{SA : SensorAgent Agent Ball Ctrl} `{CI : Circle Ball}
    (fuel : nat) (cfg : Config) (presented comparison : Q)
    (record validation : bool)
    (w w' : World (Agent * list AgentCall) (Ball * list BallCall))
    (r : TrialResult) :
  trial (SA := logged_agent) (CI := logged_circle)
    fuel cfg presented comparison record validation w = Ok (r, w') ->
  trial fuel cfg presented comparison record validation (unlogged w)
  = Ok (r, unlogged w')
  /\ (exists k1 k2,
        snd (agent w') = snd (agent w) ++ agent_calls k1 k2
        /\ snd (ball w')
           = snd (ball w) ++ ball_calls presented comparison k1 k2)
  /\ ((forall a : Agent,
         controller_state (agent_reset_rays a) = controller_state a) ->
      exists w0 w1 : World Agent Ball,
        trial_setup cfg presented record (unlogged w) = Ok w0
        /\ drop_presented fuel cfg record w0 = Ok w1
        /\ drop_comparison fuel cfg record
             (trial_resetup cfg comparison w1) = Ok (unlogged w')
        /\ controller_state (agent (trial_resetup cfg comparison w1))
           = controller_state (agent w1)).
Proof.
  intros Hrun.
  pose proof (trial_ok_run (SA := logged_agent) (CI := logged_circle)
                _ _ _ _ _ _ _ _ _ Hrun) as Hw.
  destruct (trial_run_calls cfg fuel presented comparison record w w' Hw)
    as (Hplain & Hcalls).
  split; [|split; [exact Hcalls|]].
  - unfold trial in *. rewrite Hw in Hrun. rewrite Hplain.
    cbn [bind] in *. destruct validation.
    + rewrite validation_outcome_unlogged in Hrun.
      cbn [unlogged agent ball].
      destruct (validation_outcome _ _ _ _) as [success caught].
      injection Hrun as <-. reflexivity.
    + rewrite fitness_outcome_unlogged in Hrun.
      cbn [unlogged agent ball].
      destruct (fitness_outcome _ _ _ _ _) as [v|e]; [|discriminate Hrun].
      cbn [bind] in *. injection Hrun as <-. reflexivity.
  - intros Hframe.
    destruct (trial_run_phases fuel cfg presented comparison record
                (unlogged w) (unlogged w') Hplain)
      as (w0 & w1 & Hs & Hd1 & Hd2).
    exists w0, w1. split; [done|]. split; [done|]. split; [done|].
    cbn [trial_resetup agent]. apply Hframe.
Qed.

Lemma trial_initialises_controller_once_witness :
  exists r w' k1 k2,
    trial (SA := logged_agent) (CI := logged_circle)
      20 parameter_defaults 50 20 false true logged_toy_world = Ok (r, w')
    /\ snd (agent w') = agent_calls k1 k2.
Proof.
  destruct (trial (SA := logged_agent) (CI := logged_circle)
              20 parameter_defaults 50 20 false true logged_toy_world)
    as [[r w']|e] eqn:Hrun; [|vm_compute in Hrun; discriminate Hrun].
  destruct (trial_initialises_controller_once 20 parameter_defaults 50 20
              false true logged_toy_world w' r Hrun)
    as (_ & (k1 & k2 & Ha & _) & _).
  exists r, w', k1, k2. split; [reflexivity | exact Ha].
Defined.

